(** * Quota ledger and model selector of the AI notes backend

    A shallow embedding of [services/redisClient.js] (the counter store
    helpers, the admission check, the status read, the token reconciler and
    the ad-reward credit) and of [selectModel] in [services/modelRouter.js],
    followed by the properties of the specification that concern them; then
    of the rest of the router ([estimateTokens], [routeModelRequest],
    [getRecommendedModel]), of the reconnection delay and of the handlers of
    [routes/modelRoute.js] and [routes/rewardRoute.js], with further
    properties of the code.

    Modelling conventions.
    - An [async] function is a computation over the Redis server it talks
      to: it takes the server state and gives back an outcome (the promise
      resolved with a value, or rejected with an error) and the new state.
      [await] is the bind of that monad; a rejected promise that is awaited
      outside any [try] aborts the rest of the function.
    - The Redis server is a finite map from keys to integer values with an
      optional absolute expiry instant, a clock (milliseconds), and a
      schedule saying which of the coming commands fail (connection lost,
      retries exhausted).  Expired keys are reaped lazily: every command
      treats an entry whose expiry instant has passed as absent.
    - Counters are unbounded integers [Z]; the strings Redis stores for them
      and [parseInt] are not represented.  A JavaScript number holds an
      integer exactly when it lies strictly between -2^53 and 2^53
      ([safeInteger]); what the code returns for a counter beyond that range
      is rounded, and the contract of the counter helpers is stated within
      it.
    - [new Date()] and [Date.now()] are inputs of the functions that call
      them; a [Date] is the record of the UTC fields the code reads.  The
      server's clock is its own, and does not move while one call is
      served.
    - Usage fractions are exact rationals.  The limits the fractions divide
      by are 30 and 500000 and the counters are integers, so a fraction
      that differs from 0.7 or 0.5 differs by far more than the rounding of
      a double, and the comparisons agree with the ones JavaScript makes.
      The same holds of a threshold configured as a whole number of
      percent [p]: [p / 100] and the fractions are quotients of integers,
      equal as doubles when they are equal and apart by 1/500000 at least
      when they are not.  A threshold with decimals is rounded twice by the
      code, by [parseFloat] and by the division (65.1 gives
      0.6509999999999999), and may then compare otherwise with a fraction
      equal to the rational it denotes; the case analysis of [selectModel]
      is therefore stated for the default and for whole percents
      ([wholePercent]). *)

From stdpp Require Import gmap strings pretty list.
From Stdlib Require Import Ascii QArith.

Open Scope Z_scope.

(** ** Promises *)

Inductive Outcome (A : Type) : Type :=
| Resolved (a : A)
| Thrown (error : string).
Arguments Resolved {A} a.
Arguments Thrown {A} error.

(** ** The Redis server *)

Record Entry := mkEntry { value : Z; expireAt : option Z }.

Record Redis := mkRedis {
  db : gmap string Entry;
  clock : Z;
  faults : list bool
}.

Definition Async (A : Type) : Type := Redis -> Outcome A * Redis.

Definition ret {A} (a : A) : Async A := fun r => (Resolved a, r).

Definition bind {A B} (c : Async A) (k : A -> Async B) : Async B :=
  fun r =>
    match c r with
    | (Resolved a, r') => k a r'
    | (Thrown e, r') => (Thrown e, r')
    end.

Notation "x <~ 'await' c ;; k" := (bind c (fun x => k))
  (at level 100, c at next level, right associativity).
Notation "'await' c ;; k" := (bind c (fun _ => k))
  (at level 100, c at next level, right associativity).

(** [try { body } catch (error) { handler }] around awaited calls. *)
Definition try_catch {A} (body : Async A) (handler : string -> A) : Async A :=
  fun r =>
    match body r with
    | (Resolved a, r') => (Resolved a, r')
    | (Thrown e, r') => (Resolved (handler e), r')
    end.

Definition live (t : Z) (e : Entry) : bool :=
  match expireAt e with
  | Some deadline => bool_decide (t < deadline)
  | None => true
  end.

(** The entry a command sees under [key]: none when absent or expired. *)
Definition peek (r : Redis) (key : string) : option Entry :=
  match db r !! key with
  | Some e => if live (clock r) e then Some e else None
  | None => None
  end.

Definition connection_error : string := "Connection is closed.".

(** One round trip: the next entry of the fault schedule decides whether
    the command reaches the server; an empty schedule is a healthy store. *)
Definition command {A} (run : Redis -> A * gmap string Entry) : Async A :=
  fun r =>
    match faults r with
    | true :: rest => (Thrown connection_error, mkRedis (db r) (clock r) rest)
    | false :: rest =>
        let '(a, d) := run r in (Resolved a, mkRedis d (clock r) rest)
    | [] => let '(a, d) := run r in (Resolved a, mkRedis d (clock r) [])
    end.

(** GET *)
Definition redis_get (key : string) : Async (option Z) :=
  command (fun r => (value <$> peek r key, db r)).

(** INCRBY: an absent key counts as 0; the expiry of a live key is kept. *)
Definition redis_incrby (key : string) (amount : Z) : Async Z :=
  command (fun r =>
    match peek r key with
    | Some e =>
        (value e + amount, <[key := mkEntry (value e + amount) (expireAt e)]> (db r))
    | None => (amount, <[key := mkEntry amount None]> (db r))
    end).

(** INCR *)
Definition redis_incr (key : string) : Async Z := redis_incrby key 1.

(** EXPIRE: answers 0 on an absent key; a timeout that is not positive
    deletes the key. *)
Definition redis_expire (key : string) (seconds : Z) : Async Z :=
  command (fun r =>
    match peek r key with
    | Some e =>
        if bool_decide (0 < seconds)
        then (1, <[key := mkEntry (value e) (Some (clock r + seconds * 1000))]> (db r))
        else (1, delete key (db r))
    | None => (0, db r)
    end).

(** ** Counter helpers *)

Definition incrementCounter (key : string) (ttl : Z) : Async Z :=
  current <~ await redis_incr key ;;
  if bool_decide (current = 1)
  then (await redis_expire key ttl ;; ret current)
  else ret current.

Definition getCounter (key : string) : Async Z :=
  value <~ await redis_get key ;;
  ret (match value with Some v => v | None => 0 end).

(** ** Time buckets and keys *)

Record Date := mkDate {
  getUTCFullYear : Z;
  getUTCMonth : Z;
  getUTCDate : Z;
  getUTCHours : Z;
  getUTCMinutes : Z
}.

Definition dayBucket (now : Date) : string :=
  pretty (getUTCFullYear now) +:+ "-" +:+ pretty (getUTCMonth now) +:+ "-"
  +:+ pretty (getUTCDate now).

Definition minuteBucket (now : Date) : string :=
  pretty (getUTCFullYear now) +:+ "-" +:+ pretty (getUTCMonth now) +:+ "-"
  +:+ pretty (getUTCDate now) +:+ "-" +:+ pretty (getUTCHours now) +:+ "-"
  +:+ pretty (getUTCMinutes now).

Definition globalRpmKey (now : Date) : string := "global:rpm:" +:+ minuteBucket now.
Definition globalRpdKey (now : Date) : string := "global:rpd:" +:+ dayBucket now.
Definition globalTpmKey (now : Date) : string := "global:tpm:" +:+ minuteBucket now.
Definition globalTpdKey (now : Date) : string := "global:tpd:" +:+ dayBucket now.
Definition userRpdKey (userId : string) (now : Date) : string :=
  "user:rpd:" +:+ userId +:+ ":" +:+ dayBucket now.
Definition userTpdKey (userId : string) (now : Date) : string :=
  "user:tpd:" +:+ userId +:+ ":" +:+ dayBucket now.

(** ** Configuration read from the process environment

    [None] is an unset (or empty) variable, [Some n] a variable whose text
    parses to the number [n]. *)

Record Env := mkEnv {
  RATE_LIMIT_RPM : option Z;
  RATE_LIMIT_RPD : option Z;
  RATE_LIMIT_TPM : option Z;
  RATE_LIMIT_TPD : option Z;
  FALLBACK_THRESHOLD_PERCENT : option Q
}.

Definition defaultEnv : Env := mkEnv None None None None None.

(** The shape shared by the [usage] and [limits] objects. *)
Record Quotas := mkQuotas {
  rpm : Z; rpd : Z; tpm : Z; tpd : Z; userRpd : Z; userTpd : Z
}.

Record LimitCheck := mkLimitCheck {
  allowed : bool;
  usage : Quotas;
  limits : Quotas;
  reason : option string
}.

Definition globalLimits_rpm : Z := 30.
Definition globalLimits_rpd : Z := 14400.
Definition globalLimits_tpm : Z := 6000.
Definition globalLimits_tpd : Z := 500000.

Definition userLimits_rpd (env : Env) : Z := default 50 (RATE_LIMIT_RPD env).
Definition userLimits_tpd (env : Env) : Z := default 20000 (RATE_LIMIT_TPD env).

Definition ledgerLimits (env : Env) : Quotas :=
  mkQuotas globalLimits_rpm globalLimits_rpd globalLimits_tpm globalLimits_tpd
           (userLimits_rpd env) (userLimits_tpd env).

(** ** Admission *)

Definition checkAndIncrementLimits (env : Env) (now : Date)
    (userId : string) (tokensEstimated : Z) : Async LimitCheck :=
  g_rpm <~ await getCounter (globalRpmKey now) ;;
  g_rpd <~ await getCounter (globalRpdKey now) ;;
  g_tpm <~ await getCounter (globalTpmKey now) ;;
  g_tpd <~ await getCounter (globalTpdKey now) ;;
  u_rpd <~ await getCounter (userRpdKey userId now) ;;
  u_tpd <~ await getCounter (userTpdKey userId now) ;;
  let snapshot := mkQuotas g_rpm g_rpd g_tpm g_tpd u_rpd u_tpd in
  let reject why := ret (mkLimitCheck false snapshot (ledgerLimits env) (Some why)) in
  if bool_decide (g_rpm >= globalLimits_rpm) then
    reject "Global requests per minute limit exceeded (Groq API)"
  else if bool_decide (g_rpd >= globalLimits_rpd) then
    reject "Global requests per day limit exceeded (Groq API)"
  else if bool_decide (g_tpm + tokensEstimated > globalLimits_tpm) then
    reject "Global tokens per minute limit exceeded (Groq API)"
  else if bool_decide (g_tpd + tokensEstimated > globalLimits_tpd) then
    reject "Global tokens per day limit exceeded (Groq API - 500K/day)"
  else if bool_decide (u_rpd >= userLimits_rpd env) then
    reject "User requests per day limit exceeded (Your App Quota)"
  else if bool_decide (u_tpd + tokensEstimated > userLimits_tpd env) then
    reject "User tokens per day limit exceeded (Your App Quota)"
  else
    await incrementCounter (globalRpmKey now) 60 ;;
    await incrementCounter (globalRpdKey now) 86400 ;;
    await incrementCounter (userRpdKey userId now) 86400 ;;
    ret (mkLimitCheck true
           (mkQuotas (g_rpm + 1) (g_rpd + 1) g_tpm g_tpd (u_rpd + 1) u_tpd)
           (ledgerLimits env) None).

(** ** Status *)

Definition getQuotaStatus (env : Env) (now : Date) (userId : string)
    : Async (Quotas * Quotas) :=
  g_rpm <~ await getCounter (globalRpmKey now) ;;
  g_rpd <~ await getCounter (globalRpdKey now) ;;
  g_tpm <~ await getCounter (globalTpmKey now) ;;
  g_tpd <~ await getCounter (globalTpdKey now) ;;
  u_rpd <~ await getCounter (userRpdKey userId now) ;;
  u_tpd <~ await getCounter (userTpdKey userId now) ;;
  ret (mkQuotas g_rpm g_rpd g_tpm g_tpd u_rpd u_tpd, ledgerLimits env).

(** ** Reconciliation *)

Record RecordResult := mkRecordResult { success : bool; error : option string }.

Definition recordActualTokenUsage (now : Date) (userId : string)
    (actualTokensUsed : Z) : Async RecordResult :=
  try_catch
    (await redis_incrby (globalTpmKey now) actualTokensUsed ;;
     await redis_incrby (globalTpdKey now) actualTokensUsed ;;
     await redis_incrby (userTpdKey userId now) actualTokensUsed ;;
     await redis_expire (globalTpmKey now) 60 ;;
     await redis_expire (globalTpdKey now) 86400 ;;
     await redis_expire (userTpdKey userId now) 86400 ;;
     ret (mkRecordResult true None))
    (fun e => mkRecordResult false (Some e)).

(** ** Ad rewards *)

Record RewardQuotas := mkRewardQuotas {
  r_rpm : Z; r_rpd : Z; r_tpm : Z; r_tpd : Z
}.

Record RewardResult := mkRewardResult {
  reward_success : bool;
  reward_error : option string;
  reward_usage : option RewardQuotas;
  reward_limits : option RewardQuotas
}.

Definition rewardLimits (env : Env) : RewardQuotas :=
  mkRewardQuotas (default 30 (RATE_LIMIT_RPM env)) (default 10 (RATE_LIMIT_RPD env))
                 (default 6000 (RATE_LIMIT_TPM env)) (default 20000 (RATE_LIMIT_TPD env)).

Definition rewardKey (dimension userId bucket : string) : string :=
  dimension +:+ ":" +:+ userId +:+ ":" +:+ bucket.

Definition incrementRewardQuota (env : Env) (now : Date)
    (userId module rewardType : string) (amount : Z) : Async RewardResult :=
  let credit key :=
    await redis_incrby key amount ;;
    u_rpm <~ await getCounter (rewardKey "rpm" userId (minuteBucket now)) ;;
    u_rpd <~ await getCounter (rewardKey "rpd" userId (dayBucket now)) ;;
    u_tpm <~ await getCounter (rewardKey "tpm" userId (minuteBucket now)) ;;
    u_tpd <~ await getCounter (rewardKey "tpd" userId (dayBucket now)) ;;
    ret (mkRewardResult true None (Some (mkRewardQuotas u_rpm u_rpd u_tpm u_tpd))
           (Some (rewardLimits env))) in
  if bool_decide (rewardType = "tokens") then
    credit (rewardKey "tpd" userId (dayBucket now))
  else if bool_decide (rewardType = "requests") then
    credit (rewardKey "rpd" userId (dayBucket now))
  else ret (mkRewardResult false (Some "Invalid rewardType") None None).

(** ** Model selection *)

Definition MODELS_default : string := "llama-3.1-8b-instant".
Definition MODELS_fallback : string := "compound-mini".

(** [parseFloat(process.env.FALLBACK_THRESHOLD_PERCENT || '70') / 100], as
    the exact quotient; it is what the code compares with for the default
    and for a whole number of percent. *)
Definition FALLBACK_THRESHOLD (env : Env) : Q :=
  (default (70 # 1) (FALLBACK_THRESHOLD_PERCENT env) / (100 # 1))%Q.

Definition FALLBACK_DURATION_MS : Z := 5 * 60 * 1000.

(** The Node process: the Redis server it is connected to and the
    module-level variable [fallbackModeUntil] ([None] is [null]). *)
Record Process := mkProcess {
  redis : Redis;
  fallbackModeUntil : option Z
}.

(** [fallbackModeUntil && now < fallbackModeUntil]: [null] and [0] are falsy. *)
Definition holdActive (until : option Z) (now : Z) : bool :=
  match until with
  | Some deadline => bool_decide (deadline <> 0) && bool_decide (now < deadline)
  | None => false
  end.

(** [preferredModel || MODELS.default], with [None] for a missing argument. *)
Definition orDefault (preferredModel : option string) : string :=
  match preferredModel with
  | Some m => if bool_decide (m = "") then MODELS_default else m
  | None => MODELS_default
  end.

Definition fraction (used limit : Z) : Q := (inject_Z used / inject_Z limit)%Q.

(** [x < y] on fractions, as a test. *)
Definition Qltb (x y : Q) : bool := negb (Qle_bool y x).

Definition selectModel (env : Env) (today : Date) (now : Z) (userId : string)
    (preferredModel : option string) (p : Process) : Outcome string * Process :=
  match getQuotaStatus env today userId (redis p) with
  | (Thrown e, r') => (Thrown e, mkProcess r' (fallbackModeUntil p))
  | (Resolved (usage, limits), r') =>
      if holdActive (fallbackModeUntil p) now then
        (Resolved MODELS_fallback, mkProcess r' (fallbackModeUntil p))
      else
        let tpdPercent := fraction (tpd usage) (tpd limits) in
        let rpmPercent := fraction (rpm usage) (rpm limits) in
        if Qltb (FALLBACK_THRESHOLD env) tpdPercent
           || Qltb (FALLBACK_THRESHOLD env) rpmPercent then
          (Resolved MODELS_fallback, mkProcess r' (Some (now + FALLBACK_DURATION_MS)))
        else if Qltb tpdPercent (1 # 2) && Qltb rpmPercent (1 # 2) then
          (Resolved (orDefault preferredModel), mkProcess r' None)
        else
          (Resolved (orDefault preferredModel), mkProcess r' (fallbackModeUntil p))
  end.

(** ** Connection retries

    [retryStrategy(times)] of the ioredis options: the delay in
    milliseconds before reconnection attempt number [times]. *)

Definition retryStrategy (times : Z) : Z := Z.min (times * 50) 2000.

(** ** Token estimate

    The words of a text are its maximal runs of characters that are not
    white space, which is what [text.split(/\s+/)] leaves once the empty
    pieces are filtered out; [Math.ceil(words * 0.75)] is the least integer
    not below three quarters of their number.  Strings are sequences of
    ASCII characters, so the white space of [\s] outside ASCII is not
    represented. *)

Definition estimateTokens (text : string) : Z :=
  let words := Z.of_nat (length (String.words text)) in
  (3 * words + 3) `div` 4.

(** ** Computations of the process

    An [async] function of [modelRouter.js] runs over the whole process:
    the Redis server and [fallbackModeUntil]. *)

Definition AsyncP (A : Type) : Type := Process -> Outcome A * Process.

Definition retP {A} (a : A) : AsyncP A := fun p => (Resolved a, p).

Definition bindP {A B} (c : AsyncP A) (k : A -> AsyncP B) : AsyncP B :=
  fun p =>
    match c p with
    | (Resolved a, p') => k a p'
    | (Thrown e, p') => (Thrown e, p')
    end.

Notation "x <~ 'awaitP' c ;; k" := (bindP c (fun x => k))
  (at level 100, c at next level, right associativity).
Notation "'awaitP' c ;; k" := (bindP c (fun _ => k))
  (at level 100, c at next level, right associativity).

Definition try_catchP {A} (body : AsyncP A) (handler : string -> A) : AsyncP A :=
  fun p =>
    match body p with
    | (Resolved a, p') => (Resolved a, p')
    | (Thrown e, p') => (Resolved (handler e), p')
    end.

(** A function of [redisClient.js] called from the process. *)
Definition onRedis {A} (c : Async A) : AsyncP A :=
  fun p => let '(o, r') := c (redis p) in (o, mkProcess r' (fallbackModeUntil p)).

(** ** The completion API

    The Groq client is outside the repository: it is an input of the
    router, the answer it gives to each request. *)

Record Message := mkMessage { role : string; content : string }.

Record ChatRequest := mkChatRequest {
  messages : list Message;
  model : string;
  temperature : Q;
  max_tokens : Z;
  top_p : Q
}.

(** What the router reads of a completion: [choices[0]?.message?.content]
    and [usage?.total_tokens], [None] when the optional chain is undefined. *)
Record ChatCompletion := mkChatCompletion {
  messageContent : option string;
  totalTokens : option Z
}.

Definition Groq : Type := ChatRequest -> Outcome ChatCompletion.

Definition create (groq : Groq) (request : ChatRequest) : AsyncP ChatCompletion :=
  fun p => (groq request, p).

(** ** Request routing *)

Record RemainingQuota := mkRemainingQuota {
  tokensPerMinute : Z;
  tokensPerDay : Z;
  requestsPerMinute : Z;
  requestsPerDay : Z
}.

Definition remainingQuota (limitCheck : LimitCheck) : RemainingQuota :=
  mkRemainingQuota
    (tpm (limits limitCheck) - tpm (usage limitCheck))
    (tpd (limits limitCheck) - tpd (usage limitCheck))
    (rpm (limits limitCheck) - rpm (usage limitCheck))
    (rpd (limits limitCheck) - rpd (usage limitCheck)).

(** The three objects [routeModelRequest] returns: the served request
    ([success: true]), the refusal of the admission check
    ([success: false] with the reason and the remaining quota), and the
    object of the [catch] ([success: false], [modelUsed: null],
    [tokensUsed: 0]). *)
Inductive RouteResult :=
| Served (response modelUsed : string) (tokensUsed : Z) (remaining : RemainingQuota)
| Refused (error : option string) (remaining : RemainingQuota)
| Failed (error : string).

Definition routeSuccess (result : RouteResult) : bool :=
  match result with Served _ _ _ _ => true | _ => false end.

(** The arguments of [routeModelRequest]; [None] is an argument left
    undefined, which takes its default. *)
Record RouteArgs := mkRouteArgs {
  argUserId : string;
  argPrompt : string;
  argSystemPrompt : option string;
  argMaxTokens : option Z;
  argTemperature : option Q;
  argTaskType : option string;
  argPreferredModel : option string
}.

(** The readings of the process clock during one routed request. *)
Record Instants := mkInstants {
  admissionDate : Date;
  selectionDate : Date;
  selectionNow : Z;
  recordDate : Date
}.

Definition routeModelRequest (env : Env) (groq : Groq) (when : Instants)
    (args : RouteArgs) : AsyncP RouteResult :=
  let userId := argUserId args in
  let prompt := argPrompt args in
  let systemPrompt := default "" (argSystemPrompt args) in
  let maxTokens := default 1000 (argMaxTokens args) in
  let temperature := default (7 # 10) (argTemperature args) in
  let preferredModel := default MODELS_default (argPreferredModel args) in
  try_catchP
    (let promptTokens := estimateTokens (prompt +:+ systemPrompt) in
     let estimatedTotalTokens := promptTokens + maxTokens in
     limitCheck <~ awaitP onRedis (checkAndIncrementLimits env (admissionDate when)
                                     userId estimatedTotalTokens) ;;
     if negb (allowed limitCheck) then
       retP (Refused (reason limitCheck) (remainingQuota limitCheck))
     else
       modelToUse <~ awaitP selectModel env (selectionDate when) (selectionNow when)
                              userId (Some preferredModel) ;;
       let messages :=
         (if bool_decide (systemPrompt = "") then []
          else [mkMessage "system" systemPrompt])
         ++ [mkMessage "user" prompt] in
       chatCompletion <~ awaitP create groq
                           (mkChatRequest messages modelToUse temperature
                                          maxTokens (9 # 10)) ;;
       let response := default "" (messageContent chatCompletion) in
       let actualTokensUsed :=
         match totalTokens chatCompletion with
         | Some n => if bool_decide (n = 0) then estimatedTotalTokens else n
         | None => estimatedTotalTokens
         end in
       awaitP onRedis (recordActualTokenUsage (recordDate when) userId
                         actualTokensUsed) ;;
       retP (Served response modelToUse actualTokensUsed (remainingQuota limitCheck)))
    (fun e => Failed (if bool_decide (e = "") then "AI request failed" else e)).

Definition getRecommendedModel (env : Env) (today : Date) (now : Z)
    (userId : string) : AsyncP string :=
  selectModel env today now userId None.

(** ** Routes

    A handler answers with a status code and a JSON body.  The fields of a
    request body are strings and numbers; [None] is a field that is
    missing. *)

Definition truthyString (field : option string) : bool :=
  match field with
  | Some s => negb (bool_decide (s = ""))
  | None => false
  end.

Definition truthyNumber (field : option Z) : bool :=
  match field with
  | Some n => negb (bool_decide (n = 0))
  | None => false
  end.

Record RewardBody := mkRewardBody {
  bodyUserId : option string;
  bodyModule : option string;
  bodyRewardType : option string;
  bodyAmount : option Z
}.

Inductive RewardResponse :=
| RewardJson (status : Z) (result : RewardResult)
| RewardErrorJson (status : Z) (error : string).

Definition rewardStatus (response : RewardResponse) : Z :=
  match response with
  | RewardJson status _ => status
  | RewardErrorJson status _ => status
  end.

(** POST /api/reward *)
Definition postReward (env : Env) (now : Date) (body : RewardBody)
    : Async RewardResponse :=
  try_catch
    (match bodyUserId body, bodyModule body, bodyRewardType body, bodyAmount body with
     | Some userId, Some module, Some rewardType, Some amount =>
         if negb (truthyString (Some userId)) || negb (truthyString (Some module))
            || negb (truthyString (Some rewardType))
            || negb (truthyNumber (Some amount))
         then ret (RewardErrorJson 400
                "Missing required fields: userId, module, rewardType, amount")
         else
           result <~ await incrementRewardQuota env now userId module rewardType amount ;;
           if reward_success result then ret (RewardJson 200 result)
           else ret (RewardJson 400 result)
     | _, _, _, _ =>
         ret (RewardErrorJson 400
                "Missing required fields: userId, module, rewardType, amount")
     end)
    (fun _ => RewardErrorJson 500 "Internal server error").

Record RouteModelBody := mkRouteModelBody {
  reqUserId : option string;
  reqPrompt : option string;
  reqSystemPrompt : option string;
  reqMaxTokens : option Z;
  reqTemperature : option Q;
  reqTaskType : option string;
  reqPreferredModel : option string
}.

Inductive RouteModelResponse :=
| RouteJson (status : Z) (result : RouteResult)
| RouteErrorJson (status : Z) (error : string).

(** [field || fallback] on a number and on a string. *)
Definition orNumber (field : option Z) (fallback : Z) : Z :=
  match field with
  | Some n => if bool_decide (n = 0) then fallback else n
  | None => fallback
  end.

Definition orFraction (field : option Q) (fallback : Q) : Q :=
  match field with
  | Some q => if Qeq_bool q 0 then fallback else q
  | None => fallback
  end.

Definition orString (field : option string) (fallback : string) : string :=
  match field with
  | Some s => if bool_decide (s = "") then fallback else s
  | None => fallback
  end.

(** POST /api/routeModel *)
Definition postRouteModel (env : Env) (groq : Groq) (when : Instants)
    (body : RouteModelBody) : AsyncP RouteModelResponse :=
  try_catchP
    (match reqUserId body, reqPrompt body with
     | Some userId, Some prompt =>
         if negb (truthyString (Some userId)) || negb (truthyString (Some prompt))
         then retP (RouteErrorJson 400 "Missing required fields: userId and prompt")
         else
           result <~ awaitP routeModelRequest env groq when
                      (mkRouteArgs userId prompt (reqSystemPrompt body)
                         (Some (orNumber (reqMaxTokens body) 1000))
                         (Some (orFraction (reqTemperature body) (7 # 10)))
                         (Some (orString (reqTaskType body) "general"))
                         (reqPreferredModel body)) ;;
           if routeSuccess result then retP (RouteJson 200 result)
           else retP (RouteJson 429 result)
     | _, _ => retP (RouteErrorJson 400 "Missing required fields: userId and prompt")
     end)
    (fun _ => RouteErrorJson 500 "Internal server error").

Record QuotaLine := mkQuotaLine { used : Z; limit : Z; remainingOf : Z }.

Record QuotaStatusJson := mkQuotaStatusJson {
  statusUserId : string;
  lineRequestsPerMinute : QuotaLine;
  lineRequestsPerDay : QuotaLine;
  lineTokensPerMinute : QuotaLine;
  lineTokensPerDay : QuotaLine;
  lineUserRequestsPerDay : QuotaLine;
  lineUserTokensPerDay : QuotaLine;
  recommendedModel : string
}.

Inductive QuotaStatusResponse :=
| QuotaJson (status : Z) (body : QuotaStatusJson)
| QuotaErrorJson (status : Z) (error : string).

Definition quotaLine (used limit : Z) : QuotaLine :=
  mkQuotaLine used limit (limit - used).

(** GET /api/quotaStatus/:userId *)
Definition getQuotaStatusRoute (env : Env) (now : Date) (userId : string)
    : Async QuotaStatusResponse :=
  try_catch
    (status <~ await getQuotaStatus env now userId ;;
     let '(usage, limits) := status in
     ret (QuotaJson 200
            (mkQuotaStatusJson userId
               (quotaLine (rpm usage) (rpm limits))
               (quotaLine (rpd usage) (rpd limits))
               (quotaLine (tpm usage) (tpm limits))
               (quotaLine (tpd usage) (tpd limits))
               (quotaLine (userRpd usage) (userRpd limits))
               (quotaLine (userTpd usage) (userTpd limits))
               (if Qltb (7 # 10) (fraction (tpd usage) (tpd limits))
                then "compound-mini" else "llama-3.1-8b-instant"))))
    (fun _ => QuotaErrorJson 500 "Failed to get quota status").

(** ** Resetting the quota of an identity

    DELETE /api/resetQuota/:userId opens a connection of its own and sends
    KEYS, DEL (when some key matched) and QUIT.  KEYS answers with the keys
    that have not expired and that match the pattern; how a glob pattern
    matches a key is Redis's own business and is an input of the model,
    [matches pattern key].  The order of the keys in the answer is not
    specified by Redis. *)

Definition redis_keys (matches : string -> string -> bool) (pattern : string)
    : Async (list string) :=
  command (fun r =>
    (List.filter
       (fun key => match peek r key with
                   | Some _ => matches pattern key
                   | None => false
                   end)
       (map_to_list (db r)).*1,
     db r)).

(** DEL: answers the number of keys it removed. *)
Definition redis_del (keys : list string) : Async Z :=
  command (fun r =>
    (Z.of_nat (length (List.filter
                         (fun key => bool_decide (is_Some (peek r key))) keys)),
     foldr delete (db r) keys)).

(** QUIT *)
Definition redis_quit : Async string :=
  command (fun r => ("OK", db r)).

Inductive ResetResponse :=
| ResetJson (status : Z) (message : string) (keysDeleted : list string)
| ResetErrorJson (status : Z) (error : string).

Definition resetQuota (matches : string -> string -> bool) (userId : string)
    : Async ResetResponse :=
  try_catch
    (let pattern := "*:" +:+ userId +:+ ":*" in
     keys <~ await redis_keys matches pattern ;;
     await (if bool_decide (0 < length keys)%nat
            then (await redis_del keys ;; ret tt)
            else ret tt) ;;
     await redis_quit ;;
     ret (ResetJson 200
            ("Reset " +:+ pretty (length keys) +:+ " quota keys for user " +:+ userId)
            keys))
    (fun _ => ResetErrorJson 500 "Failed to reset quota").

(** ** Sequences of calls

    Each call reaches the Redis server at some instant of the server's
    clock and meets some availability of the connection. *)

Inductive Op :=
| Admission (now : Date) (userId : string) (tokensEstimated : Z)
| StatusRead (now : Date) (userId : string)
| Reconcile (now : Date) (userId : string) (actualTokensUsed : Z)
| RewardCredit (now : Date) (userId module rewardType : string) (amount : Z).

Record Call := mkCall { callClock : Z; callFaults : list bool; callOp : Op }.

Inductive Reply :=
| AdmissionReply (o : Outcome LimitCheck)
| StatusReply (o : Outcome (Quotas * Quotas))
| ReconcileReply (o : Outcome RecordResult)
| RewardReply (o : Outcome RewardResult).

Definition perform (env : Env) (c : Call) (d : gmap string Entry)
    : Reply * gmap string Entry :=
  let r := mkRedis d (callClock c) (callFaults c) in
  match callOp c with
  | Admission now userId tokens =>
      let '(o, r') := checkAndIncrementLimits env now userId tokens r in
      (AdmissionReply o, db r')
  | StatusRead now userId =>
      let '(o, r') := getQuotaStatus env now userId r in (StatusReply o, db r')
  | Reconcile now userId tokens =>
      let '(o, r') := recordActualTokenUsage now userId tokens r in
      (ReconcileReply o, db r')
  | RewardCredit now userId module rewardType amount =>
      let '(o, r') := incrementRewardQuota env now userId module rewardType amount r in
      (RewardReply o, db r')
  end.

Fixpoint performAll (env : Env) (cs : list Call) (d : gmap string Entry)
    : list Reply * gmap string Entry :=
  match cs with
  | [] => ([], d)
  | c :: rest =>
      let '(a, d') := perform env c d in
      let '(replies, d'') := performAll env rest d' in
      (a :: replies, d'')
  end.

Definition isReconcile (c : Call) : bool :=
  match callOp c with Reconcile _ _ _ => true | _ => false end.
Definition isReward (c : Call) : bool :=
  match callOp c with RewardCredit _ _ _ _ _ => true | _ => false end.

(** * Vocabulary of the properties *)

(** ** Reads, snapshots and limit dimensions *)

(** What [getCounter] reads under [key]. *)
Definition counterValue (r : Redis) (key : string) : Z :=
  match peek r key with Some e => value e | None => 0 end.

(** The usage snapshot the ledger assembles for an identity. *)
Definition snapshot (r : Redis) (now : Date) (userId : string) : Quotas :=
  mkQuotas (counterValue r (globalRpmKey now)) (counterValue r (globalRpdKey now))
           (counterValue r (globalTpmKey now)) (counterValue r (globalTpdKey now))
           (counterValue r (userRpdKey userId now)) (counterValue r (userTpdKey userId now)).

(** The first [n] commands to come reach the store. *)
Definition no_fault (n : nat) (fl : list bool) : bool := forallb negb (take n fl).

(** The six limit dimensions, and the order in which they are tested. *)
Inductive Dimension :=
| GlobalRpm | GlobalRpd | GlobalTpm | GlobalTpd | IdentityRpd | IdentityTpd.

Definition precedence : list Dimension :=
  [GlobalRpm; GlobalRpd; GlobalTpm; GlobalTpd; IdentityRpd; IdentityTpd].

(** Request dimensions fail at the limit, token dimensions when the
    estimate would pass it. *)
Definition exceeded (lim use : Quotas) (estimate : Z) (d : Dimension) : bool :=
  match d with
  | GlobalRpm => bool_decide (rpm use >= rpm lim)
  | GlobalRpd => bool_decide (rpd use >= rpd lim)
  | GlobalTpm => bool_decide (tpm use + estimate > tpm lim)
  | GlobalTpd => bool_decide (tpd use + estimate > tpd lim)
  | IdentityRpd => bool_decide (userRpd use >= userRpd lim)
  | IdentityTpd => bool_decide (userTpd use + estimate > userTpd lim)
  end.

(** The message by which a rejection names a dimension. *)
Definition reasonOf (d : Dimension) : string :=
  match d with
  | GlobalRpm => "Global requests per minute limit exceeded (Groq API)"
  | GlobalRpd => "Global requests per day limit exceeded (Groq API)"
  | GlobalTpm => "Global tokens per minute limit exceeded (Groq API)"
  | GlobalTpd => "Global tokens per day limit exceeded (Groq API - 500K/day)"
  | IdentityRpd => "User requests per day limit exceeded (Your App Quota)"
  | IdentityTpd => "User tokens per day limit exceeded (Your App Quota)"
  end.

(** The segments of a key between its colons. *)
Fixpoint segmentsFrom (acc : string) (s : string) : list string :=
  match s with
  | EmptyString => [String.rev acc]
  | String c rest =>
      if bool_decide (c = ":"%char) then String.rev acc :: segmentsFrom "" rest
      else segmentsFrom (String c acc) rest
  end.
Definition segments (s : string) : list string := segmentsFrom "" s.

(** ** The store during a call *)

(** The server after a command that left the database [d]. *)
Definition after (d : gmap string Entry) (r : Redis) : Redis :=
  mkRedis d (clock r) (tail (faults r)).

(** The server after [n] reads. *)
Fixpoint afterReads (n : nat) (r : Redis) : Redis :=
  match n with
  | O => r
  | S m => afterReads m (after (db r) r)
  end.

(** The expiry instant of [e] is not after [t]. *)
Definition expired (t : Z) (e : Entry) : Prop :=
  exists deadline, expireAt e = Some deadline /\ deadline <= t.

(** No counter under [key]: never created, or its expiry has elapsed. *)
Definition gone (r : Redis) (key : string) : Prop :=
  db r !! key = None \/ exists e, db r !! key = Some e /\ expired (clock r) e.

(** The counter under [key] is [e] and has not expired. *)
Definition stored (r : Redis) (key : string) (e : Entry) : Prop :=
  db r !! key = Some e /\ ~ expired (clock r) e.

(** [Number.isSafeInteger]: the integers a JavaScript number holds exactly,
    with their neighbours. *)
Definition safeInteger (n : Z) : Prop := - 2 ^ 53 < n < 2 ^ 53.

(** [issued c r m]: run from [r], the computation [c] sent [m] commands to
    the store; it resolved if all of them reached it, and it threw the
    connection error if the last one sent, and only that one, failed. *)
Definition issued {A} (c : Async A) (r : Redis) (m : nat) : Prop :=
  faults (c r).2 = drop m (faults r)
  /\ match (c r).1 with
     | Resolved _ => no_fault m (faults r) = true
     | Thrown e =>
         e = connection_error
         /\ exists i, m = S i /\ no_fault i (faults r) = true
                      /\ faults r !! i = Some true
     end.

(** [c] resolves only when the store served it, after at least [least a]
    commands if it resolves with [a], and throws only the store's error. *)
Definition metered {A} (least : A -> nat) (c : Async A) : Prop :=
  forall r, exists m,
    issued c r m /\ forall a, (c r).1 = Resolved a -> (least a <= m)%nat.

(** The commands behind a result of the admission check: six reads, and
    three increments more if the request was admitted. *)
Definition admissionCommands (res : LimitCheck) : nat :=
  if allowed res then 9%nat else 6%nat.

(** ** Keys and frames *)

(** [c] leaves every key outside [K] as it was. *)
Definition writes_within (K : string -> Prop) {A} (c : Async A) : Prop :=
  forall r k, ~ K k -> db (c r).2 !! k = db r !! k.

(** The keys of the three request counters of an admission. *)
Definition requestKeys (now : Date) (userId : string) (k : string) : Prop :=
  k = globalRpmKey now \/ k = globalRpdKey now \/ k = userRpdKey userId now.

(** The keys of the three token counters of a reconciliation. *)
Definition tokenKeys (now : Date) (userId : string) (k : string) : Prop :=
  k = globalTpmKey now \/ k = globalTpdKey now \/ k = userTpdKey userId now.

(** The keys an ad reward may credit. *)
Definition rewardKeys (now : Date) (userId : string) (k : string) : Prop :=
  k = rewardKey "tpd" userId (dayBucket now)
  \/ k = rewardKey "rpd" userId (dayBucket now).

(** [k] is the key of some token counter. *)
Definition isTokenKey (k : string) : Prop :=
  exists now userId, tokenKeys now userId k.

(** [capOf env k L]: [k] is the key of a request counter whose limit is [L]. *)
Definition capOf (env : Env) (k : string) (L : Z) : Prop :=
  ((exists now, k = globalRpmKey now) /\ L = globalLimits_rpm)
  \/ ((exists now, k = globalRpdKey now) /\ L = globalLimits_rpd)
  \/ ((exists userId now, k = userRpdKey userId now) /\ L = userLimits_rpd env).

(** Every request counter in the store is at most its limit. *)
Definition withinLimits (env : Env) (d : gmap string Entry) : Prop :=
  forall k e L, d !! k = Some e -> capOf env k L -> value e <= L.

(** ** A small program logic for [Async]

    From [P], the computation ends in [Q] if it resolves and in [E] if it
    throws. *)
Definition triple {A} (P : Redis -> Prop) (c : Async A)
    (Q : A -> Redis -> Prop) (E : Redis -> Prop) : Prop :=
  forall r, P r ->
    match c r with
    | (Resolved a, r') => Q a r'
    | (Thrown _, r') => E r'
    end.

(** [P] only looks at the database and the clock. *)
Definition stable (P : Redis -> Prop) : Prop :=
  forall r r', db r' = db r -> clock r' = clock r -> P r -> P r'.

(** [P] does not look at the counter under [key]. *)
Definition ignores (key : string) (P : Redis -> Prop) : Prop :=
  forall r r', clock r' = clock r ->
    (forall k, k <> key -> db r' !! k = db r !! k) -> P r -> P r'.

(** ** Two stores seen through the ledger

    The keys the admission check, the status read and the reconciler use. *)
Definition ledgerKey (k : string) : Prop :=
  (exists now userId, requestKeys now userId k) \/ isTokenKey k.

(** Two databases with the same entries under the ledger's keys. *)
Definition agree (d1 d2 : gmap string Entry) : Prop :=
  forall k, ledgerKey k -> d1 !! k = d2 !! k.

(** Two servers that differ at most outside the ledger's keys. *)
Definition alike (r1 r2 : Redis) : Prop :=
  clock r1 = clock r2 /\ faults r1 = faults r2 /\ agree (db r1) (db r2).

(** [c] cannot tell two such servers apart, and keeps them alike. *)
Definition respects {A} (c : Async A) : Prop :=
  forall r1 r2, alike r1 r2 -> (c r1).1 = (c r2).1 /\ alike (c r1).2 (c r2).2.

(** The reply to an ad reward. *)
Definition isRewardReply (a : Reply) : bool :=
  match a with RewardReply _ => true | _ => false end.

(** The replies to the calls that are not ad rewards. *)
Definition ledgerReplies (replies : list Reply) : list Reply :=
  List.filter (fun a => negb (isRewardReply a)) replies.

(** The sequence of calls with the ad rewards left out. *)
Definition withoutRewards (cs : list Call) : list Call :=
  List.filter (fun c => negb (isReward c)) cs.

(** ** Key segments and model selection *)

(** No colon occurs in [s]. *)
Fixpoint colonFree (s : string) : bool :=
  match s with
  | EmptyString => true
  | String c rest => negb (bool_decide (c = ":"%char)) && colonFree rest
  end.

(** The fallback deadline is set and still in the future. *)
Definition deadlineActive (until : option Z) (now : Z) : Prop :=
  exists deadline, until = Some deadline /\ now < deadline.


(** The two usage fractions [selectModel] computes. *)
Definition tpdPercent (r : Redis) (today : Date) : Q :=
  fraction (counterValue r (globalTpdKey today)) globalLimits_tpd.
Definition rpmPercent (r : Redis) (today : Date) : Q :=
  fraction (counterValue r (globalRpmKey today)) globalLimits_rpm.

(** ** Vocabulary of the further properties *)

(** Every character of [s] is an ASCII one: its code is below 128.  On
    such a text the white space of [\s] is the white space of
    [Ascii.is_space]: tab, line feed, vertical tab, form feed, carriage
    return and space. *)
Fixpoint asciiText (s : string) : bool :=
  match s with
  | EmptyString => true
  | String c rest => bool_decide (nat_of_ascii c < 128)%nat && asciiText rest
  end.

(** Every character of [s] is white space. *)
Fixpoint blank (s : string) : bool :=
  match s with
  | EmptyString => true
  | String c rest => Ascii.is_space c && blank rest
  end.

(** The number of words of a text. *)
Definition wordCount (text : string) : Z := Z.of_nat (length (String.words text)).

(** [c] sends exactly [n] commands to the store when it resolves, and at
    most [n] when it throws. *)
Definition spends {A} (n : nat) (c : Async A) : Prop :=
  forall r, exists m,
    issued c r m /\ (m <= n)%nat /\ forall a, (c r).1 = Resolved a -> m = n.

(** [c] does not move the clock of the server. *)
Definition keeps_clock {A} (c : Async A) : Prop :=
  forall r, clock (c r).2 = clock r.

(** [c] keeps [P], whether it resolves or throws. *)
Definition keeps (P : Redis -> Prop) {A} (c : Async A) : Prop :=
  triple P c (fun _ => P) P.

(** At the same instant, no counter reads lower in [r'] than in [r]. *)
Definition grows (r r' : Redis) : Prop :=
  clock r' = clock r /\ forall k, counterValue r k <= counterValue r' k.

(** The amounts a call adds to counters are not negative. *)
Definition addsOnly (c : Call) : bool :=
  match callOp c with
  | Reconcile _ _ tokens => bool_decide (0 <= tokens)
  | RewardCredit _ _ _ _ amount => bool_decide (0 <= amount)
  | _ => true
  end.

(** The estimate the router passes to the admission check. *)
Definition routedEstimate (args : RouteArgs) : Z :=
  estimateTokens (argPrompt args +:+ default "" (argSystemPrompt args))
  + default 1000 (argMaxTokens args).

(** The request the router sends to the completion API once [modelToUse]
    is chosen. *)
Definition chatRequestOf (args : RouteArgs) (modelToUse : string) : ChatRequest :=
  mkChatRequest
    ((if bool_decide (default "" (argSystemPrompt args) = "") then []
      else [mkMessage "system" (default "" (argSystemPrompt args))])
     ++ [mkMessage "user" (argPrompt args)])
    modelToUse (default (7 # 10) (argTemperature args))
    (default 1000 (argMaxTokens args)) (9 # 10).

(** The tokens charged for a completion: the total the API reports, or the
    estimate when it reports none (or 0). *)
Definition billedTokens (completion : ChatCompletion) (estimate : Z) : Z :=
  match totalTokens completion with
  | Some n => if bool_decide (n = 0) then estimate else n
  | None => estimate
  end.

(** The message of the object returned by the router's [catch]. *)
Definition failureMessage (e : string) : string :=
  if bool_decide (e = "") then "AI request failed" else e.

(** The credit of an ad reward under [key], and the reading of the four
    reward counters that follows it. *)
Definition creditAndRead (env : Env) (now : Date) (userId key : string)
    (amount : Z) : Async RewardResult :=
  await redis_incrby key amount ;;
  u_rpm <~ await getCounter (rewardKey "rpm" userId (minuteBucket now)) ;;
  u_rpd <~ await getCounter (rewardKey "rpd" userId (dayBucket now)) ;;
  u_tpm <~ await getCounter (rewardKey "tpm" userId (minuteBucket now)) ;;
  u_tpd <~ await getCounter (rewardKey "tpd" userId (dayBucket now)) ;;
  ret (mkRewardResult true None (Some (mkRewardQuotas u_rpm u_rpd u_tpm u_tpd))
         (Some (rewardLimits env))).

(** The four fields of a reward request are present and truthy. *)
Definition rewardFieldsPresent (body : RewardBody) : bool :=
  truthyString (bodyUserId body) && truthyString (bodyModule body)
  && truthyString (bodyRewardType body) && truthyNumber (bodyAmount body).

Definition missingRewardFields : string :=
  "Missing required fields: userId, module, rewardType, amount".

Definition routeModelStatus (response : RouteModelResponse) : Z :=
  match response with
  | RouteJson status _ => status
  | RouteErrorJson status _ => status
  end.

(** [s] begins with [prefix]. *)
Fixpoint startsWith (prefix s : string) : bool :=
  match prefix with
  | EmptyString => true
  | String a prefix' =>
      match s with
      | EmptyString => false
      | String b s' => bool_decide (a = b) && startsWith prefix' s'
      end
  end.

(** [needle] occurs somewhere in [s]. *)
Fixpoint occurs (needle s : string) : bool :=
  startsWith needle s
  || match s with
     | EmptyString => false
     | String _ rest => occurs needle rest
     end.

(** No character of [s] has a meaning of its own in a glob pattern: none
    is a star, a question mark, a bracket or a backslash. *)
Fixpoint globFree (s : string) : bool :=
  match s with
  | EmptyString => true
  | String c rest =>
      negb (bool_decide (c = "*"%char)) && negb (bool_decide (c = "?"%char))
      && negb (bool_decide (c = "["%char)) && negb (bool_decide (c = "]"%char))
      && negb (bool_decide (c = "092"%char)) && globFree rest
  end.

(** What the properties need of glob matching: a pattern made of a literal
    text between two stars matches the keys in which the text occurs. *)
Definition globLike (matches : string -> string -> bool) : Prop :=
  forall literal key,
    globFree literal = true ->
    matches ("*" +:+ literal +:+ "*") key = occurs literal key.

(** The text an identity's keys are looked up by. *)
Definition identityMark (userId : string) : string := ":" +:+ userId +:+ ":".

(** The names of the four dimensions as the keys spell them. *)
Definition dimensionNames : list string := ["rpm"; "rpd"; "tpm"; "tpd"].

(** The counters the ledger and the rewards keep for an identity at [now]. *)
Definition identityKeys (now : Date) (userId : string) (k : string) : Prop :=
  k = userRpdKey userId now \/ k = userTpdKey userId now
  \/ k = rewardKey "rpm" userId (minuteBucket now)
  \/ k = rewardKey "rpd" userId (dayBucket now)
  \/ k = rewardKey "tpm" userId (minuteBucket now)
  \/ k = rewardKey "tpd" userId (dayBucket now).

(** The four global counters at [now]. *)
Definition globalKeys (now : Date) (k : string) : Prop :=
  k = globalRpmKey now \/ k = globalRpdKey now
  \/ k = globalTpmKey now \/ k = globalTpdKey now.

(** * Sample inputs *)

Definition newYear : Date := mkDate 2024 0 1 10 30.
Definition freshRedis : Redis := mkRedis ∅ 0 [].

(** The scenario of the specification: identity [u2] has used 19950 of its
    20000 tokens of the day and asks for 100 more. *)
Definition u2Redis : Redis :=
  mkRedis {[ userTpdKey "u2" newYear := mkEntry 19950 (Some 86400000) ]} 1000 [].

(** A counter created at instant 5000 with a minute to live, then
    incremented again at the same instant with another time to live. *)
Definition onceIncremented : Redis :=
  mkRedis {[ "global:rpm:2024-0-1-10-30" := mkEntry 1 (Some 65000) ]} 5000 [].


(** The store goes down at the third read of a request of [u1]. *)
Definition downAtThirdRead : Redis := mkRedis ∅ 1000 [false; false; true; false].

(** Three requests of [u1] and one of [u2], with a status read and an ad
    reward in between. *)
Definition fourAdmissions : list Call :=
  [ mkCall 1000 [] (Admission newYear "u1" 100);
    mkCall 2000 [] (Admission newYear "u1" 250);
    mkCall 2500 [] (StatusRead newYear "u1");
    mkCall 3000 [] (RewardCredit newYear "u1" "pdf" "tokens" 500);
    mkCall 4000 [] (Admission newYear "u2" 40);
    mkCall 5000 [] (Admission newYear "u1" 100) ].

(** Thirty-two requests of [u1] within one minute. *)
Definition burst : list Call :=
  replicate 32 (mkCall 1000 [] (Admission newYear "u1" 10)).

(** An identity credits itself 100000 tokens and 1000 requests, asks for a
    completion, reads its status, and is still held to the ledger's
    counters. *)
Definition rewardedCalls : list Call :=
  [ mkCall 1000 [] (Admission newYear "u2" 100);
    mkCall 2000 [] (Reconcile newYear "u2" 19950);
    mkCall 3000 [] (RewardCredit newYear "u2" "pdf" "tokens" 100000);
    mkCall 4000 [] (RewardCredit newYear "u2" "pdf" "requests" 1000);
    mkCall 5000 [] (Admission newYear "u2" 100);
    mkCall 6000 [] (StatusRead newYear "u2") ].

(** The scenario of the specification: 360001 of the 500000 tokens of the
    day are used and no deadline is set. *)
Definition busyDay : Process :=
  mkProcess (mkRedis {[ globalTpdKey newYear := mkEntry 360001 (Some 86400000) ]}
                     1000 [])
            None.

Definition tenThirtyFive : Date := mkDate 2024 0 1 10 35.

(** The requests of 10:30 took 22 of the 30 allowed in a minute; those of
    10:35 take 16. *)
Definition rushHour : Redis :=
  mkRedis {[ globalRpmKey newYear := mkEntry 22 None;
             globalRpmKey tenThirtyFive := mkEntry 16 None ]} 1000 [].

(** A request of [u1] with a system prompt, and a completion API that
    answers every request with 87 tokens in all. *)
Definition summarise : RouteArgs :=
  mkRouteArgs "u1" "summarise this note please" (Some "be brief") (Some 100)
              None None None.

Definition answering : Groq :=
  fun _ => Resolved (mkChatCompletion (Some "A short summary.") (Some 87)).

Definition unreachable : Groq := fun _ => Thrown "Connection error.".

Definition atNewYear : Instants := mkInstants newYear newYear 1000 newYear.

(** A matcher for patterns made of a literal between two stars: the text
    between the first and the last character of the pattern must occur in
    the key. *)
Fixpoint withoutLast (s : string) : string :=
  match s with
  | EmptyString => ""
  | String c rest =>
      match rest with
      | EmptyString => ""
      | String _ _ => String c (withoutLast rest)
      end
  end.

Definition betweenStars (pattern key : string) : bool :=
  match pattern with
  | EmptyString => false
  | String _ rest => occurs (withoutLast rest) key
  end.

(** A store with counters of two identities and a global one, all live. *)
Definition sharedRedis : Redis :=
  mkRedis (<[ "user:rpd:u1:2024-0-1" := mkEntry 4 (Some 2000000000000) ]>
           (<[ "tpd:u1:2024-0-1" := mkEntry 500 None ]>
            (<[ "user:rpd:u10:2024-0-1" := mkEntry 2 (Some 2000000000000) ]>
             (<[ "global:rpd:2024-0-1" := mkEntry 6 (Some 2000000000000) ]> ∅))))
          1704105000000 [].

(** * Properties *)

(** ** Sanity checks of the embedding on concrete inputs *)

Example minuteBucket_newYear : minuteBucket newYear = "2024-0-1-10-30".
Proof. reflexivity. Qed.

Example userTpdKey_newYear : userTpdKey "u1" newYear = "user:tpd:u1:2024-0-1".
Proof. reflexivity. Qed.

Example first_admission :
  fst (checkAndIncrementLimits defaultEnv newYear "u1" 100 freshRedis)
  = Resolved (mkLimitCheck true (mkQuotas 1 1 0 0 1 0)
                (mkQuotas 30 14400 6000 500000 50 20000) None).
Proof. vm_compute. reflexivity. Qed.

Example segments_example : segments "a:b::c" = ["a"; "b"; ""; "c"].
Proof. reflexivity. Qed.

(** ** Running commands *)

Lemma no_fault_S n fl :
  no_fault (S n) fl = true ->
  head fl <> Some true /\ no_fault n (tail fl) = true.
Proof.
  unfold no_fault. destruct fl as [|[] fl]; simpl; try done.
  by rewrite take_nil.
Qed.

Lemma no_fault_tail n fl : no_fault (S n) fl = true -> no_fault n (tail fl) = true.
Proof. intros H. by apply no_fault_S in H as [_ H]. Qed.

Lemma no_fault_after n d r :
  no_fault (S n) (faults r) = true -> no_fault n (faults (after d r)) = true.
Proof. apply no_fault_tail. Qed.

Lemma no_fault_le n m fl :
  (m <= n)%nat -> no_fault n fl = true -> no_fault m fl = true.
Proof.
  revert m fl. induction n as [|n IH]; intros m fl Hle H.
  - by replace m with 0%nat by lia.
  - destruct m as [|m]; [done|].
    destruct fl as [|b fl]; [done|].
    unfold no_fault in *. simpl in *.
    apply andb_true_iff in H as [-> H]. simpl. apply IH; [lia|done].
Qed.

Lemma no_fault_nil n : no_fault n [] = true.
Proof. unfold no_fault. by rewrite take_nil. Qed.

Lemma command_reaches {A} (run : Redis -> A * gmap string Entry) r n :
  no_fault (S n) (faults r) = true ->
  command run r = (Resolved (run r).1, after (run r).2 r).
Proof.
  intros H. apply no_fault_S in H as [H _].
  unfold command, after. destruct (faults r) as [|[] fl]; simpl in *;
    try done; by destruct (run r).
Qed.

Lemma bind_getCounter {B} key (k : Z -> Async B) r n :
  no_fault (S n) (faults r) = true ->
  bind (getCounter key) k r = k (counterValue r key) (after (db r) r).
Proof.
  intros H. unfold bind at 1, getCounter, bind, redis_get.
  rewrite (command_reaches _ r n H). simpl. unfold ret, counterValue.
  by destruct (peek r key).
Qed.

Lemma getCounter_reaches key r n :
  no_fault (S n) (faults r) = true ->
  getCounter key r = (Resolved (counterValue r key), after (db r) r).
Proof.
  intros H. unfold getCounter, bind, redis_get.
  rewrite (command_reaches _ r n H). simpl. unfold ret, counterValue.
  by destruct (peek r key).
Qed.

Lemma db_afterReads n r : db (afterReads n r) = db r.
Proof. revert r. induction n as [|n IH]; intros r; [done|]. simpl. by rewrite IH. Qed.

Lemma clock_afterReads n r : clock (afterReads n r) = clock r.
Proof. revert r. induction n as [|n IH]; intros r; [done|]. simpl. by rewrite IH. Qed.

Lemma faults_afterReads n r : faults (afterReads n r) = drop n (faults r).
Proof.
  revert r. induction n as [|n IH]; intros r; [done|].
  simpl. rewrite IH. simpl. destruct (faults r); simpl; by rewrite ?drop_nil.
Qed.

Lemma reasonOf_inj d d' : reasonOf d' = reasonOf d -> d' = d.
Proof. destruct d, d'; simpl; intros H; try done; by inversion H. Qed.

(** Runs the six reads that open the admission check and the status read,
    given that they reach the store, and names the values they return. *)
Ltac read_snapshot r H :=
  do 6 (erewrite bind_getCounter; [|repeat apply no_fault_after; exact H]);
  repeat match goal with
    | |- context [counterValue (after ?d ?x) ?k] =>
        change (counterValue (after d x) k) with (counterValue x k)
    end;
  change (after _ (after _ (after _ (after _ (after _ (after _ r))))))
    with (afterReads 6 r).

(** ** C1: precedence of the limit dimensions *)

(** C1. When the six reads reach the store, the admission check rejects at
    the first dimension, in the order global-rpm, global-rpd, global-tpm,
    global-tpd, identity-rpd, identity-tpd, whose test fails (request
    dimensions at [current >= limit], token dimensions at
    [current + estimate > limit]): the result is [allowed: false] with the
    snapshot, the limits and the message of that dimension, which is the
    message of no other dimension, and the database is left as it was. *)
Theorem checkAndIncrementLimits_first_failing
    env now userId tokensEstimated r d :
  no_fault 6 (faults r) = true ->
  List.find (exceeded (ledgerLimits env) (snapshot r now userId) tokensEstimated)
            precedence = Some d ->
  checkAndIncrementLimits env now userId tokensEstimated r
  = (Resolved (mkLimitCheck false (snapshot r now userId) (ledgerLimits env)
                 (Some (reasonOf d))),
     afterReads 6 r)
  /\ db (afterReads 6 r) = db r
  /\ (forall d', reasonOf d' = reasonOf d -> d' = d).
Proof.
  intros Hok Hfind. split; [|split; [apply db_afterReads|apply reasonOf_inj]].
  unfold checkAndIncrementLimits. read_snapshot r Hok.
  revert Hfind. unfold snapshot, precedence, exceeded. simpl.
  repeat case_bool_decide; intros Hfind; simplify_eq; reflexivity.
Qed.

Lemma checkAndIncrementLimits_first_failing_witness :
  no_fault 6 (faults u2Redis) = true
  /\ List.find (exceeded (ledgerLimits defaultEnv) (snapshot u2Redis newYear "u2") 100)
               precedence = Some IdentityTpd
  /\ (checkAndIncrementLimits defaultEnv newYear "u2" 100 u2Redis
      = (Resolved (mkLimitCheck false (snapshot u2Redis newYear "u2")
                     (ledgerLimits defaultEnv) (Some (reasonOf IdentityTpd))),
         afterReads 6 u2Redis)
      /\ db (afterReads 6 u2Redis) = db u2Redis
      /\ (forall d', reasonOf d' = reasonOf IdentityTpd -> d' = IdentityTpd)).
Proof.
  split; [reflexivity|]. split; [reflexivity|].
  apply (checkAndIncrementLimits_first_failing defaultEnv newYear "u2" 100
           u2Redis IdentityTpd); reflexivity.
Defined.

Example u2_rejected :
  fst (checkAndIncrementLimits defaultEnv newYear "u2" 100 u2Redis)
  = Resolved (mkLimitCheck false (mkQuotas 0 0 0 0 0 19950)
                (mkQuotas 30 14400 6000 500000 50 20000)
                (Some "User tokens per day limit exceeded (Your App Quota)")).
Proof. vm_compute. reflexivity. Qed.

Example rpm_at_limit_rejected :
  let r := mkRedis {[ globalRpmKey newYear := mkEntry 30 (Some 60000) ]} 1000 [] in
  checkAndIncrementLimits defaultEnv newYear "u1" 100 r
  = (Resolved (mkLimitCheck false (mkQuotas 30 0 0 0 0 0)
                 (mkQuotas 30 14400 6000 500000 50 20000)
                 (Some "Global requests per minute limit exceeded (Groq API)")),
     r).
Proof. vm_compute. reflexivity. Qed.

(** ** C9: the counter store helpers *)

Lemma live_expired t e : live t e = false <-> expired t e.
Proof.
  unfold live, expired. destruct (expireAt e) as [dl|].
  - rewrite bool_decide_eq_false. split.
    + intros H. exists dl. split; [done|lia].
    + intros (dl' & [= <-] & H). lia.
  - split; [done|]. by intros (dl & ? & _).
Qed.

Lemma gone_peek r key : gone r key <-> peek r key = None.
Proof.
  unfold gone, peek. destruct (db r !! key) as [e|] eqn:He.
  - destruct (live (clock r) e) eqn:Hl.
    + split; [|done]. intros [?|(e' & [= <-] & Hx)]; [done|].
      apply live_expired in Hx. congruence.
    + split; [done|]. intros _. right. exists e. split; [done|].
      by apply live_expired.
  - split; [done|]. by left.
Qed.

Lemma stored_peek r key e : stored r key e <-> peek r key = Some e.
Proof.
  unfold stored, peek. destruct (db r !! key) as [e'|] eqn:He.
  - destruct (live (clock r) e') eqn:Hl.
    + split; [by intros [[= ->] _]|]. intros [= ->]. split; [done|].
      rewrite <-live_expired. congruence.
    + split; [|done]. intros [[= ->] Hx]. destruct Hx. by apply live_expired.
  - split; [by intros [? _]|done].
Qed.

Lemma incrementCounter_creates key ttl r :
  no_fault 2 (faults r) = true -> 0 < ttl -> peek r key = None ->
  incrementCounter key ttl r
  = (Resolved 1,
     mkRedis (<[key := mkEntry 1 (Some (clock r + ttl * 1000))]> (db r))
             (clock r) (drop 2 (faults r))).
Proof.
  intros Hok Httl Hpeek.
  unfold incrementCounter, bind, redis_incr, redis_incrby.
  rewrite (command_reaches _ r 1 Hok). rewrite Hpeek. simpl.
  unfold redis_expire. erewrite command_reaches by (apply no_fault_after, Hok).
  unfold peek. simpl. rewrite lookup_insert_eq. simpl.
  rewrite bool_decide_eq_true_2 by done. simpl.
  rewrite insert_insert_eq. unfold ret, after. simpl.
  by destruct (faults r) as [|? []].
Qed.

Lemma incrementCounter_again key ttl r e :
  no_fault 1 (faults r) = true -> peek r key = Some e -> value e <> 0 ->
  incrementCounter key ttl r
  = (Resolved (value e + 1),
     after (<[key := mkEntry (value e + 1) (expireAt e)]> (db r)) r).
Proof.
  intros Hok Hpeek Hv.
  unfold incrementCounter, bind, redis_incr, redis_incrby.
  rewrite (command_reaches _ r 0 Hok). rewrite Hpeek. simpl.
  rewrite bool_decide_eq_false_2 by lia. reflexivity.
Qed.

Lemma incrementCounter_at_zero key ttl r e :
  no_fault 2 (faults r) = true -> 0 < ttl -> peek r key = Some e -> value e = 0 ->
  incrementCounter key ttl r
  = (Resolved 1,
     mkRedis (<[key := mkEntry 1 (Some (clock r + ttl * 1000))]> (db r))
             (clock r) (drop 2 (faults r))).
Proof.
  intros Hok Httl Hpeek Hv.
  unfold incrementCounter, bind, redis_incr, redis_incrby.
  rewrite (command_reaches _ r 1 Hok). rewrite Hpeek, Hv. simpl.
  unfold redis_expire. erewrite command_reaches by (apply no_fault_after, Hok).
  unfold peek. simpl. rewrite lookup_insert_eq. simpl.
  change (0 + 1) with 1.
  assert (live (clock r) (mkEntry 1 (expireAt e)) = true) as ->.
  { unfold peek in Hpeek. destruct (db r !! key) as [e'|]; [|done].
    destruct (live (clock r) e') eqn:Hlive; [|done]. by simplify_eq. }
  rewrite bool_decide_eq_true_2 by done. simpl.
  rewrite insert_insert_eq. unfold ret, after. simpl.
  by destruct (faults r) as [|? []].
Qed.

(** What the counter helpers do.  [incrementCounter] on a key that is
    absent or expired creates it at 1, answers 1, and gives it the expiry
    [ttl] seconds from now.  On a key that holds a count it adds 1, and it
    applies the expiry exactly when the answer is 1: the expiry of a count
    that is not 0, as after the creating increment and every one that
    follows it, is left as it is, and the expiry of a live count of 0 is
    set anew, [ttl] seconds from now.  [getCounter] answers 0 for an absent
    or expired key and the stored integer otherwise, and changes nothing.
    Stored counts are taken within the range of the integers a JavaScript
    number holds exactly. *)
Lemma incrementCounter_getCounter_contract key ttl r :
  no_fault 2 (faults r) = true -> 0 < ttl ->
  (gone r key ->
     incrementCounter key ttl r
     = (Resolved 1,
        mkRedis (<[key := mkEntry 1 (Some (clock r + ttl * 1000))]> (db r))
                (clock r) (drop 2 (faults r)))
     /\ getCounter key r = (Resolved 0, after (db r) r))
  /\ (forall e, stored r key e -> safeInteger (value e) ->
        (value e <> 0 ->
           incrementCounter key ttl r
           = (Resolved (value e + 1),
              after (<[key := mkEntry (value e + 1) (expireAt e)]> (db r)) r))
        /\ (value e = 0 ->
             incrementCounter key ttl r
             = (Resolved 1,
                mkRedis (<[key := mkEntry 1 (Some (clock r + ttl * 1000))]> (db r))
                        (clock r) (drop 2 (faults r))))
        /\ getCounter key r = (Resolved (value e), after (db r) r)).
Proof.
  intros Hok Httl.
  assert (no_fault 1 (faults r) = true) as Hok1
    by (eapply no_fault_le; [|exact Hok]; lia).
  split.
  - intros Hgone%gone_peek. split.
    + by apply incrementCounter_creates.
    + rewrite (getCounter_reaches _ _ 0 Hok1). unfold counterValue.
      by rewrite Hgone.
  - intros e Hst%stored_peek Hsafe. split; [|split].
    + intros Hv. by apply incrementCounter_again.
    + intros Hv. by apply (incrementCounter_at_zero key ttl r e).
    + rewrite (getCounter_reaches _ _ 0 Hok1). unfold counterValue.
      by rewrite Hst.
Qed.

Lemma incrementCounter_getCounter_contract_witness :
  (incrementCounter "global:rpm:2024-0-1-10-30" 60 (mkRedis ∅ 5000 [])
   = (Resolved 1, onceIncremented)
   /\ getCounter "global:rpm:2024-0-1-10-30" (mkRedis ∅ 5000 [])
      = (Resolved 0, mkRedis ∅ 5000 []))
  /\ (incrementCounter "global:rpm:2024-0-1-10-30" 86400 onceIncremented
      = (Resolved 2,
         mkRedis {[ "global:rpm:2024-0-1-10-30" := mkEntry 2 (Some 65000) ]} 5000 [])
      /\ getCounter "global:rpm:2024-0-1-10-30" onceIncremented
         = (Resolved 1, onceIncremented)).
Proof.
  split.
  - apply (proj1 (incrementCounter_getCounter_contract
                    "global:rpm:2024-0-1-10-30" 60 (mkRedis ∅ 5000 [])
                    eq_refl eq_refl)).
    left. reflexivity.
  - destruct (proj2 (incrementCounter_getCounter_contract
                    "global:rpm:2024-0-1-10-30" 86400 onceIncremented
                    eq_refl eq_refl) (mkEntry 1 (Some 65000)))
      as (Hincr & _ & Hget).
    + split; [reflexivity|]. intros (dl & Heq & Hle). unfold onceIncremented in Hle.
      simpl in Heq, Hle. injection Heq as <-. lia.
    + unfold safeInteger. simpl. lia.
    + split; [apply Hincr; discriminate | apply Hget].
Defined.


(** ** C3: the store fails during admission *)

Lemma no_fault_add m1 m2 fl :
  no_fault (m1 + m2) fl = no_fault m1 fl && no_fault m2 (drop m1 fl).
Proof.
  revert fl. induction m1 as [|m1 IH]; intros fl; [done|].
  destruct fl as [|b fl].
  - simpl. by rewrite !no_fault_nil.
  - unfold no_fault in *. simpl. rewrite IH. by rewrite andb_assoc.
Qed.

Lemma metered_ret {A} (least : A -> nat) (a : A) :
  least a = 0%nat -> metered least (ret a).
Proof.
  intros Hleast r. exists 0%nat. split; [by split|].
  intros a' [= <-]. by rewrite Hleast.
Qed.

Lemma metered_weaken {A} (least least' : A -> nat) (c : Async A) :
  (forall a, (least' a <= least a)%nat) -> metered least c -> metered least' c.
Proof.
  intros Hle Hc r. destruct (Hc r) as (m & Hissued & Hm). exists m.
  split; [done|]. intros a Ha. specialize (Hm a Ha). specialize (Hle a). lia.
Qed.

Lemma metered_command {A} (run : Redis -> A * gmap string Entry) :
  metered (fun _ => 1%nat) (command run).
Proof.
  intros r. exists 1%nat. split; [|done]. unfold issued, command.
  destruct (faults r) as [|[] fl] eqn:Hfl; simpl.
  - destruct (run r). by split.
  - split; [by rewrite drop_0|]. split; [done|]. by exists 0%nat.
  - destruct (run r). split; [by rewrite drop_0|done].
Qed.

Lemma metered_bind {A B} (n : nat) (least : B -> nat)
    (c : Async A) (k : A -> Async B) :
  metered (fun _ => n) c -> (forall a, metered least (k a)) ->
  metered (fun b => (n + least b)%nat) (bind c k).
Proof.
  intros Hc Hk r. destruct (Hc r) as (m1 & [Hf1 Ho1] & Hm1).
  unfold issued, bind. destruct (c r) as [[a|e] r1] eqn:Hcr; simpl in *.
  - destruct (Hk a r1) as (m2 & [Hf2 Ho2] & Hm2). exists (m1 + m2)%nat.
    rewrite Hf1 in Hf2, Ho2. split; [split|].
    + by rewrite Hf2, drop_drop.
    + destruct (k a r1) as [[b|e] r2]; simpl in *.
      * by rewrite no_fault_add, Ho1, Ho2.
      * destruct Ho2 as (-> & i & -> & Hi & Hlook). split; [done|].
        exists (m1 + i)%nat. split; [lia|]. split.
        -- by rewrite no_fault_add, Ho1, Hi.
        -- by rewrite lookup_drop in Hlook.
    + intros b Hb. specialize (Hm1 a eq_refl). specialize (Hm2 b Hb). lia.
  - exists m1. split; [by split|done].
Qed.

Lemma metered_getCounter key : metered (fun _ => 1%nat) (getCounter key).
Proof.
  apply (metered_bind 1 (fun _ => 0%nat)); [apply metered_command|].
  intros a. by apply metered_ret.
Qed.

Lemma metered_incrementCounter key ttl :
  metered (fun _ => 1%nat) (incrementCounter key ttl).
Proof.
  apply (metered_bind 1 (fun _ => 0%nat)); [apply metered_command|].
  intros current. case_bool_decide; [|by apply metered_ret].
  apply (metered_weaken (fun _ => (1 + 0)%nat)); [intros; lia|].
  apply (metered_bind 1 (fun _ => 0%nat)); [apply metered_command|].
  intros a. by apply metered_ret.
Qed.

Lemma metered_checkAndIncrementLimits env now userId tokensEstimated :
  metered admissionCommands
    (checkAndIncrementLimits env now userId tokensEstimated).
Proof.
  unfold checkAndIncrementLimits.
  apply (metered_weaken
           (fun res => (1 + (1 + (1 + (1 + (1 + (1 +
              (if allowed res then 3 else 0)))))))%nat)).
  { intros res. unfold admissionCommands. destruct (allowed res); simpl; lia. }
  do 6 (apply metered_bind; [apply metered_getCounter|intros ?]).
  repeat (case_bool_decide; [by apply metered_ret|]).
  apply (metered_weaken (fun _ => (1 + (1 + (1 + 0)))%nat)).
  { intros res. destruct (allowed res); lia. }
  do 3 (apply metered_bind; [apply metered_incrementCounter|intros ?]).
  by apply metered_ret.
Qed.

Lemma no_fault_lookup m fl i :
  no_fault m fl = true -> (i < m)%nat -> fl !! i <> Some true.
Proof.
  revert fl i. induction m as [|m IH]; intros fl i Hok Hi; [lia|].
  destruct fl as [|b fl]; [done|]. unfold no_fault in Hok. simpl in Hok.
  apply andb_true_iff in Hok as [Hb Hok]. destruct i as [|i]; simpl.
  - by destruct b.
  - apply IH; [done|lia].
Qed.

Lemma read_failure_throws env now userId tokensEstimated r n rest :
  (n < 6)%nat -> faults r = replicate n false ++ true :: rest ->
  checkAndIncrementLimits env now userId tokensEstimated r
  = (Thrown connection_error, mkRedis (db r) (clock r) rest).
Proof.
  intros Hn Hfl. destruct r as [d t fl]. simpl in *. subst fl.
  destruct n as [|[|[|[|[|[|n]]]]]]; try lia; reflexivity.
Qed.

(** C3, as the code has it.  A store command that fails during the
    admission check is not answered with [allowed: false]: the rejected
    promise leaves [checkAndIncrementLimits] as a thrown error, and no
    result at all, so no [allowed: true], is returned.  The check resolves
    only if every command it sent reached the store, six of them for a
    rejection and nine or more for an admission, so that no failure among
    the first nine commands is followed by [allowed: true]; it throws the
    store's error exactly when the last command it sent failed; and a
    failure among the six reads leaves the database as it was. *)
Theorem checkAndIncrementLimits_store_failure env now userId tokensEstimated r :
  (exists m,
     issued (checkAndIncrementLimits env now userId tokensEstimated) r m
     /\ forall res,
          (checkAndIncrementLimits env now userId tokensEstimated r).1
          = Resolved res ->
          (admissionCommands res <= m)%nat)
  /\ (forall i res,
        (i < 9)%nat -> faults r !! i = Some true ->
        (checkAndIncrementLimits env now userId tokensEstimated r).1
        = Resolved res ->
        allowed res = false)
  /\ (forall n rest,
        (n < 6)%nat -> faults r = replicate n false ++ true :: rest ->
        checkAndIncrementLimits env now userId tokensEstimated r
        = (Thrown connection_error, mkRedis (db r) (clock r) rest)).
Proof.
  pose proof (metered_checkAndIncrementLimits env now userId tokensEstimated r)
    as (m & [Hf Ho] & Hm).
  split; [|split].
  - exists m. by repeat split.
  - intros i res Hi Hfault Hres. rewrite Hres in Ho. specialize (Hm res Hres).
    unfold admissionCommands in Hm. destruct (allowed res); [|done].
    destruct (no_fault_lookup m (faults r) i Ho); [lia|done].
  - intros n rest. apply read_failure_throws.
Qed.

Lemma checkAndIncrementLimits_store_failure_witness :
  checkAndIncrementLimits defaultEnv newYear "u1" 100 downAtThirdRead
  = (Thrown connection_error, mkRedis ∅ 1000 [false]).
Proof.
  apply (proj2 (proj2 (checkAndIncrementLimits_store_failure
                  defaultEnv newYear "u1" 100 downAtThirdRead)) 2%nat [false]);
    [lia|reflexivity].
Defined.

(** C3 as stated fails: with the store down the check throws, it does not
    return a result with [allowed: false]. *)
Lemma checkAndIncrementLimits_throws_when_store_down :
  fst (checkAndIncrementLimits defaultEnv newYear "u1" 100 (mkRedis ∅ 1000 [true]))
  = Thrown connection_error
  /\ ~ (exists res,
          fst (checkAndIncrementLimits defaultEnv newYear "u1" 100
                 (mkRedis ∅ 1000 [true])) = Resolved res
          /\ allowed res = false).
Proof.
  split; [reflexivity|]. intros (res & H & _). discriminate H.
Qed.

(** A failure after the first increment leaves that increment in place. *)
Example write_failure_keeps_increment :
  let r := mkRedis ∅ 1000 [false; false; false; false; false; false; false; true] in
  fst (checkAndIncrementLimits defaultEnv newYear "u1" 100 r)
  = Thrown connection_error
  /\ db (snd (checkAndIncrementLimits defaultEnv newYear "u1" 100 r))
       !! globalRpmKey newYear = Some (mkEntry 1 None)
  /\ size (db (snd (checkAndIncrementLimits defaultEnv newYear "u1" 100 r)))
     = 1%nat.
Proof. vm_compute. repeat split; reflexivity. Qed.

(** ** Effects of the helpers on the database *)

Lemma command_cases {A} (run : Redis -> A * gmap string Entry) r :
  command run r = (Resolved (run r).1, after (run r).2 r)
  \/ command run r = (Thrown connection_error, after (db r) r).
Proof.
  unfold command, after.
  destruct (faults r) as [|[] fl]; simpl; destruct (run r); auto.
Qed.

Lemma peek_Some r key e :
  peek r key = Some e -> db r !! key = Some e /\ live (clock r) e = true.
Proof.
  unfold peek. destruct (db r !! key) as [e'|]; [|done].
  destruct (live (clock r) e') eqn:Hl; [|done]. by intros [= ->].
Qed.

Lemma peek_insert_eq d t fl key e :
  live t e = true -> peek (mkRedis (<[key := e]> d) t fl) key = Some e.
Proof. intros Hl. unfold peek. simpl. by rewrite lookup_insert_eq, Hl. Qed.

Lemma counterValue_same r r' key :
  db r' = db r -> clock r' = clock r -> counterValue r' key = counterValue r key.
Proof. intros Hd Hc. unfold counterValue, peek. by rewrite Hd, Hc. Qed.

Lemma counterValue_other r r' key :
  clock r' = clock r -> db r' !! key = db r !! key ->
  counterValue r' key = counterValue r key.
Proof. intros Hc Hd. unfold counterValue, peek. by rewrite Hd, Hc. Qed.

Lemma getCounter_effect key r :
  db (getCounter key r).2 = db r
  /\ clock (getCounter key r).2 = clock r
  /\ forall v, (getCounter key r).1 = Resolved v -> v = counterValue r key.
Proof.
  unfold getCounter, bind, redis_get.
  destruct (command_cases (fun r => (value <$> peek r key, db r)) r) as [-> | ->];
    simpl; (split; [done|split; [done|]]); [|done].
  unfold counterValue. destruct (peek r key); simpl; by intros v [= <-].
Qed.

(** What one [incrementCounter] does: either nothing (the INCR did not
    reach the store), or the counter under [key] is one more than what a
    read would have seen, and alive; no other key changes. *)
Lemma incrementCounter_effect key ttl r :
  0 < ttl ->
  clock (incrementCounter key ttl r).2 = clock r
  /\ (forall k, k <> key -> db (incrementCounter key ttl r).2 !! k = db r !! k)
  /\ ((db (incrementCounter key ttl r).2 = db r
       /\ exists e, (incrementCounter key ttl r).1 = Thrown e)
      \/ (exists x,
            db (incrementCounter key ttl r).2 !! key
            = Some (mkEntry (counterValue r key + 1) x)
            /\ live (clock r) (mkEntry (counterValue r key + 1) x) = true
            /\ forall v, (incrementCounter key ttl r).1 = Resolved v ->
                         v = counterValue r key + 1)).
Proof.
  intros Httl. unfold incrementCounter, bind, redis_incr, redis_incrby.
  match goal with |- context [command ?f r] =>
    destruct (command_cases f r) as [-> | ->] end; simpl;
    [|split; [done|split; [done|left; eauto]]].
  assert (exists x,
    (match peek r key with
     | Some e => (value e + 1, <[key := mkEntry (value e + 1) (expireAt e)]> (db r))
     | None => (1, <[key := mkEntry 1 None]> (db r))
     end) = (counterValue r key + 1, <[key := mkEntry (counterValue r key + 1) x]> (db r))
    /\ live (clock r) (mkEntry (counterValue r key + 1) x) = true)
    as (x & -> & Hlive).
  { unfold counterValue. destruct (peek r key) as [e|] eqn:Hp.
    - exists (expireAt e). split; [done|]. by apply peek_Some in Hp as [_ Hl].
    - by exists None. }
  simpl. case_bool_decide as Hone; simpl.
  - unfold redis_expire.
    match goal with |- context [command ?f ?s] =>
      destruct (command_cases f s) as [-> | ->] end; simpl.
    + unfold after. simpl. rewrite peek_insert_eq by done. simpl.
      rewrite bool_decide_eq_true_2 by done. simpl.
      split; [done|]. split.
      { intros k Hk. by rewrite !lookup_insert_ne. }
      right. exists (Some (clock r + ttl * 1000)).
      rewrite insert_insert_eq, lookup_insert_eq. split; [done|]. split.
      * unfold live. simpl. apply bool_decide_eq_true_2. lia.
      * by intros v [= <-].
    + split; [done|]. split.
      { intros k Hk. by rewrite lookup_insert_ne. }
      right. exists x. rewrite lookup_insert_eq. done.
  - split; [done|]. split.
    { intros k Hk. by rewrite lookup_insert_ne. }
    right. exists x. rewrite lookup_insert_eq. split; [done|]. split; [done|].
    by intros v [= <-].
Qed.

Lemma incrementCounter_Resolved key ttl r v r' :
  0 < ttl -> incrementCounter key ttl r = (Resolved v, r') ->
  clock r' = clock r
  /\ (forall k, k <> key -> db r' !! k = db r !! k)
  /\ counterValue r' key = counterValue r key + 1
  /\ v = counterValue r key + 1.
Proof.
  intros Httl Hrun.
  destruct (incrementCounter_effect key ttl r Httl) as (Hc & Hother & Hkey).
  rewrite Hrun in *. simpl in *. split; [done|]. split; [done|].
  destruct Hkey as [[_ [e ?]]|(x & Hx & Hl & Hv)]; [done|].
  split; [|by apply Hv].
  unfold counterValue at 1, peek. by rewrite Hx, Hc, Hl.
Qed.

(** ** Inverting a run that resolved *)

Lemma bind_Resolved {A B} (c : Async A) (k : A -> Async B) r b r' :
  bind c k r = (Resolved b, r') ->
  exists a r1, c r = (Resolved a, r1) /\ k a r1 = (Resolved b, r').
Proof.
  unfold bind. destruct (c r) as [[a|e] r1]; [|done]. intros H. by exists a, r1.
Qed.

Lemma getCounter_Resolved key r v r' :
  getCounter key r = (Resolved v, r') ->
  db r' = db r /\ clock r' = clock r /\ v = counterValue r key.
Proof.
  intros H. destruct (getCounter_effect key r) as (Hd & Hc & Hv).
  rewrite H in *. simpl in *. split; [done|]. split; [done|]. by apply Hv.
Qed.

(** ** Which keys a computation may write *)

Lemma writes_within_ret K {A} (a : A) : writes_within K (ret a).
Proof. by intros r k _. Qed.

Lemma writes_within_bind K {A B} (c : Async A) (k : A -> Async B) :
  writes_within K c -> (forall a, writes_within K (k a)) ->
  writes_within K (bind c k).
Proof.
  intros Hc Hk r key Hkey. specialize (Hc r key Hkey). unfold bind.
  destruct (c r) as [[a|e] r1]; simpl in *; [|done].
  by rewrite (Hk a r1 key Hkey).
Qed.

Lemma writes_within_try_catch K {A} (c : Async A) (h : string -> A) :
  writes_within K c -> writes_within K (try_catch c h).
Proof.
  intros Hc r key Hkey. specialize (Hc r key Hkey). unfold try_catch.
  by destruct (c r) as [[a|e] r1].
Qed.

Lemma writes_within_get K key : writes_within K (redis_get key).
Proof.
  intros r k _. unfold redis_get.
  by destruct (command_cases (fun r => (value <$> peek r key, db r)) r) as [-> | ->].
Qed.

Lemma writes_within_getCounter K key : writes_within K (getCounter key).
Proof.
  apply writes_within_bind; [apply writes_within_get|].
  intros; apply writes_within_ret.
Qed.

Lemma writes_within_incrby (K : string -> Prop) key amount :
  K key -> writes_within K (redis_incrby key amount).
Proof.
  intros HK r k Hk. unfold redis_incrby.
  match goal with |- context [command ?f r] =>
    destruct (command_cases f r) as [-> | ->] end; simpl; [|done].
  assert (k <> key) by congruence.
  destruct (peek r key); simpl; by rewrite lookup_insert_ne.
Qed.

Lemma writes_within_expire (K : string -> Prop) key seconds :
  K key -> writes_within K (redis_expire key seconds).
Proof.
  intros HK r k Hk. unfold redis_expire.
  match goal with |- context [command ?f r] =>
    destruct (command_cases f r) as [-> | ->] end; simpl; [|done].
  assert (k <> key) by congruence.
  destruct (peek r key); simpl; [|done].
  case_bool_decide; simpl; by rewrite ?lookup_insert_ne, ?lookup_delete_ne.
Qed.

Lemma writes_within_incrementCounter (K : string -> Prop) key ttl :
  K key -> writes_within K (incrementCounter key ttl).
Proof.
  intros HK. apply writes_within_bind; [by apply writes_within_incrby|].
  intros current. case_bool_decide; [|apply writes_within_ret].
  apply writes_within_bind; [by apply writes_within_expire|].
  intros; apply writes_within_ret.
Qed.

Lemma checkAndIncrementLimits_writes env now userId tokensEstimated :
  writes_within (requestKeys now userId)
    (checkAndIncrementLimits env now userId tokensEstimated).
Proof.
  unfold checkAndIncrementLimits.
  do 6 (apply writes_within_bind; [apply writes_within_getCounter|intros ?]).
  repeat (case_bool_decide; [apply writes_within_ret|]).
  do 3 (apply writes_within_bind;
        [apply writes_within_incrementCounter; unfold requestKeys; tauto
        |intros ?]).
  apply writes_within_ret.
Qed.

Lemma getQuotaStatus_writes env now userId :
  writes_within (fun _ => False) (getQuotaStatus env now userId).
Proof.
  unfold getQuotaStatus.
  do 6 (apply writes_within_bind; [apply writes_within_getCounter|intros ?]).
  apply writes_within_ret.
Qed.

Lemma recordActualTokenUsage_writes now userId actualTokensUsed :
  writes_within (tokenKeys now userId)
    (recordActualTokenUsage now userId actualTokensUsed).
Proof.
  unfold recordActualTokenUsage. apply writes_within_try_catch.
  do 3 (apply writes_within_bind;
        [apply writes_within_incrby; unfold tokenKeys; tauto|intros ?]).
  do 3 (apply writes_within_bind;
        [apply writes_within_expire; unfold tokenKeys; tauto|intros ?]).
  apply writes_within_ret.
Qed.

Lemma incrementRewardQuota_writes env now userId module rewardType amount :
  writes_within (rewardKeys now userId)
    (incrementRewardQuota env now userId module rewardType amount).
Proof.
  unfold incrementRewardQuota.
  repeat case_bool_decide; try apply writes_within_ret;
    (apply writes_within_bind;
     [apply writes_within_incrby; unfold rewardKeys; tauto|intros ?]);
    do 4 (apply writes_within_bind; [apply writes_within_getCounter|intros ?]);
    apply writes_within_ret.
Qed.

(** ** C2: what an admitted request changes *)

Lemma NoDup_three {A} (a b c : A) : a <> b -> a <> c -> b <> c -> NoDup [a; b; c].
Proof.
  intros Hab Hac Hbc.
  apply NoDup_cons. split; [|apply NoDup_cons; split; [|apply NoDup_singleton]].
  - rewrite !elem_of_cons, elem_of_nil. tauto.
  - rewrite elem_of_cons, elem_of_nil. tauto.
Qed.

Lemma key_families_disjoint now now' userId userId' :
  globalRpmKey now <> globalRpdKey now'
  /\ globalRpmKey now <> userRpdKey userId now'
  /\ globalRpdKey now <> userRpdKey userId now'
  /\ ~ requestKeys now userId (globalTpmKey now')
  /\ ~ requestKeys now userId (globalTpdKey now')
  /\ ~ requestKeys now userId (userTpdKey userId' now')
  /\ ~ rewardKeys now userId (globalTpmKey now')
  /\ ~ rewardKeys now userId (globalTpdKey now')
  /\ ~ rewardKeys now userId (userTpdKey userId' now').
Proof.
  unfold requestKeys, rewardKeys, rewardKey. repeat split; try done;
    intros [?|[?|?]] || intros [?|?]; done.
Qed.

Lemma getCounter_Resolved_from r0 key r v r' :
  db r = db r0 -> clock r = clock r0 ->
  getCounter key r = (Resolved v, r') ->
  db r' = db r0 /\ clock r' = clock r0 /\ v = counterValue r0 key.
Proof.
  intros Hd Hc H. apply getCounter_Resolved in H as (Hd' & Hc' & ->).
  split; [congruence|]. split; [congruence|]. by apply counterValue_same.
Qed.

(** Inverts one read of a run that resolved, relating it to [r]. *)
Ltac invert_read r H :=
  let Hread := fresh "Hread" in
  apply bind_Resolved in H as (? & ? & Hread & H);
  apply (getCounter_Resolved_from r) in Hread as (? & ? & ->);
  [|first [assumption|reflexivity]..].

Lemma allowed_effect env now userId tokensEstimated r res r' :
  checkAndIncrementLimits env now userId tokensEstimated r = (Resolved res, r') ->
  allowed res = true ->
  clock r' = clock r
  /\ counterValue r' (globalRpmKey now) = counterValue r (globalRpmKey now) + 1
  /\ counterValue r' (globalRpdKey now) = counterValue r (globalRpdKey now) + 1
  /\ counterValue r' (userRpdKey userId now)
     = counterValue r (userRpdKey userId now) + 1
  /\ List.find (exceeded (ledgerLimits env) (snapshot r now userId) tokensEstimated)
               precedence = None.
Proof.
  intros H Hallowed. unfold checkAndIncrementLimits in H.
  do 6 (invert_read r H).
  repeat (case_bool_decide;
          [unfold ret in H; injection H as <- <-; discriminate Hallowed|]).
  destruct (key_families_disjoint now now userId userId)
    as (Hk12 & Hk13 & Hk23 & _).
  apply bind_Resolved in H as (? & r1 & Hincr & H).
  apply incrementCounter_Resolved in Hincr as (Hc1 & Ho1 & Hv1 & _); [|done].
  apply bind_Resolved in H as (? & r2 & Hincr & H).
  apply incrementCounter_Resolved in Hincr as (Hc2 & Ho2 & Hv2 & _); [|done].
  apply bind_Resolved in H as (? & r3 & Hincr & H).
  apply incrementCounter_Resolved in Hincr as (Hc3 & Ho3 & Hv3 & _); [|done].
  unfold ret in H. injection H as <- <-.
  match goal with Hd : db ?x = db r, Hc : clock ?x = clock r |- _ =>
    rewrite (counterValue_same r x) in Hv1 by done;
    assert (counterValue r1 (globalRpdKey now) = counterValue r (globalRpdKey now))
      as Hr1 by (rewrite <-(counterValue_same r x _ Hd Hc);
                 apply counterValue_other; [done|by apply Ho1]);
    assert (counterValue r1 (userRpdKey userId now)
            = counterValue r (userRpdKey userId now))
      as Hu1 by (rewrite <-(counterValue_same r x _ Hd Hc);
                 apply counterValue_other; [done|by apply Ho1]);
    assert (clock r1 = clock r) as Hc1' by congruence
  end.
  split; [congruence|]. split; [|split; [|split]].
  - rewrite <-Hv1.
    rewrite (counterValue_other r2 r3) by (try apply Ho3; done).
    apply counterValue_other; [done|by apply Ho2].
  - rewrite <-Hr1, <-Hv2. apply counterValue_other; [done|by apply Ho3].
  - rewrite Hv3, <-Hu1. f_equal. apply counterValue_other; [done|by apply Ho2].
  - unfold precedence, exceeded, snapshot, ledgerLimits. simpl.
    by rewrite !bool_decide_eq_false_2.
Qed.

Lemma perform_keeps_token_keys env c d k :
  isReconcile c = false -> isTokenKey k -> (perform env c d).2 !! k = d !! k.
Proof.
  intros Hc (now' & userId' & Hk). unfold perform, isReconcile in *.
  destruct (callOp c) as [now u est|now u|now u n|now u m ty n]; [| |done|].
  - pose proof (checkAndIncrementLimits_writes env now u est
                  (mkRedis d (callClock c) (callFaults c)) k) as Hw.
    destruct (checkAndIncrementLimits _ _ _ _ _) as [o r']. simpl in *.
    apply Hw. destruct (key_families_disjoint now now' u userId')
      as (_ & _ & _ & ? & ? & ? & _).
    by destruct Hk as [->|[->| ->]].
  - pose proof (getQuotaStatus_writes env now u
                  (mkRedis d (callClock c) (callFaults c)) k) as Hw.
    destruct (getQuotaStatus _ _ _ _) as [o r']. simpl in *. apply Hw. tauto.
  - pose proof (incrementRewardQuota_writes env now u m ty n
                  (mkRedis d (callClock c) (callFaults c)) k) as Hw.
    destruct (incrementRewardQuota _ _ _ _ _ _ _) as [o r']. simpl in *.
    apply Hw. destruct (key_families_disjoint now now' u userId')
      as (_ & _ & _ & _ & _ & _ & ? & ? & ?).
    by destruct Hk as [->|[->| ->]].
Qed.

Lemma performAll_keeps_token_keys env cs d k :
  forallb (fun c => negb (isReconcile c)) cs = true -> isTokenKey k ->
  (performAll env cs d).2 !! k = d !! k.
Proof.
  revert d. induction cs as [|c cs IH]; intros d Hcs Hk; [done|].
  simpl in Hcs. apply andb_true_iff in Hcs as [Hc Hcs].
  apply negb_true_iff in Hc. simpl.
  pose proof (perform_keeps_token_keys env c d k Hc Hk) as Hstep.
  destruct (perform env c d) as [a d1]. simpl in Hstep.
  specialize (IH d1 Hcs Hk). destruct (performAll env cs d1) as [replies d2].
  simpl in *. congruence.
Qed.

Lemma counterValue_zero_later d d' t t' fl fl' key :
  d' !! key = d !! key -> t <= t' ->
  counterValue (mkRedis d t fl) key = 0 ->
  counterValue (mkRedis d' t' fl') key = 0.
Proof.
  intros Hd Ht. unfold counterValue, peek. simpl. rewrite Hd.
  destruct (d !! key) as [e|]; [|done]. unfold live.
  destruct (expireAt e) as [dl|]; repeat case_bool_decide; try done; lia.
Qed.

(** C2. An admitted request raises exactly three counters, each by one:
    global requests per minute, global requests per day and the
    identity's requests per day (three different keys).  Every other key
    of the store, and so the three token counters, is as before.  Hence over any sequence of calls
    without a reconciliation the token counters keep their entries, and an
    identity's tokens-per-day usage that was 0 is still 0 afterwards. *)
Theorem admission_raises_request_counters_only env :
  (forall now userId tokensEstimated r res r',
     checkAndIncrementLimits env now userId tokensEstimated r = (Resolved res, r') ->
     allowed res = true ->
     counterValue r' (globalRpmKey now) = counterValue r (globalRpmKey now) + 1
     /\ counterValue r' (globalRpdKey now) = counterValue r (globalRpdKey now) + 1
     /\ counterValue r' (userRpdKey userId now)
        = counterValue r (userRpdKey userId now) + 1
     /\ (forall k, ~ requestKeys now userId k -> db r' !! k = db r !! k)
     /\ db r' !! globalTpmKey now = db r !! globalTpmKey now
     /\ db r' !! globalTpdKey now = db r !! globalTpdKey now
     /\ db r' !! userTpdKey userId now = db r !! userTpdKey userId now
     /\ NoDup [globalRpmKey now; globalRpdKey now; userRpdKey userId now])
  /\ (forall cs d now userId,
        forallb (fun c => negb (isReconcile c)) cs = true ->
        (performAll env cs d).2 !! globalTpmKey now = d !! globalTpmKey now
        /\ (performAll env cs d).2 !! globalTpdKey now = d !! globalTpdKey now
        /\ (performAll env cs d).2 !! userTpdKey userId now
           = d !! userTpdKey userId now
        /\ forall t t' fl fl',
             t <= t' ->
             counterValue (mkRedis d t fl) (userTpdKey userId now) = 0 ->
             counterValue (mkRedis (performAll env cs d).2 t' fl')
                          (userTpdKey userId now) = 0).
Proof.
  split.
  - intros now userId est r res r' Hrun Hallowed.
    destruct (allowed_effect _ _ _ _ _ _ _ Hrun Hallowed)
      as (_ & Hrpm & Hrpd & Hurpd & _).
    pose proof (checkAndIncrementLimits_writes env now userId est r) as Hw.
    rewrite Hrun in Hw. simpl in Hw.
    destruct (key_families_disjoint now now userId userId)
      as (? & ? & ? & ? & ? & ? & _).
    repeat split; auto. by apply NoDup_three.
  - intros cs d now userId Hcs.
    assert (forall k, tokenKeys now userId k ->
                      (performAll env cs d).2 !! k = d !! k) as Hkeep.
    { intros k Hk. apply performAll_keeps_token_keys; [done|].
      by exists now, userId. }
    unfold tokenKeys in Hkeep. repeat split; auto.
    intros t t' fl fl' Ht. apply counterValue_zero_later; auto.
Qed.

Lemma admission_raises_request_counters_only_witness :
  (counterValue
     (checkAndIncrementLimits defaultEnv newYear "u1" 100 freshRedis).2
     (globalRpmKey newYear) = counterValue freshRedis (globalRpmKey newYear) + 1
   /\ db (checkAndIncrementLimits defaultEnv newYear "u1" 100 freshRedis).2
        !! userTpdKey "u1" newYear = None)
  /\ counterValue (mkRedis (performAll defaultEnv fourAdmissions ∅).2 6000 [])
                  (userTpdKey "u1" newYear) = 0.
Proof.
  pose proof (admission_raises_request_counters_only defaultEnv) as [Hone Hmany].
  split.
  - destruct (Hone newYear "u1" 100 freshRedis
                (mkLimitCheck true (mkQuotas 1 1 0 0 1 0)
                   (mkQuotas 30 14400 6000 500000 50 20000) None)
                (checkAndIncrementLimits defaultEnv newYear "u1" 100 freshRedis).2)
      as (Hrpm & _ & _ & _ & _ & _ & Htpd & _).
    + vm_compute. reflexivity.
    + reflexivity.
    + split; [exact Hrpm|exact Htpd].
  - destruct (Hmany fourAdmissions ∅ newYear "u1" eq_refl) as (_ & _ & _ & Hzero).
    apply (Hzero 0 6000 [] []); [lia|reflexivity].
Defined.

Example fourAdmissions_counters :
  let d := (performAll defaultEnv fourAdmissions ∅).2 in
  d !! globalRpmKey newYear = Some (mkEntry 4 (Some 61000))
  /\ d !! globalRpdKey newYear = Some (mkEntry 4 (Some 86401000))
  /\ d !! userRpdKey "u1" newYear = Some (mkEntry 3 (Some 86401000))
  /\ d !! userRpdKey "u2" newYear = Some (mkEntry 1 (Some 86404000))
  /\ d !! "tpd:u1:2024-0-1" = Some (mkEntry 500 None)
  /\ size d = 5%nat.
Proof. vm_compute. repeat split; reflexivity. Qed.

(** ** C6: reconciliation *)

Lemma peek_other r r' k :
  clock r' = clock r -> db r' !! k = db r !! k -> peek r' k = peek r k.
Proof. intros Hc Hd. unfold peek. by rewrite Hd, Hc. Qed.

Lemma redis_incrby_reaches key amount r n :
  no_fault (S n) (faults r) = true ->
  exists r' x,
    redis_incrby key amount r = (Resolved (counterValue r key + amount), r')
    /\ clock r' = clock r /\ faults r' = tail (faults r)
    /\ peek r' key = Some (mkEntry (counterValue r key + amount) x)
    /\ forall k, k <> key -> db r' !! k = db r !! k.
Proof.
  intros Hok. unfold redis_incrby. rewrite (command_reaches _ r n Hok).
  unfold counterValue. destruct (peek r key) as [e|] eqn:Hp; simpl.
  - eexists _, (expireAt e). split; [done|]. split; [done|]. split; [done|].
    split.
    + apply peek_insert_eq. by apply peek_Some in Hp as [_ Hl].
    + intros k Hk. simpl. by rewrite lookup_insert_ne.
  - eexists _, None. split; [done|]. split; [done|]. split; [done|]. split.
    + by apply peek_insert_eq.
    + intros k Hk. simpl. by rewrite lookup_insert_ne.
Qed.

Lemma redis_expire_reaches key seconds r n e :
  no_fault (S n) (faults r) = true -> 0 < seconds -> peek r key = Some e ->
  exists r',
    redis_expire key seconds r = (Resolved 1, r')
    /\ clock r' = clock r /\ faults r' = tail (faults r)
    /\ db r' !! key = Some (mkEntry (value e) (Some (clock r + seconds * 1000)))
    /\ forall k, k <> key -> db r' !! k = db r !! k.
Proof.
  intros Hok Hs Hp. unfold redis_expire. rewrite (command_reaches _ r n Hok).
  rewrite Hp. rewrite bool_decide_eq_true_2 by done. simpl.
  eexists. split; [done|]. split; [done|]. split; [done|]. simpl. split.
  - by rewrite lookup_insert_eq.
  - intros k Hk. by rewrite lookup_insert_ne.
Qed.

Lemma counterValue_fresh_expiry r key v seconds :
  0 < seconds ->
  db r !! key = Some (mkEntry v (Some (clock r + seconds * 1000))) ->
  counterValue r key = v.
Proof.
  intros Hs Hd. unfold counterValue, peek. rewrite Hd. unfold live. simpl.
  rewrite bool_decide_eq_true_2 by lia. done.
Qed.

Lemma token_keys_distinct now userId :
  globalTpmKey now <> globalTpdKey now
  /\ globalTpmKey now <> userTpdKey userId now
  /\ globalTpdKey now <> userTpdKey userId now.
Proof. done. Qed.

(** C6. When its six commands reach the store, [recordActualTokenUsage]
    answers [success: true]; the global tokens-per-minute counter, the
    global tokens-per-day counter and the identity's tokens-per-day counter
    (three different keys) each hold what a read saw before plus
    [actualTokensUsed]; the first expires 60 seconds from now and the other
    two 86400 seconds from now; and no other key changes. *)
Theorem recordActualTokenUsage_adds_actual_tokens now userId actualTokensUsed r :
  no_fault 6 (faults r) = true ->
  exists r',
    recordActualTokenUsage now userId actualTokensUsed r
    = (Resolved (mkRecordResult true None), r')
    /\ clock r' = clock r
    /\ db r' !! globalTpmKey now
       = Some (mkEntry (counterValue r (globalTpmKey now) + actualTokensUsed)
                       (Some (clock r + 60 * 1000)))
    /\ db r' !! globalTpdKey now
       = Some (mkEntry (counterValue r (globalTpdKey now) + actualTokensUsed)
                       (Some (clock r + 86400 * 1000)))
    /\ db r' !! userTpdKey userId now
       = Some (mkEntry (counterValue r (userTpdKey userId now) + actualTokensUsed)
                       (Some (clock r + 86400 * 1000)))
    /\ counterValue r' (globalTpmKey now)
       = counterValue r (globalTpmKey now) + actualTokensUsed
    /\ counterValue r' (globalTpdKey now)
       = counterValue r (globalTpdKey now) + actualTokensUsed
    /\ counterValue r' (userTpdKey userId now)
       = counterValue r (userTpdKey userId now) + actualTokensUsed
    /\ (forall k, ~ tokenKeys now userId k -> db r' !! k = db r !! k)
    /\ NoDup [globalTpmKey now; globalTpdKey now; userTpdKey userId now].
Proof.
  intros H6.
  destruct (token_keys_distinct now userId) as (Hmd & Hmu & Hdu).
  destruct (redis_incrby_reaches (globalTpmKey now) actualTokensUsed r 5 H6)
    as (r1 & x1 & Hrun1 & Hc1 & Hf1 & Hp1 & Ho1).
  assert (no_fault 5 (faults r1) = true) as H5
    by (rewrite Hf1; by apply no_fault_tail).
  destruct (redis_incrby_reaches (globalTpdKey now) actualTokensUsed r1 4 H5)
    as (r2 & x2 & Hrun2 & Hc2 & Hf2 & Hp2 & Ho2).
  assert (no_fault 4 (faults r2) = true) as H4
    by (rewrite Hf2; by apply no_fault_tail).
  destruct (redis_incrby_reaches (userTpdKey userId now) actualTokensUsed r2 3 H4)
    as (r3 & x3 & Hrun3 & Hc3 & Hf3 & Hp3 & Ho3).
  assert (no_fault 3 (faults r3) = true) as H3
    by (rewrite Hf3; by apply no_fault_tail).
  assert (counterValue r1 (globalTpdKey now) = counterValue r (globalTpdKey now))
    as Hv2 by (apply counterValue_other; [done|by apply Ho1]).
  assert (counterValue r2 (userTpdKey userId now)
          = counterValue r (userTpdKey userId now)) as Hv3.
  { rewrite (counterValue_other r1 r2) by (try apply Ho2; done).
    apply counterValue_other; [done|by apply Ho1]. }
  rewrite Hv2 in *. rewrite Hv3 in *.
  assert (peek r3 (globalTpmKey now) = Some
            (mkEntry (counterValue r (globalTpmKey now) + actualTokensUsed) x1))
    as Hq1.
  { rewrite <-Hp1. rewrite (peek_other r2 r3) by (try apply Ho3; done).
    apply peek_other; [done|by apply Ho2]. }
  destruct (redis_expire_reaches _ 60 r3 2 _ H3 eq_refl Hq1)
    as (r4 & Hrun4 & Hc4 & Hf4 & Hd4 & Ho4).
  assert (no_fault 2 (faults r4) = true) as H2
    by (rewrite Hf4; by apply no_fault_tail).
  assert (peek r4 (globalTpdKey now) = Some
            (mkEntry (counterValue r (globalTpdKey now) + actualTokensUsed) x2))
    as Hq2.
  { rewrite <-Hp2. rewrite (peek_other r3 r4) by (try apply Ho4; done).
    apply peek_other; [done|by apply Ho3]. }
  destruct (redis_expire_reaches _ 86400 r4 1 _ H2 eq_refl Hq2)
    as (r5 & Hrun5 & Hc5 & Hf5 & Hd5 & Ho5).
  assert (no_fault 1 (faults r5) = true) as H1
    by (rewrite Hf5; by apply no_fault_tail).
  assert (peek r5 (userTpdKey userId now) = Some
            (mkEntry (counterValue r (userTpdKey userId now) + actualTokensUsed) x3))
    as Hq3.
  { rewrite <-Hp3. rewrite (peek_other r4 r5) by (try apply Ho5; done).
    apply peek_other; [done|by apply Ho4]. }
  destruct (redis_expire_reaches _ 86400 r5 0 _ H1 eq_refl Hq3)
    as (r6 & Hrun6 & Hc6 & Hf6 & Hd6 & Ho6).
  assert (clock r6 = clock r) as Hclock by congruence.
  assert (db r6 !! globalTpmKey now
          = Some (mkEntry (counterValue r (globalTpmKey now) + actualTokensUsed)
                    (Some (clock r + 60 * 1000)))) as Hk1.
  { rewrite Ho6, Ho5 by done. rewrite Hd4.
    by replace (clock r3) with (clock r) by congruence. }
  assert (db r6 !! globalTpdKey now
          = Some (mkEntry (counterValue r (globalTpdKey now) + actualTokensUsed)
                    (Some (clock r + 86400 * 1000)))) as Hk2.
  { rewrite Ho6 by done. rewrite Hd5.
    by replace (clock r4) with (clock r) by congruence. }
  assert (db r6 !! userTpdKey userId now
          = Some (mkEntry (counterValue r (userTpdKey userId now) + actualTokensUsed)
                    (Some (clock r + 86400 * 1000)))) as Hk3.
  { rewrite Hd6. by replace (clock r5) with (clock r) by congruence. }
  exists r6. split.
  { unfold recordActualTokenUsage, try_catch, bind.
    by rewrite Hrun1, Hrun2, Hrun3, Hrun4, Hrun5, Hrun6. }
  split; [done|]. do 3 (split; [done|]).
  rewrite <-Hclock in Hk1, Hk2, Hk3.
  split; [by apply (counterValue_fresh_expiry r6 _ _ 60)|].
  split; [by apply (counterValue_fresh_expiry r6 _ _ 86400)|].
  split; [by apply (counterValue_fresh_expiry r6 _ _ 86400)|].
  split; [|by apply NoDup_three].
  intros k Hk.
  pose proof (recordActualTokenUsage_writes now userId actualTokensUsed r k Hk) as Hw.
  unfold recordActualTokenUsage, try_catch, bind in Hw.
  by rewrite Hrun1, Hrun2, Hrun3, Hrun4, Hrun5, Hrun6 in Hw.
Qed.

Lemma recordActualTokenUsage_adds_actual_tokens_witness :
  exists r',
    recordActualTokenUsage newYear "u1" 87 freshRedis
    = (Resolved (mkRecordResult true None), r')
    /\ db r' !! userTpdKey "u1" newYear = Some (mkEntry 87 (Some 86400000))
    /\ counterValue r' (userTpdKey "u1" newYear) = 87.
Proof.
  destruct (recordActualTokenUsage_adds_actual_tokens newYear "u1" 87 freshRedis
              eq_refl)
    as (r' & Hrun & _ & _ & _ & Hentry & _ & _ & Hvalue & _ & _).
  exists r'. split; [exact Hrun|]. split; [exact Hentry|exact Hvalue].
Defined.

(** The scenario of the specification: a first admission of [u1], then the
    record of the 87 tokens the call took. *)
Example admission_then_record :
  let r1 := (checkAndIncrementLimits defaultEnv newYear "u1" 100 freshRedis).2 in
  let r2 := (recordActualTokenUsage newYear "u1" 87 r1).2 in
  counterValue r1 (globalRpmKey newYear) = 1
  /\ counterValue r1 (globalTpdKey newYear) = 0
  /\ counterValue r2 (userTpdKey "u1" newYear) = 87
  /\ fst (getQuotaStatus defaultEnv newYear "u1" r2)
     = Resolved (mkQuotas 1 1 87 87 1 87, mkQuotas 30 14400 6000 500000 50 20000).
Proof. vm_compute. repeat split; reflexivity. Qed.

(** ** C7: request counters stay within their limits *)

Lemma capOf_fun env k L L' : capOf env k L -> capOf env k L' -> L = L'.
Proof.
  unfold capOf.
  intros [[[? ->] ->]|[[[? ->] ->]|[(? & ? & ->) ->]]]
         [[[? H] ->]|[[[? H] ->]|[(? & ? & H) ->]]]; done.
Qed.

Lemma withinLimits_empty env : withinLimits env ∅.
Proof. intros k e L H. by rewrite lookup_empty in H. Qed.

Section ProgramLogic.
Context {A B : Type}.

Lemma triple_ret (a : A) (P : Redis -> Prop) Q E :
  (forall r, P r -> Q a r) -> triple P (ret a) Q E.
Proof. intros H r HP. by apply H. Qed.

Lemma triple_bind (c : Async A) (k : A -> Async B) P Q1 Q E :
  triple P c Q1 E -> (forall a, triple (Q1 a) (k a) Q E) ->
  triple P (bind c k) Q E.
Proof.
  intros Hc Hk r HP. specialize (Hc r HP). unfold bind.
  destruct (c r) as [[a|e] r1]; [|done]. by apply Hk.
Qed.

Lemma triple_weaken (c : Async A) (P P' : Redis -> Prop) Q E :
  (forall r, P r -> P' r) -> triple P' c Q E -> triple P c Q E.
Proof. intros Himp Hc r HP. by apply Hc, Himp. Qed.
End ProgramLogic.

Lemma triple_getCounter key (P E : Redis -> Prop) :
  stable P -> (forall r, P r -> E r) ->
  triple P (getCounter key) (fun v r => P r /\ v = counterValue r key) E.
Proof.
  intros Hst HE r HP. destruct (getCounter_effect key r) as (Hd & Hc & Hv).
  destruct (getCounter key r) as [[v|e] r']; simpl in *.
  - split; [by apply (Hst r)|]. rewrite (Hv v eq_refl).
    symmetry. by apply counterValue_same.
  - by apply HE, (Hst r).
Qed.

Lemma triple_incrementCounter_capped env key ttl L (P : Redis -> Prop) :
  0 < ttl -> capOf env key L -> ignores key P ->
  triple (fun r => withinLimits env (db r) /\ counterValue r key < L /\ P r)
         (incrementCounter key ttl)
         (fun _ r => withinLimits env (db r) /\ P r)
         (fun r => withinLimits env (db r)).
Proof.
  intros Httl Hcap Hign r (Hinv & Hlt & HP).
  destruct (incrementCounter_effect key ttl r Httl) as (Hc & Hother & Hkey).
  assert (withinLimits env (db (incrementCounter key ttl r).2)) as Hinv'.
  { intros k e L' Hlook Hcap'. destruct (decide (k = key)) as [->|Hne].
    - destruct Hkey as [[Hsame _]|(x & Hx & _ & _)].
      + rewrite Hsame in Hlook. by apply (Hinv key).
      + rewrite Hx in Hlook. injection Hlook as <-. simpl.
        rewrite (capOf_fun _ _ _ _ Hcap' Hcap). lia.
    - rewrite Hother in Hlook by done. by apply (Hinv k). }
  destruct (incrementCounter key ttl r) as [[v|e] r']; simpl in *; [|done].
  split; [done|]. by apply (Hign r).
Qed.

Lemma stable_withinLimits env : stable (fun r => withinLimits env (db r)).
Proof. intros r r' Hd _. by rewrite Hd. Qed.

Lemma stable_read (P : Redis -> Prop) (v : Z) key :
  stable P -> stable (fun r => P r /\ v = counterValue r key).
Proof.
  intros HP r r' Hd Hc [H ->]. split; [by apply (HP r)|].
  symmetry. by apply counterValue_same.
Qed.

Lemma ignores_counter key key' (f : Z -> Prop) :
  key' <> key -> ignores key (fun r => f (counterValue r key')).
Proof.
  intros Hne r r' Hc Hother H.
  rewrite (counterValue_other r r'); [done|done|by apply Hother].
Qed.

Lemma ignores_and key (P Q : Redis -> Prop) :
  ignores key P -> ignores key Q -> ignores key (fun r => P r /\ Q r).
Proof. intros HP HQ r r' Hc Ho [??]. split; [by apply (HP r)|by apply (HQ r)]. Qed.

Lemma ignores_True key : ignores key (fun _ => True).
Proof. done. Qed.

(** The admission check keeps the request counters within their limits,
    whatever its outcome. *)
Lemma checkAndIncrementLimits_withinLimits env now userId tokensEstimated :
  triple (fun r => withinLimits env (db r))
         (checkAndIncrementLimits env now userId tokensEstimated)
         (fun _ r => withinLimits env (db r))
         (fun r => withinLimits env (db r)).
Proof.
  unfold checkAndIncrementLimits.
  do 6 (eapply triple_bind;
        [apply triple_getCounter;
         [repeat apply stable_read; apply stable_withinLimits
         |intros r H; tauto]
        |intros ?]).
  repeat (case_bool_decide; [apply triple_ret; intros r Hpre; tauto|]).
  destruct (key_families_disjoint now now userId userId)
    as (Hk12 & Hk13 & Hk23 & _).
  eapply triple_bind.
  { eapply triple_weaken;
      [|apply (triple_incrementCounter_capped env (globalRpmKey now) 60
                 globalLimits_rpm
                 (fun r => counterValue r (globalRpdKey now) < globalLimits_rpd
                           /\ counterValue r (userRpdKey userId now)
                              < userLimits_rpd env))].
    - intros r Hpre. simpl in Hpre.
      destruct Hpre as ((((((Hinv & ->) & ->) & _) & _) & ->) & _).
      repeat split; [done|lia..].
    - done.
    - left. split; [by exists now|done].
    - apply ignores_and;
        [apply (ignores_counter _ _ (fun v => v < _))
        |apply (ignores_counter _ _ (fun v => v < _))]; done. }
  intros ?. eapply triple_bind.
  { eapply triple_weaken;
      [|apply (triple_incrementCounter_capped env (globalRpdKey now) 86400
                 globalLimits_rpd
                 (fun r => counterValue r (userRpdKey userId now)
                           < userLimits_rpd env))].
    - intros r Hpre. tauto.
    - done.
    - right. left. split; [by exists now|done].
    - apply (ignores_counter _ _ (fun v => v < _)). done. }
  intros ?. eapply triple_bind.
  { eapply triple_weaken;
      [|apply (triple_incrementCounter_capped env (userRpdKey userId now) 86400
                 (userLimits_rpd env) (fun _ => True))].
    - intros r Hpre. tauto.
    - done.
    - right. right. split; [by exists userId, now|done].
    - apply ignores_True. }
  intros ?. apply triple_ret. intros r Hpre. tauto.
Qed.

Lemma capOf_not_token_or_reward env k L now userId :
  capOf env k L -> ~ tokenKeys now userId k /\ ~ rewardKeys now userId k.
Proof.
  unfold capOf, tokenKeys, rewardKeys, rewardKey.
  intros [[[? ->] _]|[[[? ->] _]|[(? & ? & ->) _]]];
    (split; [intros [?|[?|?]]|intros [?|?]]); done.
Qed.

Lemma withinLimits_frame env (K : string -> Prop) d d' :
  (forall k L, capOf env k L -> ~ K k) ->
  (forall k, ~ K k -> d' !! k = d !! k) ->
  withinLimits env d -> withinLimits env d'.
Proof.
  intros Hcap Hsame Hinv k e L Hlook HL.
  rewrite Hsame in Hlook by (by eapply Hcap). by eapply Hinv.
Qed.

Lemma perform_withinLimits env c d :
  withinLimits env d -> withinLimits env (perform env c d).2.
Proof.
  intros Hinv. unfold perform.
  destruct (callOp c) as [now u est|now u|now u n|now u m ty n].
  - pose proof (checkAndIncrementLimits_withinLimits env now u est
                  (mkRedis d (callClock c) (callFaults c)) Hinv) as H.
    by destruct (checkAndIncrementLimits _ _ _ _ _) as [[res|err] r'].
  - pose proof (getQuotaStatus_writes env now u
                  (mkRedis d (callClock c) (callFaults c))) as Hw.
    destruct (getQuotaStatus _ _ _ _) as [o r']. simpl in *.
    eapply (withinLimits_frame env (fun _ => False)); [|exact Hw|exact Hinv].
    tauto.
  - pose proof (recordActualTokenUsage_writes now u n
                  (mkRedis d (callClock c) (callFaults c))) as Hw.
    destruct (recordActualTokenUsage _ _ _ _) as [o r']. simpl in *.
    eapply (withinLimits_frame env (tokenKeys now u)); [|exact Hw|exact Hinv].
    intros k L HL. by apply (capOf_not_token_or_reward env k L now u).
  - pose proof (incrementRewardQuota_writes env now u m ty n
                  (mkRedis d (callClock c) (callFaults c))) as Hw.
    destruct (incrementRewardQuota _ _ _ _ _ _ _) as [o r']. simpl in *.
    eapply (withinLimits_frame env (rewardKeys now u)); [|exact Hw|exact Hinv].
    intros k L HL. by apply (capOf_not_token_or_reward env k L now u).
Qed.

Lemma performAll_withinLimits env cs d :
  withinLimits env d -> withinLimits env (performAll env cs d).2.
Proof.
  revert d. induction cs as [|c cs IH]; intros d Hinv; [done|].
  simpl. pose proof (perform_withinLimits env c d Hinv) as Hstep.
  destruct (perform env c d) as [a d1]. simpl in Hstep.
  specialize (IH d1 Hstep). by destruct (performAll env cs d1).
Qed.

(** C7. From an empty store, after any sequence of calls made one after
    the other (admissions with any identities, estimates, instants and
    store failures; status reads, reconciliations and ad rewards may come
    in between), every global requests-per-minute counter, every global
    requests-per-day counter and every identity's requests-per-day counter
    in the store is at most its limit, and so is what a read of it
    returns. *)
Theorem request_counters_within_limits env cs now userId :
  let d := (performAll env cs ∅).2 in
  (forall e, d !! globalRpmKey now = Some e -> value e <= globalLimits_rpm)
  /\ (forall e, d !! globalRpdKey now = Some e -> value e <= globalLimits_rpd)
  /\ (forall e, d !! userRpdKey userId now = Some e ->
                value e <= userLimits_rpd env)
  /\ (forall t fl,
        counterValue (mkRedis d t fl) (globalRpmKey now) <= globalLimits_rpm
        /\ counterValue (mkRedis d t fl) (globalRpdKey now) <= globalLimits_rpd
        /\ (0 <= userLimits_rpd env ->
            counterValue (mkRedis d t fl) (userRpdKey userId now)
            <= userLimits_rpd env)).
Proof.
  intros d.
  pose proof (performAll_withinLimits env cs ∅ (withinLimits_empty env)) as Hinv.
  fold d in Hinv.
  assert (capOf env (globalRpmKey now) globalLimits_rpm) as H1
    by (left; split; [by exists now|done]).
  assert (capOf env (globalRpdKey now) globalLimits_rpd) as H2
    by (right; left; split; [by exists now|done]).
  assert (capOf env (userRpdKey userId now) (userLimits_rpd env)) as H3
    by (right; right; split; [by exists userId, now|done]).
  assert (forall k L t fl, capOf env k L -> 0 <= L ->
            counterValue (mkRedis d t fl) k <= L) as Hread.
  { intros k L t fl HL HL0. unfold counterValue, peek. simpl.
    destruct (d !! k) as [e|] eqn:He; [|done].
    destruct (live t e); [|done]. by eapply Hinv. }
  split; [intros e He; by eapply Hinv|].
  split; [intros e He; by eapply Hinv|].
  split; [intros e He; by eapply Hinv|].
  intros t fl. split; [by apply Hread|]. split; [by apply Hread|].
  intros Hpos. by apply Hread.
Qed.

Lemma request_counters_within_limits_witness :
  (performAll defaultEnv burst ∅).2 !! globalRpmKey newYear
  = Some (mkEntry 30 (Some 61000))
  /\ 30 <= globalLimits_rpm.
Proof.
  split; [vm_compute; reflexivity|].
  apply (proj1 (request_counters_within_limits defaultEnv burst newYear "u1")
           (mkEntry 30 (Some 61000))).
  vm_compute. reflexivity.
Defined.

(** ** C10: ad rewards and the ledger *)

Lemma ledgerKey_not_reward k now userId : ledgerKey k -> ~ rewardKeys now userId k.
Proof.
  unfold ledgerKey, isTokenKey, requestKeys, tokenKeys, rewardKeys, rewardKey.
  intros [(? & ? & [->|[->| ->]])|(? & ? & [->|[->| ->]])] [?|?]; done.
Qed.

Lemma respects_ret {A} (a : A) : respects (ret a).
Proof. by intros r1 r2 H. Qed.

Lemma respects_bind {A B} (c : Async A) (k : A -> Async B) :
  respects c -> (forall a, respects (k a)) -> respects (bind c k).
Proof.
  intros Hc Hk r1 r2 H. destruct (Hc r1 r2 H) as [Ho Hal]. unfold bind.
  destruct (c r1) as [[a1|e1] r1'], (c r2) as [[a2|e2] r2']; simpl in *;
    try done.
  - injection Ho as ->. by apply Hk.
  - by injection Ho as ->.
Qed.

Lemma respects_try_catch {A} (c : Async A) (h : string -> A) :
  respects c -> respects (try_catch c h).
Proof.
  intros Hc r1 r2 H. destruct (Hc r1 r2 H) as [Ho Hal]. unfold try_catch.
  destruct (c r1) as [[a1|e1] r1'], (c r2) as [[a2|e2] r2']; simpl in *;
    try done; by injection Ho as ->.
Qed.

Lemma respects_command {A} (run : Redis -> A * gmap string Entry) :
  (forall r1 r2, alike r1 r2 ->
     (run r1).1 = (run r2).1 /\ agree (run r1).2 (run r2).2) ->
  respects (command run).
Proof.
  intros Hrun r1 r2 H. destruct (Hrun r1 r2 H) as [Ha Hd].
  destruct H as (Hc & Hf & Hagree). unfold command. rewrite Hf, Hc.
  destruct (faults r2) as [|[] fl]; simpl.
  - destruct (run r1), (run r2); simpl in *. by subst.
  - done.
  - destruct (run r1), (run r2); simpl in *. by subst.
Qed.

Lemma alike_peek r1 r2 key : alike r1 r2 -> ledgerKey key -> peek r1 key = peek r2 key.
Proof.
  intros (Hc & _ & Hagree) Hkey. unfold peek. by rewrite Hc, (Hagree key Hkey).
Qed.

Lemma agree_insert d1 d2 key e : agree d1 d2 -> agree (<[key := e]> d1) (<[key := e]> d2).
Proof.
  intros H k Hk. destruct (decide (key = k)) as [->|Hne].
  - by rewrite !lookup_insert_eq.
  - rewrite !lookup_insert_ne by done. by apply H.
Qed.

Lemma agree_delete d1 d2 key : agree d1 d2 -> agree (delete key d1) (delete key d2).
Proof.
  intros H k Hk. destruct (decide (key = k)) as [->|Hne].
  - by rewrite !lookup_delete_eq.
  - rewrite !lookup_delete_ne by done. by apply H.
Qed.

Lemma respects_get key : ledgerKey key -> respects (redis_get key).
Proof.
  intros Hkey. apply respects_command. intros r1 r2 H. simpl.
  rewrite (alike_peek r1 r2 key H Hkey). split; [done|]. apply H.
Qed.

Lemma respects_getCounter key : ledgerKey key -> respects (getCounter key).
Proof.
  intros Hkey. apply respects_bind; [by apply respects_get|].
  intros; apply respects_ret.
Qed.

Lemma respects_incrby key amount : ledgerKey key -> respects (redis_incrby key amount).
Proof.
  intros Hkey. apply respects_command. intros r1 r2 H.
  rewrite (alike_peek r1 r2 key H Hkey). destruct H as (Hc & _ & Hagree).
  destruct (peek r2 key); simpl; (split; [done|by apply agree_insert]).
Qed.

Lemma respects_expire key seconds : ledgerKey key -> respects (redis_expire key seconds).
Proof.
  intros Hkey. apply respects_command. intros r1 r2 H.
  rewrite (alike_peek r1 r2 key H Hkey). destruct H as (Hc & _ & Hagree).
  destruct (peek r2 key); simpl; [|done]. rewrite Hc.
  case_bool_decide; simpl; (split; [done|]);
    [by apply agree_insert|by apply agree_delete].
Qed.

Lemma respects_incrementCounter key ttl :
  ledgerKey key -> respects (incrementCounter key ttl).
Proof.
  intros Hkey. apply respects_bind; [by apply respects_incrby|].
  intros current. case_bool_decide; [|apply respects_ret].
  apply respects_bind; [by apply respects_expire|intros; apply respects_ret].
Qed.

Lemma ledgerKey_families now userId :
  ledgerKey (globalRpmKey now) /\ ledgerKey (globalRpdKey now)
  /\ ledgerKey (globalTpmKey now) /\ ledgerKey (globalTpdKey now)
  /\ ledgerKey (userRpdKey userId now) /\ ledgerKey (userTpdKey userId now).
Proof.
  unfold ledgerKey, isTokenKey, requestKeys, tokenKeys.
  repeat split;
    first [left; exists now, userId; tauto | right; exists now, userId; tauto].
Qed.

Lemma respects_checkAndIncrementLimits env now userId tokensEstimated :
  respects (checkAndIncrementLimits env now userId tokensEstimated).
Proof.
  destruct (ledgerKey_families now userId) as (? & ? & ? & ? & ? & ?).
  unfold checkAndIncrementLimits.
  do 6 (apply respects_bind; [by apply respects_getCounter|intros ?]).
  repeat (case_bool_decide; [apply respects_ret|]).
  do 3 (apply respects_bind; [by apply respects_incrementCounter|intros ?]).
  apply respects_ret.
Qed.

Lemma respects_getQuotaStatus env now userId :
  respects (getQuotaStatus env now userId).
Proof.
  destruct (ledgerKey_families now userId) as (? & ? & ? & ? & ? & ?).
  unfold getQuotaStatus.
  do 6 (apply respects_bind; [by apply respects_getCounter|intros ?]).
  apply respects_ret.
Qed.

Lemma respects_recordActualTokenUsage now userId actualTokensUsed :
  respects (recordActualTokenUsage now userId actualTokensUsed).
Proof.
  destruct (ledgerKey_families now userId) as (? & ? & ? & ? & ? & ?).
  unfold recordActualTokenUsage. apply respects_try_catch.
  do 3 (apply respects_bind; [by apply respects_incrby|intros ?]).
  do 3 (apply respects_bind; [by apply respects_expire|intros ?]).
  apply respects_ret.
Qed.

Lemma perform_reward env c d1 d2 :
  isReward c = true -> agree d1 d2 ->
  isRewardReply (perform env c d1).1 = true /\ agree (perform env c d1).2 d2.
Proof.
  intros Hc Hagree. unfold perform, isReward in *.
  destruct (callOp c) as [| | |now u m ty n]; try done.
  pose proof (incrementRewardQuota_writes env now u m ty n
                (mkRedis d1 (callClock c) (callFaults c))) as Hw.
  destruct (incrementRewardQuota _ _ _ _ _ _ _) as [o r']. simpl in *.
  split; [done|]. intros k Hk. rewrite Hw; [by apply Hagree|].
  by apply ledgerKey_not_reward.
Qed.

Lemma perform_ledger env c d1 d2 :
  isReward c = false -> agree d1 d2 ->
  (perform env c d1).1 = (perform env c d2).1
  /\ isRewardReply (perform env c d1).1 = false
  /\ agree (perform env c d1).2 (perform env c d2).2.
Proof.
  intros Hc Hagree. unfold perform, isReward in *.
  assert (alike (mkRedis d1 (callClock c) (callFaults c))
                (mkRedis d2 (callClock c) (callFaults c))) as Hal by done.
  destruct (callOp c) as [now u est|now u|now u n|]; [| | |done].
  - destruct (respects_checkAndIncrementLimits env now u est _ _ Hal)
      as (Ho & _ & _ & Hd).
    destruct (checkAndIncrementLimits _ _ _ _ _) as [o1 r1],
             (checkAndIncrementLimits _ _ _ _ _) as [o2 r2]. simpl in *.
    by subst.
  - destruct (respects_getQuotaStatus env now u _ _ Hal) as (Ho & _ & _ & Hd).
    destruct (getQuotaStatus _ _ _ _) as [o1 r1],
             (getQuotaStatus _ _ _ _) as [o2 r2]. simpl in *.
    by subst.
  - destruct (respects_recordActualTokenUsage now u n _ _ Hal)
      as (Ho & _ & _ & Hd).
    destruct (recordActualTokenUsage _ _ _ _) as [o1 r1],
             (recordActualTokenUsage _ _ _ _) as [o2 r2]. simpl in *.
    by subst.
Qed.

Lemma performAll_withoutRewards env cs d1 d2 :
  agree d1 d2 ->
  ledgerReplies (performAll env cs d1).1 = (performAll env (withoutRewards cs) d2).1
  /\ agree (performAll env cs d1).2 (performAll env (withoutRewards cs) d2).2.
Proof.
  revert d1 d2. induction cs as [|c cs IH]; intros d1 d2 Hagree; [done|].
  simpl. destruct (isReward c) eqn:Hc; simpl.
  - destruct (perform_reward env c d1 d2 Hc Hagree) as [Hrep Hd].
    destruct (perform env c d1) as [a d1']. simpl in *.
    specialize (IH d1' d2 Hd).
    destruct (performAll env cs d1') as [replies d1'']. simpl in *.
    unfold ledgerReplies in *. simpl. by rewrite Hrep.
  - destruct (perform_ledger env c d1 d2 Hc Hagree) as (Ha & Hrep & Hd).
    destruct (perform env c d1) as [a1 d1'], (perform env c d2) as [a2 d2'].
    simpl in *. subst a2. specialize (IH d1' d2' Hd).
    destruct (performAll env cs d1') as [replies1 d1''],
             (performAll env (withoutRewards cs) d2') as [replies2 d2''].
    simpl in *. destruct IH as [IHr IHd]. split; [|done].
    unfold ledgerReplies in *. simpl. rewrite Hrep. simpl. by rewrite IHr.
Qed.

(** C10. [incrementRewardQuota] writes at most the key [tpd:{userId}:{day}]
    or [rpd:{userId}:{day}]; these keys are none of the keys the admission
    check, the status read and the reconciler use.  So in any sequence of
    calls the replies to the admissions and status reads (and
    reconciliations) are those of the same sequence with the ad rewards
    left out, whatever the reward types and amounts. *)
Theorem rewards_do_not_reach_the_ledger env :
  (forall now userId module rewardType amount r k,
     ~ rewardKeys now userId k ->
     db (incrementRewardQuota env now userId module rewardType amount r).2 !! k
     = db r !! k)
  /\ (forall now userId now' userId',
        ~ rewardKeys now userId (userRpdKey userId' now')
        /\ ~ rewardKeys now userId (userTpdKey userId' now')
        /\ ~ rewardKeys now userId (globalRpmKey now')
        /\ ~ rewardKeys now userId (globalRpdKey now')
        /\ ~ rewardKeys now userId (globalTpmKey now')
        /\ ~ rewardKeys now userId (globalTpdKey now'))
  /\ (forall cs d,
        ledgerReplies (performAll env cs d).1
        = (performAll env (withoutRewards cs) d).1).
Proof.
  split; [|split].
  - intros now userId module rewardType amount r k Hk.
    by apply incrementRewardQuota_writes.
  - intros now userId now' userId'.
    destruct (ledgerKey_families now' userId') as (? & ? & ? & ? & ? & ?).
    repeat split; by apply ledgerKey_not_reward.
  - intros cs d. by apply performAll_withoutRewards.
Qed.

Lemma rewards_do_not_reach_the_ledger_witness :
  ledgerReplies (performAll defaultEnv rewardedCalls ∅).1
  = (performAll defaultEnv (withoutRewards rewardedCalls) ∅).1
  /\ nth_error (performAll defaultEnv rewardedCalls ∅).1 4
     = Some (AdmissionReply (Resolved
         (mkLimitCheck false (mkQuotas 1 1 19950 19950 1 19950)
            (mkQuotas 30 14400 6000 500000 50 20000)
            (Some "Global tokens per minute limit exceeded (Groq API)")))).
Proof.
  split.
  - apply (proj2 (proj2 (rewards_do_not_reach_the_ledger defaultEnv))).
  - vm_compute. reflexivity.
Defined.

(** ** C8: the shape of the keys *)

Lemma colonFree_app a b : colonFree (a +:+ b) = colonFree a && colonFree b.
Proof.
  induction a as [|c a IH]; simpl; [done|]. by rewrite IH, andb_assoc.
Qed.

Lemma segmentsFrom_last acc a :
  colonFree a = true -> segmentsFrom acc a = [String.rev_app acc a].
Proof.
  revert acc. induction a as [|c a IH]; intros acc Ha; simpl in *; [done|].
  apply andb_true_iff in Ha as [Hc Ha]. apply negb_true_iff in Hc.
  rewrite Hc. by rewrite IH.
Qed.

Lemma segmentsFrom_colon acc a b :
  colonFree a = true ->
  segmentsFrom acc (a +:+ String ":" b) = String.rev_app acc a :: segments b.
Proof.
  revert acc. induction a as [|c a IH]; intros acc Ha; simpl in *; [done|].
  apply andb_true_iff in Ha as [Hc Ha]. apply negb_true_iff in Hc.
  rewrite Hc. by rewrite IH.
Qed.

Lemma segments_colon a b :
  colonFree a = true -> segments (a +:+ ":" +:+ b) = a :: segments b.
Proof.
  intros Ha. unfold segments. change (":" +:+ b) with (String ":" b).
  by rewrite segmentsFrom_colon.
Qed.

Lemma segments_last a : colonFree a = true -> segments a = [a].
Proof. intros Ha. unfold segments. by rewrite segmentsFrom_last. Qed.

Lemma colonFree_pretty_N_go x s :
  colonFree s = true -> colonFree (pretty_N_go x s) = true.
Proof.
  revert s. induction (N.lt_wf_0 x) as [x _ IH]. intros s Hs.
  destruct (decide (x = 0)%N) as [->|Hx].
  - by rewrite pretty_N_go_0.
  - rewrite pretty_N_go_step by lia. apply IH.
    + apply N.div_lt; lia.
    + simpl. rewrite Hs, andb_true_r. apply negb_true_iff, bool_decide_eq_false.
      unfold pretty_N_char. by repeat case_match.
Qed.

Lemma colonFree_pretty_Z (z : Z) : colonFree (pretty z) = true.
Proof.
  assert (forall p : positive, colonFree (pretty p) = true) as Hpos.
  { intros p. unfold pretty, pretty_positive, pretty, pretty_N.
    case_decide; [done|]. by apply colonFree_pretty_N_go. }
  destruct z as [|p|p]; [done|apply Hpos|].
  unfold pretty, pretty_Z. rewrite colonFree_app. by rewrite Hpos.
Qed.

Lemma colonFree_dayBucket now : colonFree (dayBucket now) = true.
Proof.
  unfold dayBucket. by rewrite !colonFree_app, !colonFree_pretty_Z.
Qed.

Lemma colonFree_minuteBucket now : colonFree (minuteBucket now) = true.
Proof.
  unfold minuteBucket. by rewrite !colonFree_app, !colonFree_pretty_Z.
Qed.

(** C8, as the code has it.  A global key has three segments, scope,
    dimension and time bucket, and no identity segment; a per-identity key
    has the four segments scope, dimension, identity and time bucket when
    the identity contains no colon. *)
Theorem key_segments now :
  segments (globalRpmKey now) = ["global"; "rpm"; minuteBucket now]
  /\ segments (globalRpdKey now) = ["global"; "rpd"; dayBucket now]
  /\ segments (globalTpmKey now) = ["global"; "tpm"; minuteBucket now]
  /\ segments (globalTpdKey now) = ["global"; "tpd"; dayBucket now]
  /\ forall userId, colonFree userId = true ->
       segments (userRpdKey userId now) = ["user"; "rpd"; userId; dayBucket now]
       /\ segments (userTpdKey userId now) = ["user"; "tpd"; userId; dayBucket now].
Proof.
  pose proof (colonFree_dayBucket now) as Hday.
  pose proof (colonFree_minuteBucket now) as Hminute.
  change (globalRpmKey now)
    with ("global" +:+ ":" +:+ "rpm" +:+ ":" +:+ minuteBucket now).
  change (globalRpdKey now)
    with ("global" +:+ ":" +:+ "rpd" +:+ ":" +:+ dayBucket now).
  change (globalTpmKey now)
    with ("global" +:+ ":" +:+ "tpm" +:+ ":" +:+ minuteBucket now).
  change (globalTpdKey now)
    with ("global" +:+ ":" +:+ "tpd" +:+ ":" +:+ dayBucket now).
  rewrite !segments_colon, !segments_last by done.
  repeat split.
  - change (userRpdKey userId now)
      with ("user" +:+ ":" +:+ "rpd" +:+ ":" +:+ userId +:+ ":" +:+ dayBucket now).
    by rewrite !segments_colon, segments_last.
  - change (userTpdKey userId now)
      with ("user" +:+ ":" +:+ "tpd" +:+ ":" +:+ userId +:+ ":" +:+ dayBucket now).
    by rewrite !segments_colon, segments_last.
Qed.

Lemma key_segments_witness :
  colonFree "u1" = true
  /\ segments (userRpdKey "u1" newYear) = ["user"; "rpd"; "u1"; "2024-0-1"]
  /\ segments (userTpdKey "u1" newYear) = ["user"; "tpd"; "u1"; "2024-0-1"].
Proof.
  split; [reflexivity|].
  apply (proj2 (proj2 (proj2 (proj2 (key_segments newYear)))) "u1").
  reflexivity.
Defined.

(** C8 as stated fails: the global requests-per-minute key has three
    segments, not four with an empty identity in the third place. *)
Lemma global_key_has_three_segments :
  segments (globalRpmKey newYear) = ["global"; "rpm"; "2024-0-1-10-30"]
  /\ length (segments (globalRpmKey newYear)) <> 4%nat
  /\ ~ (exists bucket, segments (globalRpmKey newYear) = ["global"; "rpm"; ""; bucket]).
Proof.
  split; [reflexivity|]. split; [by vm_compute|].
  intros (bucket & H). vm_compute in H. discriminate H.
Qed.

(** ** C5 and C4: model selection *)

Lemma Qltb_lt x y : Qltb x y = true <-> (x < y)%Q.
Proof.
  unfold Qltb. rewrite negb_true_iff. split.
  - intros H. apply Qnot_le_lt. intros Hle. apply Qle_bool_iff in Hle. congruence.
  - intros H. destruct (Qle_bool y x) eqn:Hle; [|done].
    apply Qle_bool_iff in Hle. by apply Qlt_not_le in H.
Qed.


Lemma holdActive_deadlineActive until now :
  holdActive until now = true -> deadlineActive until now.
Proof.
  unfold holdActive, deadlineActive. destruct until as [d|]; [|done].
  intros [_ H]%andb_true_iff. apply bool_decide_eq_true in H. by exists d.
Qed.

Lemma getQuotaStatus_reaches env today userId r :
  no_fault 6 (faults r) = true ->
  getQuotaStatus env today userId r
  = (Resolved (snapshot r today userId, ledgerLimits env), afterReads 6 r).
Proof.
  intros Hok. unfold getQuotaStatus. read_snapshot r Hok. reflexivity.
Qed.

Lemma selectModel_idle env today now userId preferredModel p :
  no_fault 6 (faults (redis p)) = true ->
  ~ deadlineActive (fallbackModeUntil p) now ->
  selectModel env today now userId preferredModel p
  = if Qltb (FALLBACK_THRESHOLD env) (tpdPercent (redis p) today)
       || Qltb (FALLBACK_THRESHOLD env) (rpmPercent (redis p) today)
    then (Resolved MODELS_fallback,
          mkProcess (afterReads 6 (redis p)) (Some (now + FALLBACK_DURATION_MS)))
    else if Qltb (tpdPercent (redis p) today) (1 # 2)
            && Qltb (rpmPercent (redis p) today) (1 # 2)
    then (Resolved (orDefault preferredModel),
          mkProcess (afterReads 6 (redis p)) None)
    else (Resolved (orDefault preferredModel),
          mkProcess (afterReads 6 (redis p)) (fallbackModeUntil p)).
Proof.
  intros Hok Hidle.
  assert (holdActive (fallbackModeUntil p) now = false) as Hhold.
  { destruct (holdActive _ _) eqn:H; [|done].
    by apply holdActive_deadlineActive in H. }
  unfold selectModel. by rewrite (getQuotaStatus_reaches _ _ _ _ Hok), Hhold.
Qed.



(** While the deadline is ahead the fallback model is returned whatever
    the counters say, and the deadline stays. *)
Lemma selectModel_holds env today now userId preferredModel p deadline :
  no_fault 6 (faults (redis p)) = true ->
  fallbackModeUntil p = Some deadline -> deadline <> 0 -> now < deadline ->
  selectModel env today now userId preferredModel p
  = (Resolved MODELS_fallback, mkProcess (afterReads 6 (redis p)) (Some deadline)).
Proof.
  intros Hok Hset Hnz Hlt. unfold selectModel.
  rewrite (getQuotaStatus_reaches _ _ _ _ Hok), Hset. simpl.
  by rewrite !bool_decide_eq_true_2.
Qed.

(** A trip at instant [now] (not before the epoch) holds the fallback model
    for every call made less than five minutes later. *)
Lemma selectModel_holds_after_trip env today today' now now' userId userId'
    preferredModel preferredModel' p r' :
  0 <= now -> now' < now + FALLBACK_DURATION_MS ->
  no_fault 6 (faults (redis p)) = true -> no_fault 6 (faults r') = true ->
  ~ deadlineActive (fallbackModeUntil p) now ->
  (FALLBACK_THRESHOLD env < tpdPercent (redis p) today)%Q
  \/ (FALLBACK_THRESHOLD env < rpmPercent (redis p) today)%Q ->
  let p1 := (selectModel env today now userId preferredModel p).2 in
  fst (selectModel env today' now' userId' preferredModel'
         (mkProcess r' (fallbackModeUntil p1)))
  = Resolved MODELS_fallback.
Proof.
  intros Hnow Hsoon Hok Hok' Hidle Htrip.
  rewrite (selectModel_idle _ _ _ _ _ _ Hok Hidle).
  assert (Qltb (FALLBACK_THRESHOLD env) (tpdPercent (redis p) today)
          || Qltb (FALLBACK_THRESHOLD env) (rpmPercent (redis p) today) = true)
    as ->.
  { apply orb_true_iff. by rewrite !Qltb_lt. }
  simpl.
  rewrite (selectModel_holds env today' now' userId' preferredModel' _
             (now + FALLBACK_DURATION_MS)); try done.
  unfold FALLBACK_DURATION_MS. lia.
Qed.

(** C4 fails on the code.  The call of 10:30 trips the selector (22/30 is
    above 0.70) and sets the deadline five minutes ahead.  The call made
    when the deadline has just passed finds 16/30 of the minute's requests
    used, which is not below the recovery threshold 0.50, and is given the
    primary model all the same. *)
Theorem selectModel_leaves_fallback_above_recovery :
  let p1 := (selectModel defaultEnv newYear 1000 "u1" None
               (mkProcess rushHour None)).2 in
  selectModel defaultEnv newYear 1000 "u1" None (mkProcess rushHour None)
  = (Resolved MODELS_fallback, mkProcess rushHour (Some 301000))
  /\ selectModel defaultEnv tenThirtyFive 301000 "u1" None p1
     = (Resolved MODELS_default, mkProcess rushHour (Some 301000))
  /\ ~ (rpmPercent rushHour tenThirtyFive < 1 # 2)%Q.
Proof.
  split; [vm_compute; reflexivity|]. split; [vm_compute; reflexivity|].
  intros H. vm_compute in H. discriminate H.
Qed.

(** The scenario of the specification, continued: less than five minutes
    after the trip of [busyDay] the fallback model is returned even to a
    call that finds every counter at 0. *)
Example busyDay_holds :
  let p1 := (selectModel defaultEnv newYear 1000 "u1" None busyDay).2 in
  fst (selectModel defaultEnv tenThirtyFive 300999 "u1" (Some "llama-3.1-8b-instant")
         (mkProcess freshRedis (fallbackModeUntil p1)))
  = Resolved "compound-mini".
Proof. vm_compute. reflexivity. Qed.

(** * Further properties of the code *)

(** ** Reconnection delay *)

(** X1. The reconnection delay grows by 50 ms with each attempt up to the
    fortieth and is 2000 ms from then on; it is never negative, never above
    2000 ms, and never shorter for a later attempt. *)
Theorem retryStrategy_bounds times :
  0 <= times ->
  0 <= retryStrategy times <= 2000
  /\ (times <= 40 -> retryStrategy times = times * 50)
  /\ (40 <= times -> retryStrategy times = 2000)
  /\ (forall later, times <= later -> retryStrategy times <= retryStrategy later).
Proof. unfold retryStrategy. intros Htimes. repeat split; intros; lia. Qed.

Lemma retryStrategy_bounds_witness :
  0 <= 3
  /\ 0 <= retryStrategy 3 <= 2000
  /\ (3 <= 40 -> retryStrategy 3 = 3 * 50)
  /\ (40 <= 3 -> retryStrategy 3 = 2000)
  /\ (forall later, 3 <= later -> retryStrategy 3 <= retryStrategy later).
Proof. split; [lia|]. apply (retryStrategy_bounds 3). lia. Defined.

(** ** Token estimate *)

Lemma words_go_length_cur u v s :
  length (String.words_go (Some u) s) = length (String.words_go (Some v) s).
Proof.
  revert u v. induction s as [|c s IH]; intros u v; simpl; [done|].
  destruct (Ascii.is_space c); simpl; [done|]. apply IH.
Qed.

Lemma words_go_Some_length u s :
  (1 <= length (String.words_go (Some u) s))%nat.
Proof.
  revert u. induction s as [|c s IH]; intros u; simpl; [lia|].
  destruct (Ascii.is_space c); simpl; [lia|]. apply IH.
Qed.

Lemma words_nil_blank s : String.words s = [] <-> blank s = true.
Proof.
  unfold String.words. induction s as [|c s IH]; simpl; [done|].
  destruct (Ascii.is_space c); simpl; [done|]. split; [|done].
  intros H. pose proof (words_go_Some_length (String c "") s) as Hlen.
  rewrite H in Hlen. simpl in Hlen. lia.
Qed.

(** X2. For an ASCII text the estimate is the least integer not below
    three quarters of the number of words: it lies between 0 and the number
    of words, and it is 0 exactly for a text without words, that is an
    empty or all-white-space text. *)
Theorem estimateTokens_ceil text :
  asciiText text = true ->
  3 * wordCount text <= 4 * estimateTokens text < 3 * wordCount text + 4
  /\ 0 <= estimateTokens text <= wordCount text
  /\ (estimateTokens text = 0 <-> blank text = true).
Proof.
  intros _. unfold estimateTokens. fold (wordCount text).
  assert (0 <= wordCount text) as Hw by (unfold wordCount; lia).
  pose proof (Z.div_mod (3 * wordCount text + 3) 4) as Hdm.
  pose proof (Z.mod_pos_bound (3 * wordCount text + 3) 4) as Hmod.
  split; [lia|]. split; [lia|].
  rewrite <-words_nil_blank. split.
  - intros H0. assert (wordCount text = 0) as Hz by lia.
    unfold wordCount in Hz. destruct (String.words text); [done|].
    simpl in Hz. lia.
  - intros Hnil. unfold wordCount in *. rewrite Hnil in *. simpl in *. lia.
Qed.

Lemma estimateTokens_ceil_witness :
  estimateTokens "summarise this note  please" = 3
  /\ wordCount "summarise this note  please" = 4
  /\ (estimateTokens "  " = 0 <-> blank "  " = true).
Proof.
  pose proof (estimateTokens_ceil "summarise this note  please" eq_refl)
    as (Hceil & Hbounds & _).
  pose proof (estimateTokens_ceil "  " eq_refl) as (_ & _ & Hblank).
  split; [reflexivity|]. split; [reflexivity|exact Hblank].
Defined.

(** The words of [a ++ b]: those of [a] and those of [b], where the last
    word of [a] and the first of [b] may have joined. *)
Lemma words_go_app_length cur a b :
  (length (String.words_go cur (a +:+ b))
   <= length (String.words_go cur a) + length (String.words b)
   <= S (length (String.words_go cur (a +:+ b))))%nat.
Proof.
  revert cur. induction a as [|c a IH]; intros cur.
  - change ("" +:+ b) with b. simpl. unfold String.words.
    destruct cur as [u|]; simpl; [|lia].
    destruct b as [|x b]; simpl; [lia|].
    destruct (Ascii.is_space x); simpl; [lia|].
    rewrite (words_go_length_cur (String x u) (String x "")). lia.
  - change (String c a +:+ b) with (String c (a +:+ b)). simpl.
    destruct (Ascii.is_space c).
    + rewrite !length_app. specialize (IH None). lia.
    + apply IH.
Qed.

(** X3. The router estimates [prompt + systemPrompt] as one text: that
    estimate is at most the sum of the estimates of the two texts, and at
    least that sum less two. *)
Theorem estimateTokens_concat a b :
  estimateTokens a + estimateTokens b - 2
  <= estimateTokens (a +:+ b)
  <= estimateTokens a + estimateTokens b.
Proof.
  pose proof (words_go_app_length None a b) as Hlen.
  fold (String.words (a +:+ b)) (String.words a) in Hlen.
  unfold estimateTokens.
  set (wa := Z.of_nat (length (String.words a))).
  set (wb := Z.of_nat (length (String.words b))).
  set (wab := Z.of_nat (length (String.words (a +:+ b)))).
  assert (wab <= wa + wb <= wab + 1) as Hw by (unfold wa, wb, wab; lia).
  pose proof (Z.div_mod (3 * wa + 3) 4).
  pose proof (Z.mod_pos_bound (3 * wa + 3) 4).
  pose proof (Z.div_mod (3 * wb + 3) 4).
  pose proof (Z.mod_pos_bound (3 * wb + 3) 4).
  pose proof (Z.div_mod (3 * wab + 3) 4).
  pose proof (Z.mod_pos_bound (3 * wab + 3) 4).
  lia.
Qed.

Example estimateTokens_examples :
  estimateTokens "" = 0
  /\ estimateTokens "   " = 0
  /\ estimateTokens "one" = 1
  /\ estimateTokens "summarise this note  please" = 3
  /\ estimateTokens ("explain" +:+ "briefly") = 1.
Proof. repeat split; reflexivity. Qed.

(** ** How many commands a function sends *)

Lemma spends_ret {A} (a : A) : spends 0 (ret a).
Proof. intros r. exists 0%nat. split; [by split|]. split; [lia|done]. Qed.

Lemma spends_command {A} (run : Redis -> A * gmap string Entry) :
  spends 1 (command run).
Proof.
  intros r. destruct (metered_command run r) as (m & Hissued & _).
  exists 1%nat. split; [|split; [lia|done]].
  unfold issued, command in *.
  destruct (faults r) as [|[] fl] eqn:Hfl; simpl.
  - destruct (run r). by split.
  - split; [by rewrite drop_0|]. split; [done|]. by exists 0%nat.
  - destruct (run r). split; [by rewrite drop_0|done].
Qed.

Lemma spends_bind {A B} (n1 n2 : nat) (c : Async A) (k : A -> Async B) :
  spends n1 c -> (forall a, spends n2 (k a)) -> spends (n1 + n2) (bind c k).
Proof.
  intros Hc Hk r. destruct (Hc r) as (m1 & [Hf1 Ho1] & Hle1 & Hm1).
  unfold issued, bind. destruct (c r) as [[a|e] r1] eqn:Hcr; simpl in *.
  - specialize (Hm1 a eq_refl). subst m1.
    destruct (Hk a r1) as (m2 & [Hf2 Ho2] & Hle2 & Hm2). exists (n1 + m2)%nat.
    rewrite Hf1 in Hf2, Ho2. split; [split|split].
    + by rewrite Hf2, drop_drop.
    + destruct (k a r1) as [[b|e] r2]; simpl in *.
      * by rewrite no_fault_add, Ho1, Ho2.
      * destruct Ho2 as (-> & i & -> & Hi & Hlook). split; [done|].
        exists (n1 + i)%nat. split; [lia|]. split.
        -- by rewrite no_fault_add, Ho1, Hi.
        -- by rewrite lookup_drop in Hlook.
    + lia.
    + intros b Hb. specialize (Hm2 b Hb). lia.
  - exists m1. split; [by split|]. split; [lia|done].
Qed.

Lemma spends_getCounter key : spends 1 (getCounter key).
Proof.
  apply (spends_bind 1 0); [apply spends_command|intros; apply spends_ret].
Qed.

(** A function that sends [n] commands resolves exactly when the first
    [n] commands to come reach the store. *)
Lemma spends_outcome {A} (n : nat) (c : Async A) r :
  spends n c ->
  (no_fault n (faults r) = true -> exists a, (c r).1 = Resolved a)
  /\ (no_fault n (faults r) = false -> (c r).1 = Thrown connection_error).
Proof.
  intros Hc. destruct (Hc r) as (m & [Hf Ho] & Hle & Hm).
  destruct (c r) as [[a|e] r']; simpl in *.
  - split; [by exists a|]. specialize (Hm a eq_refl). subst m. congruence.
  - destruct Ho as (-> & i & -> & Hi & Hlook). split; [|done].
    intros Hok. destruct (no_fault_lookup n (faults r) i Hok); [lia|done].
Qed.

Lemma keeps_clock_ret {A} (a : A) : keeps_clock (ret a).
Proof. done. Qed.

Lemma keeps_clock_command {A} (run : Redis -> A * gmap string Entry) :
  keeps_clock (command run).
Proof. intros r. by destruct (command_cases run r) as [-> | ->]. Qed.

Lemma keeps_clock_bind {A B} (c : Async A) (k : A -> Async B) :
  keeps_clock c -> (forall a, keeps_clock (k a)) -> keeps_clock (bind c k).
Proof.
  intros Hc Hk r. specialize (Hc r). unfold bind.
  destruct (c r) as [[a|e] r1]; simpl in *; [|done]. by rewrite Hk.
Qed.

Lemma keeps_clock_try_catch {A} (c : Async A) (h : string -> A) :
  keeps_clock c -> keeps_clock (try_catch c h).
Proof.
  intros Hc r. specialize (Hc r). unfold try_catch.
  by destruct (c r) as [[a|e] r1].
Qed.

Lemma keeps_clock_getCounter key : keeps_clock (getCounter key).
Proof.
  apply keeps_clock_bind; [apply keeps_clock_command|].
  intros; apply keeps_clock_ret.
Qed.

Lemma keeps_clock_incrementCounter key ttl : keeps_clock (incrementCounter key ttl).
Proof.
  apply keeps_clock_bind; [apply keeps_clock_command|]. intros current.
  case_bool_decide; [|apply keeps_clock_ret].
  apply keeps_clock_bind; [apply keeps_clock_command|].
  intros; apply keeps_clock_ret.
Qed.

Lemma keeps_clock_getQuotaStatus env now userId :
  keeps_clock (getQuotaStatus env now userId).
Proof.
  unfold getQuotaStatus.
  do 6 (apply keeps_clock_bind; [apply keeps_clock_getCounter|intros ?]).
  apply keeps_clock_ret.
Qed.

Lemma keeps_clock_checkAndIncrementLimits env now userId tokensEstimated :
  keeps_clock (checkAndIncrementLimits env now userId tokensEstimated).
Proof.
  unfold checkAndIncrementLimits.
  do 6 (apply keeps_clock_bind; [apply keeps_clock_getCounter|intros ?]).
  repeat (case_bool_decide; [apply keeps_clock_ret|]).
  do 3 (apply keeps_clock_bind; [apply keeps_clock_incrementCounter|intros ?]).
  apply keeps_clock_ret.
Qed.

Lemma keeps_clock_recordActualTokenUsage now userId actualTokensUsed :
  keeps_clock (recordActualTokenUsage now userId actualTokensUsed).
Proof.
  unfold recordActualTokenUsage. apply keeps_clock_try_catch.
  do 6 (apply keeps_clock_bind; [apply keeps_clock_command|intros ?]).
  apply keeps_clock_ret.
Qed.

(** ** The status read *)

Lemma spends_getQuotaStatus env now userId : spends 6 (getQuotaStatus env now userId).
Proof.
  unfold getQuotaStatus.
  do 6 (apply (spends_bind 1); [apply spends_getCounter|intros ?]).
  apply spends_ret.
Qed.

Lemma getQuotaStatus_db env now userId r :
  db (getQuotaStatus env now userId r).2 = db r.
Proof.
  apply map_eq. intros k. apply getQuotaStatus_writes. tauto.
Qed.

(** X4. The status read changes no counter and does not move the clock,
    whatever the availability of the store.  It resolves exactly when its
    six reads reach the store, with the snapshot of the six counters and
    the limit set, and throws the store's error otherwise. *)
Theorem getQuotaStatus_read_only env now userId r :
  db (getQuotaStatus env now userId r).2 = db r
  /\ clock (getQuotaStatus env now userId r).2 = clock r
  /\ (no_fault 6 (faults r) = true ->
      (getQuotaStatus env now userId r).1
      = Resolved (snapshot r now userId, ledgerLimits env))
  /\ (no_fault 6 (faults r) = false ->
      (getQuotaStatus env now userId r).1 = Thrown connection_error).
Proof.
  split; [apply getQuotaStatus_db|]. split; [apply keeps_clock_getQuotaStatus|].
  split.
  - intros Hok. by rewrite (getQuotaStatus_reaches _ _ _ _ Hok).
  - apply spends_outcome, spends_getQuotaStatus.
Qed.

Lemma getQuotaStatus_read_only_witness :
  (getQuotaStatus defaultEnv newYear "u2" u2Redis).1
  = Resolved (mkQuotas 0 0 0 0 0 19950, mkQuotas 30 14400 6000 500000 50 20000)
  /\ (getQuotaStatus defaultEnv newYear "u1" downAtThirdRead).1
     = Thrown connection_error.
Proof.
  split.
  - apply (proj1 (proj2 (proj2 (getQuotaStatus_read_only
                                  defaultEnv newYear "u2" u2Redis)))).
    reflexivity.
  - apply (proj2 (proj2 (proj2 (getQuotaStatus_read_only
                                  defaultEnv newYear "u1" downAtThirdRead)))).
    reflexivity.
Defined.

(** ** Admission and status *)

Lemma resolved_report env now userId tokensEstimated r res r' :
  checkAndIncrementLimits env now userId tokensEstimated r = (Resolved res, r') ->
  limits res = ledgerLimits env
  /\ (allowed res = false ->
      db r' = db r /\ clock r' = clock r /\ usage res = snapshot r now userId
      /\ exists d,
           List.find (exceeded (ledgerLimits env) (snapshot r now userId)
                        tokensEstimated) precedence = Some d
           /\ reason res = Some (reasonOf d))
  /\ (allowed res = true ->
      reason res = None
      /\ usage res
         = mkQuotas (counterValue r (globalRpmKey now) + 1)
                    (counterValue r (globalRpdKey now) + 1)
                    (counterValue r (globalTpmKey now))
                    (counterValue r (globalTpdKey now))
                    (counterValue r (userRpdKey userId now) + 1)
                    (counterValue r (userTpdKey userId now))).
Proof.
  intros H. unfold checkAndIncrementLimits in H.
  do 6 (invert_read r H).
  unfold snapshot, precedence, exceeded, ledgerLimits. simpl.
  repeat (case_bool_decide;
          [unfold ret in H; injection H as <- <-; simpl;
           split; [done|]; split; [|done]; intros _;
           split; [done|]; split; [done|]; split; [done|];
           eexists; split; [reflexivity|done]
          |]).
  do 3 (apply bind_Resolved in H as (? & ? & _ & H)).
  unfold ret in H. injection H as <- <-. simpl.
  split; [done|]. split; [done|]. intros _. by split.
Qed.

(** X5. The usage an admission check reports, admitted or refused, is the
    usage a status read made right after it returns: the snapshot of the
    counters as the check left them, with the limit set. *)
Theorem status_after_admission env now userId tokensEstimated r res r' :
  checkAndIncrementLimits env now userId tokensEstimated r = (Resolved res, r') ->
  usage res = snapshot r' now userId
  /\ limits res = ledgerLimits env
  /\ forall fl, no_fault 6 fl = true ->
       (getQuotaStatus env now userId (mkRedis (db r') (clock r') fl)).1
       = Resolved (usage res, limits res).
Proof.
  intros Hrun.
  destruct (resolved_report _ _ _ _ _ _ _ Hrun) as (Hlim & Hno & Hyes).
  assert (usage res = snapshot r' now userId) as Husage.
  { destruct (allowed res) eqn:Hallowed.
    - destruct (Hyes eq_refl) as (_ & ->).
      destruct (allowed_effect _ _ _ _ _ _ _ Hrun Hallowed)
        as (Hc & Hrpm & Hrpd & Hurpd & _).
      pose proof (checkAndIncrementLimits_writes env now userId tokensEstimated r)
        as Hw.
      rewrite Hrun in Hw. simpl in Hw.
      destruct (key_families_disjoint now now userId userId)
        as (_ & _ & _ & Ht1 & Ht2 & Ht3 & _).
      unfold snapshot. rewrite Hrpm, Hrpd, Hurpd.
      rewrite (counterValue_other r r' (globalTpmKey now)) by auto.
      rewrite (counterValue_other r r' (globalTpdKey now)) by auto.
      by rewrite (counterValue_other r r' (userTpdKey userId now)) by auto.
    - destruct (Hno eq_refl) as (Hd & Hc & -> & _).
      unfold snapshot. by rewrite !(counterValue_same r r'). }
  split; [done|]. split; [done|]. intros fl Hfl.
  rewrite (getQuotaStatus_reaches env now userId
             (mkRedis (db r') (clock r') fl) Hfl).
  simpl. by rewrite Husage, Hlim.
Qed.

Lemma status_after_admission_witness :
  usage (mkLimitCheck true (mkQuotas 1 1 0 0 1 0)
           (mkQuotas 30 14400 6000 500000 50 20000) None)
  = snapshot (checkAndIncrementLimits defaultEnv newYear "u1" 100 freshRedis).2
             newYear "u1"
  /\ (getQuotaStatus defaultEnv newYear "u1"
        (mkRedis (db (checkAndIncrementLimits defaultEnv newYear "u1" 100 freshRedis).2)
                 0 [])).1
     = Resolved (mkQuotas 1 1 0 0 1 0, mkQuotas 30 14400 6000 500000 50 20000).
Proof.
  destruct (status_after_admission defaultEnv newYear "u1" 100 freshRedis
              (mkLimitCheck true (mkQuotas 1 1 0 0 1 0)
                 (mkQuotas 30 14400 6000 500000 50 20000) None)
              (checkAndIncrementLimits defaultEnv newYear "u1" 100 freshRedis).2)
    as (Husage & _ & Hstatus).
  - vm_compute. reflexivity.
  - split; [exact Husage|]. apply (Hstatus []). reflexivity.
Defined.

(** ** Counters only grow *)

Lemma grows_refl r : grows r r.
Proof. split; [done|]. intros; lia. Qed.

Lemma grows_trans r1 r2 r3 : grows r1 r2 -> grows r2 r3 -> grows r1 r3.
Proof.
  intros [Hc1 H1] [Hc2 H2]. split; [congruence|].
  intros k. specialize (H1 k). specialize (H2 k). lia.
Qed.

Lemma keeps_ret (P : Redis -> Prop) {A} (a : A) : keeps P (ret a).
Proof. by apply triple_ret. Qed.

Lemma keeps_bind (P : Redis -> Prop) {A B} (c : Async A) (k : A -> Async B) :
  keeps P c -> (forall a, keeps P (k a)) -> keeps P (bind c k).
Proof. intros Hc Hk. eapply triple_bind; [exact Hc|exact Hk]. Qed.

Lemma keeps_try_catch (P : Redis -> Prop) {A} (c : Async A) (h : string -> A) :
  keeps P c -> keeps P (try_catch c h).
Proof.
  intros Hc r HP. specialize (Hc r HP). unfold try_catch.
  by destruct (c r) as [[a|e] r1].
Qed.

(** A command keeps a property of the database and the clock if the
    database it leaves keeps it. *)
Lemma keeps_command (P : Redis -> Prop) {A}
    (run : Redis -> A * gmap string Entry) :
  (forall r, P r -> P (after (db r) r)) ->
  (forall r, P r -> P (after (run r).2 r)) ->
  keeps P (command run).
Proof.
  intros Hfail Hrun r HP. destruct (command_cases run r) as [-> | ->]; auto.
Qed.

Lemma grows_after r0 r d :
  grows r0 r ->
  (forall k, counterValue r k <= counterValue (after d r) k) ->
  grows r0 (after d r).
Proof.
  intros Hg Hd. apply (grows_trans _ r); [done|]. by split.
Qed.

Lemma keeps_grows_get r0 key : keeps (grows r0) (redis_get key).
Proof.
  apply keeps_command; intros r Hg; by apply grows_after.
Qed.

Lemma counterValue_insert r key e fl k :
  live (clock r) e = true ->
  counterValue (mkRedis (<[key := e]> (db r)) (clock r) fl) k
  = if decide (k = key) then value e else counterValue r k.
Proof.
  intros Hl. unfold counterValue, peek. simpl. destruct (decide (k = key)) as [->|Hne].
  - by rewrite lookup_insert_eq, Hl.
  - by rewrite lookup_insert_ne.
Qed.

Lemma keeps_grows_incrby r0 key amount :
  0 <= amount -> keeps (grows r0) (redis_incrby key amount).
Proof.
  intros Ha. apply keeps_command; intros r Hg; (apply grows_after; [done|]).
  - intros k. apply Z.eq_le_incl. symmetry. by apply counterValue_same.
  - intros k. unfold after. destruct (peek r key) as [e|] eqn:Hp; simpl.
    + apply peek_Some in Hp as Hp'. destruct Hp' as [_ Hl].
      rewrite counterValue_insert by done. case_decide; [|lia]. subst k.
      unfold counterValue. rewrite Hp. simpl. lia.
    + rewrite counterValue_insert by done. case_decide; [|lia]. subst k.
      unfold counterValue. rewrite Hp. simpl. lia.
Qed.

Lemma keeps_grows_expire r0 key seconds :
  0 < seconds -> keeps (grows r0) (redis_expire key seconds).
Proof.
  intros Hs. apply keeps_command; intros r Hg; (apply grows_after; [done|]).
  - intros k. apply Z.eq_le_incl. symmetry. by apply counterValue_same.
  - intros k. unfold after. destruct (peek r key) as [e|] eqn:Hp; simpl.
    + rewrite bool_decide_eq_true_2 by done. simpl.
      rewrite counterValue_insert
        by (unfold live; simpl; apply bool_decide_eq_true_2; lia).
      case_decide; [|lia]. subst k. unfold counterValue. rewrite Hp. simpl. lia.
    + apply Z.eq_le_incl. symmetry. by apply counterValue_same.
Qed.

Lemma keeps_grows_getCounter r0 key : keeps (grows r0) (getCounter key).
Proof.
  apply keeps_bind; [apply keeps_grows_get|intros; apply keeps_ret].
Qed.

Lemma keeps_grows_incrementCounter r0 key ttl :
  0 < ttl -> keeps (grows r0) (incrementCounter key ttl).
Proof.
  intros Httl. apply keeps_bind; [by apply keeps_grows_incrby|].
  intros current. case_bool_decide; [|apply keeps_ret].
  apply keeps_bind; [by apply keeps_grows_expire|intros; apply keeps_ret].
Qed.

Lemma keeps_grows_checkAndIncrementLimits r0 env now userId tokensEstimated :
  keeps (grows r0) (checkAndIncrementLimits env now userId tokensEstimated).
Proof.
  unfold checkAndIncrementLimits.
  do 6 (apply keeps_bind; [apply keeps_grows_getCounter|intros ?]).
  repeat (case_bool_decide; [apply keeps_ret|]).
  do 3 (apply keeps_bind; [by apply keeps_grows_incrementCounter|intros ?]).
  apply keeps_ret.
Qed.

Lemma keeps_grows_getQuotaStatus r0 env now userId :
  keeps (grows r0) (getQuotaStatus env now userId).
Proof.
  unfold getQuotaStatus.
  do 6 (apply keeps_bind; [apply keeps_grows_getCounter|intros ?]).
  apply keeps_ret.
Qed.

Lemma keeps_grows_recordActualTokenUsage r0 now userId actualTokensUsed :
  0 <= actualTokensUsed ->
  keeps (grows r0) (recordActualTokenUsage now userId actualTokensUsed).
Proof.
  intros Ha. unfold recordActualTokenUsage. apply keeps_try_catch.
  do 3 (apply keeps_bind; [by apply keeps_grows_incrby|intros ?]).
  do 3 (apply keeps_bind; [by apply keeps_grows_expire|intros ?]).
  apply keeps_ret.
Qed.

Lemma keeps_grows_incrementRewardQuota r0 env now userId module rewardType amount :
  0 <= amount ->
  keeps (grows r0) (incrementRewardQuota env now userId module rewardType amount).
Proof.
  intros Ha. unfold incrementRewardQuota.
  repeat case_bool_decide; try apply keeps_ret;
    (apply keeps_bind; [by apply keeps_grows_incrby|intros ?]);
    do 4 (apply keeps_bind; [apply keeps_grows_getCounter|intros ?]);
    apply keeps_ret.
Qed.

Lemma keeps_run (P : Redis -> Prop) {A} (c : Async A) r :
  keeps P c -> P r -> P (c r).2.
Proof.
  intros Hc HP. specialize (Hc r HP). by destruct (c r) as [[a|e] r'].
Qed.

(** X6. Within one instant of the server's clock no call lowers what a
    read of any counter returns, whether the call resolves, refuses or
    throws: an admission check and a status read never do, and a
    reconciliation or an ad reward does not when the amount it adds is not
    negative. *)
Theorem calls_never_lower_counters env c d key fl fl' :
  addsOnly c = true ->
  counterValue (mkRedis d (callClock c) fl) key
  <= counterValue (mkRedis (perform env c d).2 (callClock c) fl') key.
Proof.
  intros Hadds. unfold perform, addsOnly in *.
  set (r := mkRedis d (callClock c) (callFaults c)).
  assert (forall r', grows r r' ->
            counterValue (mkRedis d (callClock c) fl) key
            <= counterValue (mkRedis (db r') (callClock c) fl') key) as Hend.
  { intros r' [Hc Hk]. specialize (Hk key).
    rewrite (counterValue_same r (mkRedis d (callClock c) fl)) by done.
    by rewrite (counterValue_same r' (mkRedis (db r') (callClock c) fl')). }
  destruct (callOp c) as [now u est|now u|now u n|now u m ty n].
  - pose proof (keeps_run _ _ r
                  (keeps_grows_checkAndIncrementLimits r env now u est)
                  (grows_refl r)) as Hg.
    destruct (checkAndIncrementLimits _ _ _ _ _) as [o r']. by apply Hend.
  - pose proof (keeps_run _ _ r (keeps_grows_getQuotaStatus r env now u)
                  (grows_refl r)) as Hg.
    destruct (getQuotaStatus _ _ _ _) as [o r']. by apply Hend.
  - apply bool_decide_eq_true in Hadds.
    pose proof (keeps_run _ _ r
                  (keeps_grows_recordActualTokenUsage r now u n Hadds)
                  (grows_refl r)) as Hg.
    destruct (recordActualTokenUsage _ _ _ _) as [o r']. by apply Hend.
  - apply bool_decide_eq_true in Hadds.
    pose proof (keeps_run _ _ r
                  (keeps_grows_incrementRewardQuota r env now u m ty n Hadds)
                  (grows_refl r)) as Hg.
    destruct (incrementRewardQuota _ _ _ _ _ _ _) as [o r']. by apply Hend.
Qed.

Lemma calls_never_lower_counters_witness :
  addsOnly (mkCall 1000 [false; false; false; false; false; false; false; true]
              (Admission newYear "u1" 100)) = true
  /\ counterValue (mkRedis ∅ 1000 []) (globalRpmKey newYear)
     <= counterValue
          (mkRedis (perform defaultEnv
                      (mkCall 1000
                         [false; false; false; false; false; false; false; true]
                         (Admission newYear "u1" 100)) ∅).2 1000 [])
          (globalRpmKey newYear).
Proof.
  split; [reflexivity|].
  apply (calls_never_lower_counters defaultEnv
           (mkCall 1000 [false; false; false; false; false; false; false; true]
              (Admission newYear "u1" 100)) ∅ (globalRpmKey newYear) [] []).
  reflexivity.
Defined.

(** A negative amount does lower a counter. *)
Example negative_reward_lowers :
  let r := (incrementRewardQuota defaultEnv newYear "u1" "pdf" "tokens" 500
              freshRedis).2 in
  counterValue r "tpd:u1:2024-0-1" = 500
  /\ counterValue
       (incrementRewardQuota defaultEnv newYear "u1" "pdf" "tokens" (-800) r).2
       "tpd:u1:2024-0-1" = -300.
Proof. vm_compute. split; reflexivity. Qed.

(** ** Reconciliation under store failures *)

Lemma spends_recordActualTokenUsage_body now userId actualTokensUsed :
  spends 6
    (await redis_incrby (globalTpmKey now) actualTokensUsed ;;
     await redis_incrby (globalTpdKey now) actualTokensUsed ;;
     await redis_incrby (userTpdKey userId now) actualTokensUsed ;;
     await redis_expire (globalTpmKey now) 60 ;;
     await redis_expire (globalTpdKey now) 86400 ;;
     await redis_expire (userTpdKey userId now) 86400 ;;
     ret (mkRecordResult true None)).
Proof.
  do 6 (apply (spends_bind 1); [apply spends_command|intros ?]).
  apply spends_ret.
Qed.

(** X7. [recordActualTokenUsage] never throws.  It answers
    [success: true] exactly when its six commands reach the store, and
    [success: false] with the store's error message otherwise; in every case
    it writes token counters only and does not move the clock. *)
Theorem recordActualTokenUsage_never_throws now userId actualTokensUsed r :
  exists res,
    (recordActualTokenUsage now userId actualTokensUsed r).1 = Resolved res
    /\ success res = no_fault 6 (faults r)
    /\ error res = (if success res then None else Some connection_error)
    /\ (forall k, ~ tokenKeys now userId k ->
          db (recordActualTokenUsage now userId actualTokensUsed r).2 !! k
          = db r !! k)
    /\ clock (recordActualTokenUsage now userId actualTokensUsed r).2 = clock r.
Proof.
  pose proof (spends_recordActualTokenUsage_body now userId actualTokensUsed r)
    as (m & [Hf Ho] & Hle & Hm).
  pose proof (recordActualTokenUsage_writes now userId actualTokensUsed r) as Hw.
  pose proof (keeps_clock_recordActualTokenUsage now userId actualTokensUsed r)
    as Hc.
  unfold recordActualTokenUsage, try_catch in *.
  match goal with |- context [let (_, _) := ?body r in _] =>
    destruct (body r) as [[a|e] r'] eqn:Hbody end; simpl in *.
  - specialize (Hm a eq_refl). subst m. exists a.
    assert (a = mkRecordResult true None) as ->.
    { do 6 (apply bind_Resolved in Hbody as (? & ? & _ & Hbody)).
      unfold ret in Hbody. by injection Hbody as <- _. }
    simpl. by rewrite Ho.
  - destruct Ho as (-> & i & -> & Hi & Hlook).
    exists (mkRecordResult false (Some connection_error)). simpl.
    split; [done|]. split; [|done].
    destruct (no_fault 6 (faults r)) eqn:Hok; [|done].
    destruct (no_fault_lookup 6 (faults r) i Hok); [lia|done].
Qed.

Lemma recordActualTokenUsage_never_throws_witness :
  exists res,
    (recordActualTokenUsage newYear "u1" 87 (mkRedis ∅ 1000 [false; false; true])).1
    = Resolved res
    /\ success res = false
    /\ error res = Some "Connection is closed.".
Proof.
  destruct (recordActualTokenUsage_never_throws newYear "u1" 87
              (mkRedis ∅ 1000 [false; false; true]))
    as (res & Hrun & Hsuccess & Herror & _).
  exists res. split; [exact Hrun|].
  assert (success res = false) as Hfalse by (rewrite Hsuccess; reflexivity).
  split; [exact Hfalse|]. rewrite Herror, Hfalse. reflexivity.
Defined.

(** The store goes down after the first two increments of a record. *)
Example record_partly_applied :
  let r := mkRedis ∅ 1000 [false; false; true] in
  recordActualTokenUsage newYear "u1" 87 r
  = (Resolved (mkRecordResult false (Some "Connection is closed.")),
     mkRedis {[ globalTpmKey newYear := mkEntry 87 None;
                globalTpdKey newYear := mkEntry 87 None ]} 1000 []).
Proof. vm_compute. reflexivity. Qed.

Lemma redis_incrby_Resolved key amount r v r' :
  redis_incrby key amount r = (Resolved v, r') ->
  clock r' = clock r
  /\ (forall k, k <> key -> db r' !! k = db r !! k)
  /\ counterValue r' key = counterValue r key + amount.
Proof.
  unfold redis_incrby.
  match goal with |- context [command ?f r] =>
    destruct (command_cases f r) as [-> | ->] end; [|done].
  intros [= <- <-]. split; [done|]. unfold after.
  destruct (peek r key) as [e|] eqn:Hp; simpl.
  - apply peek_Some in Hp as Hp'. destruct Hp' as [_ Hl]. split.
    + intros k Hk. by rewrite lookup_insert_ne.
    + rewrite counterValue_insert by done. rewrite decide_True by done.
      unfold counterValue. by rewrite Hp.
  - split.
    + intros k Hk. by rewrite lookup_insert_ne.
    + rewrite counterValue_insert by done. rewrite decide_True by done.
      unfold counterValue. by rewrite Hp.
Qed.

Lemma redis_expire_Resolved key seconds r v r' :
  0 < seconds -> redis_expire key seconds r = (Resolved v, r') ->
  clock r' = clock r /\ forall k, counterValue r' k = counterValue r k.
Proof.
  intros Hs. unfold redis_expire.
  match goal with |- context [command ?f r] =>
    destruct (command_cases f r) as [-> | ->] end; [|done].
  intros [= <- <-]. split; [done|]. intros k. unfold after.
  destruct (peek r key) as [e|] eqn:Hp; simpl.
  - rewrite bool_decide_eq_true_2 by done. simpl.
    rewrite counterValue_insert
      by (unfold live; simpl; apply bool_decide_eq_true_2; lia).
    case_decide; [|done]. subst k. unfold counterValue. by rewrite Hp.
  - by apply counterValue_same.
Qed.

(** A record that answers [success: true] has added the tokens to the
    three token counters. *)
Lemma recorded_effect now userId actualTokensUsed r res r' :
  recordActualTokenUsage now userId actualTokensUsed r = (Resolved res, r') ->
  success res = true ->
  counterValue r' (globalTpmKey now)
  = counterValue r (globalTpmKey now) + actualTokensUsed
  /\ counterValue r' (globalTpdKey now)
     = counterValue r (globalTpdKey now) + actualTokensUsed
  /\ counterValue r' (userTpdKey userId now)
     = counterValue r (userTpdKey userId now) + actualTokensUsed.
Proof.
  intros Hrun Hsuccess. unfold recordActualTokenUsage, try_catch in Hrun.
  match type of Hrun with context [let (_, _) := ?body r in _] =>
    destruct (body r) as [[a|e] r0] eqn:Hbody end;
    [|injection Hrun as <- _; discriminate Hsuccess].
  injection Hrun as _ <-.
  destruct (token_keys_distinct now userId) as (Hmd & Hmu & Hdu).
  apply bind_Resolved in Hbody as (? & r1 & H1 & Hbody).
  apply redis_incrby_Resolved in H1 as (Hc1 & Ho1 & Hv1).
  apply bind_Resolved in Hbody as (? & r2 & H2 & Hbody).
  apply redis_incrby_Resolved in H2 as (Hc2 & Ho2 & Hv2).
  apply bind_Resolved in Hbody as (? & r3 & H3 & Hbody).
  apply redis_incrby_Resolved in H3 as (Hc3 & Ho3 & Hv3).
  apply bind_Resolved in Hbody as (? & r4 & H4 & Hbody).
  apply redis_expire_Resolved in H4 as (Hc4 & Hv4); [|done].
  apply bind_Resolved in Hbody as (? & r5 & H5 & Hbody).
  apply redis_expire_Resolved in H5 as (Hc5 & Hv5); [|done].
  apply bind_Resolved in Hbody as (? & r6 & H6 & Hbody).
  apply redis_expire_Resolved in H6 as (Hc6 & Hv6); [|done].
  unfold ret in Hbody. injection Hbody as _ <-.
  rewrite !Hv6, !Hv5, !Hv4. split; [|split].
  - rewrite (counterValue_other r2 r3) by (try apply Ho3; done).
    rewrite (counterValue_other r1 r2) by (try apply Ho2; done). done.
  - rewrite (counterValue_other r2 r3) by (try apply Ho3; done).
    rewrite Hv2. f_equal. apply counterValue_other; [done|by apply Ho1].
  - rewrite Hv3. f_equal.
    rewrite (counterValue_other r1 r2) by (try apply Ho2; done).
    apply counterValue_other; [done|by apply Ho1].
Qed.

(** ** Ad rewards *)

(** Finds the reach of the store left after some commands. *)
Ltac no_fault_from H := first [exact H | apply no_fault_after; no_fault_from H].

Lemma redis_incrby_run key amount r n :
  no_fault (S n) (faults r) = true ->
  redis_incrby key amount r
  = (Resolved (counterValue r key + amount),
     after (<[key := mkEntry (counterValue r key + amount)
                             (peek r key ≫= expireAt)]> (db r)) r).
Proof.
  intros Hok. unfold redis_incrby. rewrite (command_reaches _ r n Hok).
  unfold counterValue. by destruct (peek r key).
Qed.

Lemma live_kept r key v :
  live (clock r) (mkEntry v (peek r key ≫= expireAt)) = true.
Proof.
  destruct (peek r key) as [e|] eqn:Hp; [|done].
  apply peek_Some in Hp as [_ Hl]. done.
Qed.

(** X8. An ad reward of type [tokens] (or [requests]) whose five commands
    reach the store answers [success: true]; the counter
    [tpd:{userId}:{day}] (or [rpd:{userId}:{day}]) holds what a read saw
    before plus the amount, with the expiry it had, or no expiry at all
    when the reward created it; no other key changes; and the usage
    returned is the reading of the four reward counters after the credit,
    with the reward limits. *)
Theorem incrementRewardQuota_credits env now userId module rewardType amount r dimension :
  (rewardType = "tokens" /\ dimension = "tpd")
  \/ (rewardType = "requests" /\ dimension = "rpd") ->
  no_fault 5 (faults r) = true ->
  let key := rewardKey dimension userId (dayBucket now) in
  exists r',
    incrementRewardQuota env now userId module rewardType amount r
    = (Resolved (mkRewardResult true None
         (Some (mkRewardQuotas
                  (counterValue r' (rewardKey "rpm" userId (minuteBucket now)))
                  (counterValue r' (rewardKey "rpd" userId (dayBucket now)))
                  (counterValue r' (rewardKey "tpm" userId (minuteBucket now)))
                  (counterValue r' (rewardKey "tpd" userId (dayBucket now)))))
         (Some (rewardLimits env))), r')
    /\ db r' !! key
       = Some (mkEntry (counterValue r key + amount) (peek r key ≫= expireAt))
    /\ counterValue r' key = counterValue r key + amount
    /\ (forall k, k <> key -> db r' !! k = db r !! k)
    /\ clock r' = clock r.
Proof.
  intros Htype Hok key.
  assert (incrementRewardQuota env now userId module rewardType amount r
          = (await redis_incrby key amount ;;
             u_rpm <~ await getCounter (rewardKey "rpm" userId (minuteBucket now)) ;;
             u_rpd <~ await getCounter (rewardKey "rpd" userId (dayBucket now)) ;;
             u_tpm <~ await getCounter (rewardKey "tpm" userId (minuteBucket now)) ;;
             u_tpd <~ await getCounter (rewardKey "tpd" userId (dayBucket now)) ;;
             ret (mkRewardResult true None
                    (Some (mkRewardQuotas u_rpm u_rpd u_tpm u_tpd))
                    (Some (rewardLimits env)))) r) as ->.
  { unfold incrementRewardQuota, key.
    destruct Htype as [[-> ->]|[-> ->]]; reflexivity. }
  unfold bind at 1. rewrite (redis_incrby_run key amount r 4 Hok).
  set (r1 := after _ r).
  assert (no_fault 4 (faults r1) = true) as Hok1 by (by apply no_fault_after).
  do 4 (erewrite bind_getCounter; [|no_fault_from Hok1]).
  repeat match goal with
    | |- context [counterValue (after ?d ?x) ?k] =>
        change (counterValue (after d x) k) with (counterValue x k)
    end.
  change (after _ (after _ (after _ (after _ r1)))) with (afterReads 4 r1).
  exists (afterReads 4 r1). unfold ret.
  assert (forall k, counterValue (afterReads 4 r1) k = counterValue r1 k) as Hcv.
  { intros k. apply counterValue_same; [apply db_afterReads|apply clock_afterReads]. }
  rewrite !Hcv. split; [done|]. rewrite db_afterReads, clock_afterReads.
  unfold r1, after. simpl. split; [by rewrite lookup_insert_eq|]. split.
  - rewrite counterValue_insert by apply live_kept. by rewrite decide_True.
  - split; [|done]. intros k Hk. by rewrite lookup_insert_ne.
Qed.

Lemma incrementRewardQuota_credits_witness :
  exists r',
    incrementRewardQuota defaultEnv newYear "u1" "pdf" "tokens" 500 freshRedis
    = (Resolved (mkRewardResult true None
         (Some (mkRewardQuotas
                  (counterValue r' (rewardKey "rpm" "u1" (minuteBucket newYear)))
                  (counterValue r' (rewardKey "rpd" "u1" (dayBucket newYear)))
                  (counterValue r' (rewardKey "tpm" "u1" (minuteBucket newYear)))
                  (counterValue r' (rewardKey "tpd" "u1" (dayBucket newYear)))))
         (Some (rewardLimits defaultEnv))), r')
    /\ db r' !! rewardKey "tpd" "u1" (dayBucket newYear) = Some (mkEntry 500 None).
Proof.
  destruct (incrementRewardQuota_credits defaultEnv newYear "u1" "pdf" "tokens"
              500 freshRedis "tpd") as (r' & Hrun & Hentry & _).
  - left. split; reflexivity.
  - reflexivity.
  - exists r'. split; [exact Hrun|exact Hentry].
Defined.

(** ** Model selection and the store *)

Lemma selectModel_store env today now userId preferredModel p :
  db (redis (selectModel env today now userId preferredModel p).2) = db (redis p)
  /\ clock (redis (selectModel env today now userId preferredModel p).2)
     = clock (redis p).
Proof.
  unfold selectModel.
  pose proof (getQuotaStatus_db env today userId (redis p)) as Hd.
  pose proof (keeps_clock_getQuotaStatus env today userId (redis p)) as Hc.
  destruct (getQuotaStatus env today userId (redis p)) as [[[u l]|e] r'];
    simpl in *; [|done].
  destruct (holdActive _ _); [done|].
  destruct (_ || _); [done|]. by destruct (_ && _).
Qed.

Lemma selectModel_throws env today now userId preferredModel p :
  no_fault 6 (faults (redis p)) = false ->
  (selectModel env today now userId preferredModel p).1 = Thrown connection_error
  /\ fallbackModeUntil (selectModel env today now userId preferredModel p).2
     = fallbackModeUntil p.
Proof.
  intros Hdown. unfold selectModel.
  pose proof (proj2 (spends_outcome 6 _ (redis p)
                       (spends_getQuotaStatus env today userId)) Hdown) as Hthrown.
  destruct (getQuotaStatus env today userId (redis p)) as [[[u l]|e] r'];
    simpl in *; [done|]. by injection Hthrown as ->.
Qed.

Lemma selectModel_models env today now userId preferredModel p m p' :
  selectModel env today now userId preferredModel p = (Resolved m, p') ->
  m = MODELS_fallback \/ m = orDefault preferredModel.
Proof.
  unfold selectModel.
  destruct (getQuotaStatus env today userId (redis p)) as [[[u l]|e] r'];
    [|done].
  destruct (holdActive _ _); [intros [= <- _]; by left|].
  destruct (_ || _); [intros [= <- _]; by left|].
  destruct (_ && _); intros [= <- _]; by right.
Qed.

(** X9. [selectModel] only reads the store: it changes no counter and does
    not move the clock.  If one of its six reads fails it throws the
    store's error and leaves the fallback deadline as it was.  When it
    resolves it returns the fallback model or the preferred one (the
    default when none is preferred), so that [getRecommendedModel] only
    ever recommends one of the two configured models. *)
Theorem selectModel_reads_only env today now userId preferredModel p :
  db (redis (selectModel env today now userId preferredModel p).2) = db (redis p)
  /\ clock (redis (selectModel env today now userId preferredModel p).2)
     = clock (redis p)
  /\ (no_fault 6 (faults (redis p)) = false ->
      (selectModel env today now userId preferredModel p).1
      = Thrown connection_error
      /\ fallbackModeUntil (selectModel env today now userId preferredModel p).2
         = fallbackModeUntil p)
  /\ (forall m, (selectModel env today now userId preferredModel p).1 = Resolved m ->
        m = MODELS_fallback \/ m = orDefault preferredModel)
  /\ (forall m, (getRecommendedModel env today now userId p).1 = Resolved m ->
        m = MODELS_fallback \/ m = MODELS_default).
Proof.
  destruct (selectModel_store env today now userId preferredModel p) as [Hd Hc].
  split; [done|]. split; [done|]. split; [apply selectModel_throws|]. split.
  - intros m Hm. apply (selectModel_models env today now userId preferredModel p m
                          (selectModel env today now userId preferredModel p).2).
    rewrite <-Hm. apply surjective_pairing.
  - intros m Hm. unfold getRecommendedModel in Hm.
    apply (selectModel_models env today now userId None p m
             (selectModel env today now userId None p).2).
    rewrite <-Hm. apply surjective_pairing.
Qed.

Lemma selectModel_reads_only_witness :
  (selectModel defaultEnv newYear 1000 "u1" None
     (mkProcess downAtThirdRead (Some 5000))).1 = Thrown connection_error
  /\ fallbackModeUntil
       (selectModel defaultEnv newYear 1000 "u1" None
          (mkProcess downAtThirdRead (Some 5000))).2 = Some 5000.
Proof.
  apply (proj1 (proj2 (proj2 (selectModel_reads_only defaultEnv newYear 1000 "u1"
                                None (mkProcess downAtThirdRead (Some 5000)))))).
  reflexivity.
Defined.

(** X10. The model selected does not depend on the identity: when the six
    reads reach the store, [selectModel] returns the same model and leaves
    the same process state for any two identities, whatever their own
    usage. *)
Theorem selectModel_ignores_identity
    env today now userId userId' preferredModel p :
  no_fault 6 (faults (redis p)) = true ->
  selectModel env today now userId preferredModel p
  = selectModel env today now userId' preferredModel p.
Proof.
  intros Hok. unfold selectModel.
  by rewrite !(getQuotaStatus_reaches _ _ _ _ Hok).
Qed.

Lemma selectModel_ignores_identity_witness :
  no_fault 6 (faults u2Redis) = true
  /\ selectModel defaultEnv newYear 1000 "u2" None (mkProcess u2Redis None)
     = selectModel defaultEnv newYear 1000 "u1" None (mkProcess u2Redis None).
Proof.
  split; [reflexivity|].
  apply (selectModel_ignores_identity defaultEnv newYear 1000 "u2" "u1" None
           (mkProcess u2Redis None)).
  reflexivity.
Defined.

(** ** Routing a request *)

Lemma routeModelRequest_unfold env groq when args p :
  routeModelRequest env groq when args p
  = try_catchP
      (limitCheck <~ awaitP onRedis (checkAndIncrementLimits env (admissionDate when)
                                       (argUserId args) (routedEstimate args)) ;;
       if negb (allowed limitCheck) then
         retP (Refused (reason limitCheck) (remainingQuota limitCheck))
       else
         modelToUse <~ awaitP selectModel env (selectionDate when)
                                (selectionNow when) (argUserId args)
                                (Some (default MODELS_default (argPreferredModel args))) ;;
         chatCompletion <~ awaitP create groq (chatRequestOf args modelToUse) ;;
         awaitP onRedis (recordActualTokenUsage (recordDate when) (argUserId args)
                           (billedTokens chatCompletion (routedEstimate args))) ;;
         retP (Served (default "" (messageContent chatCompletion)) modelToUse
                 (billedTokens chatCompletion (routedEstimate args))
                 (remainingQuota limitCheck)))
      (fun e => Failed (failureMessage e)) p.
Proof. reflexivity. Qed.

(** X11. When the admission check refuses, [routeModelRequest] answers
    with the reason of the check, which names the first failing dimension,
    and the quota remaining at the snapshot; no counter has changed, the
    fallback deadline is untouched, and the completion API plays no part
    in the answer. *)
Theorem routeModelRequest_refused env groq when args p res r1 :
  checkAndIncrementLimits env (admissionDate when) (argUserId args)
    (routedEstimate args) (redis p) = (Resolved res, r1) ->
  allowed res = false ->
  routeModelRequest env groq when args p
  = (Resolved (Refused (reason res) (remainingQuota res)),
     mkProcess r1 (fallbackModeUntil p))
  /\ db r1 = db (redis p)
  /\ (exists d,
        List.find (exceeded (ledgerLimits env)
                     (snapshot (redis p) (admissionDate when) (argUserId args))
                     (routedEstimate args)) precedence = Some d
        /\ reason res = Some (reasonOf d))
  /\ remainingQuota res
     = mkRemainingQuota
         (globalLimits_tpm
          - counterValue (redis p) (globalTpmKey (admissionDate when)))
         (globalLimits_tpd
          - counterValue (redis p) (globalTpdKey (admissionDate when)))
         (globalLimits_rpm
          - counterValue (redis p) (globalRpmKey (admissionDate when)))
         (globalLimits_rpd
          - counterValue (redis p) (globalRpdKey (admissionDate when)))
  /\ forall groq',
       routeModelRequest env groq' when args p
       = routeModelRequest env groq when args p.
Proof.
  intros Hrun Hno.
  destruct (resolved_report _ _ _ _ _ _ _ Hrun) as (Hlim & Hrefused & _).
  destruct (Hrefused Hno) as (Hd & _ & Husage & Hreason).
  assert (forall g, routeModelRequest env g when args p
                    = (Resolved (Refused (reason res) (remainingQuota res)),
                       mkProcess r1 (fallbackModeUntil p))) as Hroute.
  { intros g. rewrite routeModelRequest_unfold.
    unfold try_catchP, bindP, onRedis. rewrite Hrun. simpl. by rewrite Hno. }
  split; [apply Hroute|]. split; [done|]. split; [done|]. split.
  - unfold remainingQuota. by rewrite Hlim, Husage.
  - intros groq'. by rewrite !Hroute.
Qed.

Lemma routeModelRequest_refused_witness :
  routeModelRequest defaultEnv answering atNewYear
    (mkRouteArgs "u2" "hello" None (Some 100) None None None)
    (mkProcess u2Redis None)
  = (Resolved (Refused (Some "User tokens per day limit exceeded (Your App Quota)")
                 (mkRemainingQuota 6000 500000 30 14400)),
     mkProcess u2Redis None).
Proof.
  apply (proj1 (routeModelRequest_refused defaultEnv answering atNewYear
                  (mkRouteArgs "u2" "hello" None (Some 100) None None None)
                  (mkProcess u2Redis None)
                  (mkLimitCheck false (mkQuotas 0 0 0 0 0 19950)
                     (mkQuotas 30 14400 6000 500000 50 20000)
                     (Some "User tokens per day limit exceeded (Your App Quota)"))
                  u2Redis eq_refl eq_refl)).
Defined.

(** X12. A store failure during the admission check or during model
    selection ends the routed request in the object of the [catch], with
    the store's message; the completion API plays no part in the answer.
    After a failed selection the request counters raised by the admission
    stay raised. *)
Theorem routeModelRequest_store_failure env groq when args p :
  (forall e r1,
     checkAndIncrementLimits env (admissionDate when) (argUserId args)
       (routedEstimate args) (redis p) = (Thrown e, r1) ->
     routeModelRequest env groq when args p
     = (Resolved (Failed (failureMessage e)), mkProcess r1 (fallbackModeUntil p)))
  /\ (forall res r1 e p2,
        checkAndIncrementLimits env (admissionDate when) (argUserId args)
          (routedEstimate args) (redis p) = (Resolved res, r1) ->
        allowed res = true ->
        selectModel env (selectionDate when) (selectionNow when) (argUserId args)
          (Some (default MODELS_default (argPreferredModel args)))
          (mkProcess r1 (fallbackModeUntil p)) = (Thrown e, p2) ->
        routeModelRequest env groq when args p
        = (Resolved (Failed (failureMessage e)), p2)
        /\ counterValue (redis p2) (globalRpmKey (admissionDate when))
           = counterValue (redis p) (globalRpmKey (admissionDate when)) + 1
        /\ counterValue (redis p2) (globalRpdKey (admissionDate when))
           = counterValue (redis p) (globalRpdKey (admissionDate when)) + 1
        /\ counterValue (redis p2) (userRpdKey (argUserId args) (admissionDate when))
           = counterValue (redis p)
               (userRpdKey (argUserId args) (admissionDate when)) + 1).
Proof.
  split.
  - intros e r1 Hrun. rewrite routeModelRequest_unfold.
    unfold try_catchP, bindP, onRedis. by rewrite Hrun.
  - intros res r1 e p2 Hrun Hyes Hselect. split.
    + rewrite routeModelRequest_unfold.
      unfold try_catchP, bindP, onRedis. rewrite Hrun. simpl.
      rewrite Hyes. simpl. by rewrite Hselect.
    + destruct (allowed_effect _ _ _ _ _ _ _ Hrun Hyes)
        as (Hc & Hrpm & Hrpd & Hurpd & _).
      destruct (selectModel_store env (selectionDate when) (selectionNow when)
                  (argUserId args)
                  (Some (default MODELS_default (argPreferredModel args)))
                  (mkProcess r1 (fallbackModeUntil p))) as [Hd2 Hc2].
      rewrite Hselect in Hd2, Hc2. simpl in Hd2, Hc2.
      rewrite !(counterValue_same r1 (redis p2)) by done. done.
Qed.

Lemma routeModelRequest_store_failure_witness :
  routeModelRequest defaultEnv answering atNewYear summarise
    (mkProcess downAtThirdRead None)
  = (Resolved (Failed "Connection is closed."),
     mkProcess (mkRedis ∅ 1000 [false]) None).
Proof.
  apply (proj1 (routeModelRequest_store_failure defaultEnv answering atNewYear
                  summarise (mkProcess downAtThirdRead None))
           "Connection is closed." (mkRedis ∅ 1000 [false])).
  reflexivity.
Defined.

Lemma recordActualTokenUsage_resolves now userId actualTokensUsed r :
  exists res,
    (recordActualTokenUsage now userId actualTokensUsed r).1 = Resolved res
    /\ (no_fault 6 (faults r) = true -> success res = true).
Proof.
  pose proof (spends_outcome 6 _ r
                (spends_recordActualTokenUsage_body now userId actualTokensUsed))
    as [Hok _].
  unfold recordActualTokenUsage, try_catch.
  match goal with |- context [let (_, _) := ?body r in _] =>
    destruct (body r) as [[a|e] r'] eqn:Hbody end; simpl in *.
  - exists a. split; [done|]. intros _.
    do 6 (apply bind_Resolved in Hbody as (? & ? & _ & Hbody)).
    unfold ret in Hbody. by injection Hbody as <- _.
  - eexists. split; [done|]. intros H. by destruct (Hok H).
Qed.

(** The state of the store once a request has been admitted and a model
    selected for it. *)
Lemma admitted_and_selected env when args p res r1 o p2 :
  checkAndIncrementLimits env (admissionDate when) (argUserId args)
    (routedEstimate args) (redis p) = (Resolved res, r1) ->
  allowed res = true ->
  selectModel env (selectionDate when) (selectionNow when) (argUserId args)
    (Some (default MODELS_default (argPreferredModel args)))
    (mkProcess r1 (fallbackModeUntil p)) = (o, p2) ->
  clock (redis p2) = clock (redis p)
  /\ counterValue (redis p2) (globalRpmKey (admissionDate when))
     = counterValue (redis p) (globalRpmKey (admissionDate when)) + 1
  /\ counterValue (redis p2) (globalRpdKey (admissionDate when))
     = counterValue (redis p) (globalRpdKey (admissionDate when)) + 1
  /\ counterValue (redis p2) (userRpdKey (argUserId args) (admissionDate when))
     = counterValue (redis p) (userRpdKey (argUserId args) (admissionDate when)) + 1
  /\ (forall k, isTokenKey k -> db (redis p2) !! k = db (redis p) !! k).
Proof.
  intros Hrun Hyes Hselect.
  destruct (allowed_effect _ _ _ _ _ _ _ Hrun Hyes)
    as (Hc & Hrpm & Hrpd & Hurpd & _).
  destruct (selectModel_store env (selectionDate when) (selectionNow when)
              (argUserId args)
              (Some (default MODELS_default (argPreferredModel args)))
              (mkProcess r1 (fallbackModeUntil p))) as [Hd2 Hc2].
  rewrite Hselect in Hd2, Hc2. simpl in Hd2, Hc2.
  split; [congruence|].
  rewrite !(counterValue_same r1 (redis p2)) by done.
  do 3 (split; [done|]).
  intros k (now' & userId' & Hk). rewrite Hd2.
  pose proof (checkAndIncrementLimits_writes env (admissionDate when)
                (argUserId args) (routedEstimate args) (redis p) k) as Hw.
  rewrite Hrun in Hw. simpl in Hw. apply Hw.
  destruct (key_families_disjoint (admissionDate when) now' (argUserId args) userId')
    as (_ & _ & _ & ? & ? & ? & _).
  by destruct Hk as [->|[->| ->]].
Qed.

Lemma request_keys_not_token now userId now' userId' :
  ~ tokenKeys now' userId' (globalRpmKey now)
  /\ ~ tokenKeys now' userId' (globalRpdKey now)
  /\ ~ tokenKeys now' userId' (userRpdKey userId now).
Proof. unfold tokenKeys. repeat split; intros [?|[?|?]]; done. Qed.

(** X13. A request that is admitted, gets a model and gets a completion is
    served, whatever the availability of the store when the tokens are
    recorded: the answer carries the completion's text, the model selected,
    the total the API reported (the estimate when it reported none, or 0)
    and the quota remaining after the admission.  The three request
    counters are one above what they were before the request; and when the
    six commands of the record reach the store, the three token counters
    are above what they were by the tokens charged. *)
Theorem routeModelRequest_served env groq when args p res r1 m p2 completion :
  checkAndIncrementLimits env (admissionDate when) (argUserId args)
    (routedEstimate args) (redis p) = (Resolved res, r1) ->
  allowed res = true ->
  selectModel env (selectionDate when) (selectionNow when) (argUserId args)
    (Some (default MODELS_default (argPreferredModel args)))
    (mkProcess r1 (fallbackModeUntil p)) = (Resolved m, p2) ->
  groq (chatRequestOf args m) = Resolved completion ->
  let tokens := billedTokens completion (routedEstimate args) in
  exists p3,
    routeModelRequest env groq when args p
    = (Resolved (Served (default "" (messageContent completion)) m tokens
                   (remainingQuota res)), p3)
    /\ fallbackModeUntil p3 = fallbackModeUntil p2
    /\ counterValue (redis p3) (globalRpmKey (admissionDate when))
       = counterValue (redis p) (globalRpmKey (admissionDate when)) + 1
    /\ counterValue (redis p3) (globalRpdKey (admissionDate when))
       = counterValue (redis p) (globalRpdKey (admissionDate when)) + 1
    /\ counterValue (redis p3) (userRpdKey (argUserId args) (admissionDate when))
       = counterValue (redis p)
           (userRpdKey (argUserId args) (admissionDate when)) + 1
    /\ (no_fault 6 (faults (redis p2)) = true ->
        counterValue (redis p3) (globalTpmKey (recordDate when))
        = counterValue (redis p) (globalTpmKey (recordDate when)) + tokens
        /\ counterValue (redis p3) (globalTpdKey (recordDate when))
           = counterValue (redis p) (globalTpdKey (recordDate when)) + tokens
        /\ counterValue (redis p3) (userTpdKey (argUserId args) (recordDate when))
           = counterValue (redis p)
               (userTpdKey (argUserId args) (recordDate when)) + tokens).
Proof.
  intros Hrun Hyes Hselect Hgroq tokens.
  destruct (admitted_and_selected _ _ _ _ _ _ _ _ Hrun Hyes Hselect)
    as (Hc2 & Hrpm & Hrpd & Hurpd & Htok).
  destruct (recordActualTokenUsage_resolves (recordDate when) (argUserId args)
              tokens (redis p2)) as (rec & Hrec & Hsuccess).
  pose proof (recordActualTokenUsage_writes (recordDate when) (argUserId args)
                tokens (redis p2)) as Hw.
  pose proof (keeps_clock_recordActualTokenUsage (recordDate when)
                (argUserId args) tokens (redis p2)) as Hc3.
  destruct (recordActualTokenUsage (recordDate when) (argUserId args) tokens
              (redis p2)) as [o3 r3] eqn:Hrecord.
  simpl in *. subst o3.
  exists (mkProcess r3 (fallbackModeUntil p2)). split.
  { rewrite routeModelRequest_unfold.
    unfold try_catchP, bindP, onRedis. rewrite Hrun. simpl. rewrite Hyes. simpl.
    rewrite Hselect. unfold create. rewrite Hgroq. fold tokens.
    by rewrite Hrecord. }
  split; [done|]. simpl.
  destruct (request_keys_not_token (admissionDate when) (argUserId args)
              (recordDate when) (argUserId args)) as (Hn1 & Hn2 & Hn3).
  rewrite (counterValue_other (redis p2) r3) by auto.
  rewrite (counterValue_other (redis p2) r3 (globalRpdKey _)) by auto.
  rewrite (counterValue_other (redis p2) r3 (userRpdKey _ _)) by auto.
  do 3 (split; [done|]).
  intros Hok.
  destruct (recorded_effect _ _ _ _ _ _ Hrecord (Hsuccess Hok))
    as (Htpm & Htpd & Hutpd).
  rewrite Htpm, Htpd, Hutpd.
  rewrite !(counterValue_other (redis p) (redis p2));
    try done; apply Htok; exists (recordDate when), (argUserId args);
    unfold tokenKeys; tauto.
Qed.

Lemma routeModelRequest_served_witness :
  exists p3,
    routeModelRequest defaultEnv answering atNewYear summarise
      (mkProcess freshRedis None)
    = (Resolved (Served "A short summary." "llama-3.1-8b-instant" 87
                   (mkRemainingQuota 6000 500000 29 14399)), p3)
    /\ counterValue (redis p3) (userRpdKey "u1" newYear) = 1
    /\ counterValue (redis p3) (userTpdKey "u1" newYear) = 87.
Proof.
  destruct (routeModelRequest_served defaultEnv answering atNewYear summarise
              (mkProcess freshRedis None)
              (mkLimitCheck true (mkQuotas 1 1 0 0 1 0)
                 (mkQuotas 30 14400 6000 500000 50 20000) None)
              (checkAndIncrementLimits defaultEnv newYear "u1"
                 (routedEstimate summarise) freshRedis).2
              "llama-3.1-8b-instant"
              (selectModel defaultEnv newYear 1000 "u1" (Some MODELS_default)
                 (mkProcess
                    (checkAndIncrementLimits defaultEnv newYear "u1"
                       (routedEstimate summarise) freshRedis).2 None)).2
              (mkChatCompletion (Some "A short summary.") (Some 87)))
    as (p3 & Hroute & _ & _ & _ & Hurpd & Htokens).
  - vm_compute. reflexivity.
  - reflexivity.
  - vm_compute. reflexivity.
  - reflexivity.
  - exists p3. split; [exact Hroute|]. split; [exact Hurpd|].
    apply Htokens. vm_compute. reflexivity.
Defined.

(** X14. When the completion API fails after the admission, the routed
    request ends in the object of the [catch] with the API's message
    ([AI request failed] when it has none); the request counters raised by
    the admission stay raised, and no token counter has changed. *)
Theorem routeModelRequest_downstream_failure env groq when args p res r1 m p2 e :
  checkAndIncrementLimits env (admissionDate when) (argUserId args)
    (routedEstimate args) (redis p) = (Resolved res, r1) ->
  allowed res = true ->
  selectModel env (selectionDate when) (selectionNow when) (argUserId args)
    (Some (default MODELS_default (argPreferredModel args)))
    (mkProcess r1 (fallbackModeUntil p)) = (Resolved m, p2) ->
  groq (chatRequestOf args m) = Thrown e ->
  routeModelRequest env groq when args p
  = (Resolved (Failed (failureMessage e)), p2)
  /\ counterValue (redis p2) (globalRpmKey (admissionDate when))
     = counterValue (redis p) (globalRpmKey (admissionDate when)) + 1
  /\ counterValue (redis p2) (globalRpdKey (admissionDate when))
     = counterValue (redis p) (globalRpdKey (admissionDate when)) + 1
  /\ counterValue (redis p2) (userRpdKey (argUserId args) (admissionDate when))
     = counterValue (redis p) (userRpdKey (argUserId args) (admissionDate when)) + 1
  /\ (forall k, isTokenKey k -> db (redis p2) !! k = db (redis p) !! k).
Proof.
  intros Hrun Hyes Hselect Hgroq.
  destruct (admitted_and_selected _ _ _ _ _ _ _ _ Hrun Hyes Hselect)
    as (Hc2 & Hrpm & Hrpd & Hurpd & Htok).
  split; [|done].
  rewrite routeModelRequest_unfold.
  unfold try_catchP, bindP, onRedis. rewrite Hrun. simpl. rewrite Hyes. simpl.
  rewrite Hselect. unfold create. by rewrite Hgroq.
Qed.

Lemma routeModelRequest_downstream_failure_witness :
  routeModelRequest defaultEnv unreachable atNewYear summarise
    (mkProcess freshRedis None)
  = (Resolved (Failed "Connection error."),
     (selectModel defaultEnv newYear 1000 "u1" (Some MODELS_default)
        (mkProcess
           (checkAndIncrementLimits defaultEnv newYear "u1"
              (routedEstimate summarise) freshRedis).2 None)).2)
  /\ counterValue
       (redis (selectModel defaultEnv newYear 1000 "u1" (Some MODELS_default)
                 (mkProcess
                    (checkAndIncrementLimits defaultEnv newYear "u1"
                       (routedEstimate summarise) freshRedis).2 None)).2)
       (globalRpmKey newYear)
     = counterValue freshRedis (globalRpmKey newYear) + 1.
Proof.
  destruct (routeModelRequest_downstream_failure defaultEnv unreachable atNewYear
              summarise (mkProcess freshRedis None)
              (mkLimitCheck true (mkQuotas 1 1 0 0 1 0)
                 (mkQuotas 30 14400 6000 500000 50 20000) None)
              (checkAndIncrementLimits defaultEnv newYear "u1"
                 (routedEstimate summarise) freshRedis).2
              "llama-3.1-8b-instant"
              (selectModel defaultEnv newYear 1000 "u1" (Some MODELS_default)
                 (mkProcess
                    (checkAndIncrementLimits defaultEnv newYear "u1"
                       (routedEstimate summarise) freshRedis).2 None)).2
              "Connection error.")
    as (Hroute & Hrpm & _).
  - vm_compute. reflexivity.
  - reflexivity.
  - vm_compute. reflexivity.
  - reflexivity.
  - split; [exact Hroute|exact Hrpm].
Defined.

(** ** The routes *)

Lemma routeModelRequest_resolves env groq when args p :
  exists result,
    (routeModelRequest env groq when args p).1 = Resolved result.
Proof.
  rewrite routeModelRequest_unfold. unfold try_catchP.
  match goal with |- context [let (_, _) := ?body p in _] =>
    destruct (body p) as [[a|e] p'] end; eauto.
Qed.

(** X15. POST /api/routeModel answers 400, and touches nothing, when
    [userId] or [prompt] is missing or empty.  Otherwise it answers with
    the result of [routeModelRequest], under status 200 when the request
    was served and 429 in every other case, a store or completion API
    failure included: the handler never answers 500. *)
Theorem postRouteModel_status env groq when body p :
  (truthyString (reqUserId body) && truthyString (reqPrompt body) = false ->
   postRouteModel env groq when body p
   = (Resolved (RouteErrorJson 400 "Missing required fields: userId and prompt"), p))
  /\ (forall userId prompt,
        reqUserId body = Some userId -> reqPrompt body = Some prompt ->
        userId <> "" -> prompt <> "" ->
        exists result,
          (routeModelRequest env groq when
             (mkRouteArgs userId prompt (reqSystemPrompt body)
                (Some (orNumber (reqMaxTokens body) 1000))
                (Some (orFraction (reqTemperature body) (7 # 10)))
                (Some (orString (reqTaskType body) "general"))
                (reqPreferredModel body)) p).1 = Resolved result
          /\ (postRouteModel env groq when body p).1
             = Resolved (RouteJson (if routeSuccess result then 200 else 429) result)
          /\ (postRouteModel env groq when body p).2
             = (routeModelRequest env groq when
                  (mkRouteArgs userId prompt (reqSystemPrompt body)
                     (Some (orNumber (reqMaxTokens body) 1000))
                     (Some (orFraction (reqTemperature body) (7 # 10)))
                     (Some (orString (reqTaskType body) "general"))
                     (reqPreferredModel body)) p).2)
  /\ routeModelStatus
       (match (postRouteModel env groq when body p).1 with
        | Resolved response => response
        | Thrown _ => RouteErrorJson 500 ""
        end) <> 500.
Proof.
  assert (forall userId prompt,
            reqUserId body = Some userId -> reqPrompt body = Some prompt ->
            userId <> "" -> prompt <> "" ->
            exists result,
              (routeModelRequest env groq when
                 (mkRouteArgs userId prompt (reqSystemPrompt body)
                    (Some (orNumber (reqMaxTokens body) 1000))
                    (Some (orFraction (reqTemperature body) (7 # 10)))
                    (Some (orString (reqTaskType body) "general"))
                    (reqPreferredModel body)) p).1 = Resolved result
              /\ (postRouteModel env groq when body p).1
                 = Resolved (RouteJson (if routeSuccess result then 200 else 429)
                               result)
              /\ (postRouteModel env groq when body p).2
                 = (routeModelRequest env groq when
                      (mkRouteArgs userId prompt (reqSystemPrompt body)
                         (Some (orNumber (reqMaxTokens body) 1000))
                         (Some (orFraction (reqTemperature body) (7 # 10)))
                         (Some (orString (reqTaskType body) "general"))
                         (reqPreferredModel body)) p).2) as Hserved.
  { intros userId prompt Hu Hp Hune Hpne.
    destruct (routeModelRequest_resolves env groq when
                (mkRouteArgs userId prompt (reqSystemPrompt body)
                   (Some (orNumber (reqMaxTokens body) 1000))
                   (Some (orFraction (reqTemperature body) (7 # 10)))
                   (Some (orString (reqTaskType body) "general"))
                   (reqPreferredModel body)) p) as (result & Hresult).
    exists result. split; [done|].
    unfold postRouteModel, try_catchP, bindP. rewrite Hu, Hp. simpl.
    rewrite !bool_decide_eq_false_2 by done. simpl.
    destruct (routeModelRequest _ _ _ _ _) as [o p']. simpl in *. subst o.
    by destruct (routeSuccess result). }
  assert (truthyString (reqUserId body) && truthyString (reqPrompt body) = false ->
          postRouteModel env groq when body p
          = (Resolved (RouteErrorJson 400
                         "Missing required fields: userId and prompt"), p))
    as Hmissing.
  { intros Hfalsy. unfold postRouteModel, try_catchP.
    destruct (reqUserId body) as [userId|], (reqPrompt body) as [prompt|];
      simpl in *; try done.
    rewrite <-negb_andb, Hfalsy. done. }
  split; [done|]. split; [done|].
  destruct (truthyString (reqUserId body) && truthyString (reqPrompt body))
    eqn:Htruthy.
  - apply andb_true_iff in Htruthy as [Hu Hp].
    destruct (reqUserId body) as [userId|] eqn:Hue; [|done].
    destruct (reqPrompt body) as [prompt|] eqn:Hpe; [|done].
    simpl in Hu, Hp. apply negb_true_iff, bool_decide_eq_false in Hu, Hp.
    destruct (Hserved userId prompt eq_refl eq_refl Hu Hp)
      as (result & _ & -> & _).
    simpl. by destruct (routeSuccess result).
  - by rewrite (Hmissing eq_refl).
Qed.

Lemma postRouteModel_status_witness :
  (postRouteModel defaultEnv answering atNewYear
     (mkRouteModelBody (Some "u1") (Some "") None None None None None)
     (mkProcess freshRedis None)
   = (Resolved (RouteErrorJson 400 "Missing required fields: userId and prompt"),
      mkProcess freshRedis None))
  /\ exists result,
       (postRouteModel defaultEnv unreachable atNewYear
          (mkRouteModelBody (Some "u1") (Some "hello") None (Some 0) None None None)
          (mkProcess freshRedis None)).1
       = Resolved (RouteJson (if routeSuccess result then 200 else 429) result).
Proof.
  split.
  - apply (proj1 (postRouteModel_status defaultEnv answering atNewYear
                    (mkRouteModelBody (Some "u1") (Some "") None None None None None)
                    (mkProcess freshRedis None))).
    reflexivity.
  - destruct (proj1 (proj2 (postRouteModel_status defaultEnv unreachable atNewYear
                    (mkRouteModelBody (Some "u1") (Some "hello") None (Some 0)
                       None None None)
                    (mkProcess freshRedis None))) "u1" "hello" eq_refl eq_refl)
      as (result & _ & Hpost & _); [done|done|].
    exists result. exact Hpost.
Defined.

Example outage_is_answered_429 :
  (postRouteModel defaultEnv answering atNewYear
     (mkRouteModelBody (Some "u1") (Some "hello") None None None None None)
     (mkProcess (mkRedis ∅ 1000 [true]) None)).1
  = Resolved (RouteJson 429 (Failed "Connection is closed.")).
Proof. vm_compute. reflexivity. Qed.

Lemma incrementRewardQuota_valid env now userId module rewardType amount dimension :
  (rewardType = "tokens" /\ dimension = "tpd")
  \/ (rewardType = "requests" /\ dimension = "rpd") ->
  incrementRewardQuota env now userId module rewardType amount
  = creditAndRead env now userId (rewardKey dimension userId (dayBucket now)) amount.
Proof. intros [[-> ->]|[-> ->]]; reflexivity. Qed.

Lemma spends_creditAndRead env now userId key amount :
  spends 5 (creditAndRead env now userId key amount).
Proof.
  unfold creditAndRead.
  apply (spends_bind 1); [apply spends_command|intros ?].
  do 4 (apply (spends_bind 1); [apply spends_getCounter|intros ?]).
  apply spends_ret.
Qed.

Lemma creditAndRead_success env now userId key amount r res r' :
  creditAndRead env now userId key amount r = (Resolved res, r') ->
  reward_success res = true.
Proof.
  unfold creditAndRead. intros H.
  do 5 (apply bind_Resolved in H as (? & ? & _ & H)).
  unfold ret in H. by injection H as <- _.
Qed.

(** Once the credit has reached the store it stays, whatever happens to
    the reads that follow. *)
Lemma creditAndRead_credited env now userId key amount r :
  no_fault 1 (faults r) = true ->
  counterValue (creditAndRead env now userId key amount r).2 key
  = counterValue r key + amount.
Proof.
  intros Hok. unfold creditAndRead. unfold bind at 1.
  rewrite (redis_incrby_run key amount r 0 Hok).
  set (r1 := after _ r).
  set (reads := bind _ _).
  assert (counterValue r1 key = counterValue r key + amount) as <-.
  { unfold r1, after. rewrite counterValue_insert by apply live_kept.
    by rewrite decide_True. }
  apply counterValue_same.
  - apply map_eq. intros k.
    apply (writes_within_bind (fun _ => False));
      [apply writes_within_getCounter|intros ?|tauto].
    do 3 (apply writes_within_bind; [apply writes_within_getCounter|intros ?]).
    apply writes_within_ret.
  - unfold reads. apply keeps_clock_bind; [apply keeps_clock_getCounter|intros ?].
    do 3 (apply keeps_clock_bind; [apply keeps_clock_getCounter|intros ?]).
    apply keeps_clock_ret.
Qed.

(** X16. POST /api/reward.  A request with a field missing or empty, or
    with an amount of 0, is answered 400 and nothing is sent to the store;
    so is a request whose reward type is neither [tokens] nor [requests].
    A valid request is answered 200 with [success: true] when its five
    commands reach the store and 500 when one of them fails; in the second
    case, if the first command did reach the store, the counter has been
    credited all the same. *)
Theorem postReward_status env now body r :
  (rewardFieldsPresent body = false ->
   postReward env now body r = (Resolved (RewardErrorJson 400 missingRewardFields), r))
  /\ (forall userId module rewardType amount,
        body = mkRewardBody (Some userId) (Some module) (Some rewardType) (Some amount) ->
        rewardFieldsPresent body = true ->
        (rewardType <> "tokens" -> rewardType <> "requests" ->
         postReward env now body r
         = (Resolved (RewardJson 400
                        (mkRewardResult false (Some "Invalid rewardType") None None)),
            r))
        /\ (forall dimension,
              (rewardType = "tokens" /\ dimension = "tpd")
              \/ (rewardType = "requests" /\ dimension = "rpd") ->
              (no_fault 5 (faults r) = true ->
               exists result,
                 (postReward env now body r).1 = Resolved (RewardJson 200 result)
                 /\ reward_success result = true)
              /\ (no_fault 5 (faults r) = false ->
                  (postReward env now body r).1
                  = Resolved (RewardErrorJson 500 "Internal server error"))
              /\ (no_fault 1 (faults r) = true ->
                  counterValue (postReward env now body r).2
                    (rewardKey dimension userId (dayBucket now))
                  = counterValue r (rewardKey dimension userId (dayBucket now))
                    + amount))).
Proof.
  split.
  - intros Hmissing. unfold postReward, try_catch, rewardFieldsPresent in *.
    destruct (bodyUserId body) as [userId|], (bodyModule body) as [module|],
             (bodyRewardType body) as [rewardType|], (bodyAmount body) as [amount|];
      simpl in *; rewrite ?andb_false_r in *; try done.
    rewrite <-!negb_andb, Hmissing. done.
  - intros userId module rewardType amount -> Hpresent.
    unfold postReward, try_catch, rewardFieldsPresent in *. simpl in *.
    rewrite <-!negb_andb, Hpresent. simpl. split.
    + intros Ht Hr. unfold bind, incrementRewardQuota.
      rewrite !bool_decide_eq_false_2 by done. done.
    + intros dimension Htype.
      rewrite (incrementRewardQuota_valid _ _ _ _ _ _ _ Htype).
      pose proof (spends_outcome 5 _ r
                    (spends_creditAndRead env now userId
                       (rewardKey dimension userId (dayBucket now)) amount))
        as [Hup Hdown].
      pose proof (creditAndRead_credited env now userId
                    (rewardKey dimension userId (dayBucket now)) amount r)
        as Hcredited.
      pose proof (creditAndRead_success env now userId
                    (rewardKey dimension userId (dayBucket now)) amount r)
        as Hsuccess.
      unfold bind.
      destruct (creditAndRead env now userId
                  (rewardKey dimension userId (dayBucket now)) amount r)
        as [[result|e] r'] eqn:Hrun; simpl in *.
      * specialize (Hsuccess result r' eq_refl). rewrite Hsuccess. simpl.
        split; [intros _; by exists result|]. split; [|done].
        intros Hno. by specialize (Hdown Hno).
      * split; [|by split]. intros Hok. by destruct (Hup Hok).
Qed.

Lemma postReward_status_witness :
  postReward defaultEnv newYear
    (mkRewardBody (Some "u1") (Some "pdf") (Some "tokens") (Some 0)) freshRedis
  = (Resolved (RewardErrorJson 400 missingRewardFields), freshRedis)
  /\ (postReward defaultEnv newYear
        (mkRewardBody (Some "u1") (Some "pdf") (Some "tokens") (Some 500))
        (mkRedis ∅ 1000 [false; true])).1
     = Resolved (RewardErrorJson 500 "Internal server error")
  /\ counterValue
       (postReward defaultEnv newYear
          (mkRewardBody (Some "u1") (Some "pdf") (Some "tokens") (Some 500))
          (mkRedis ∅ 1000 [false; true])).2
       (rewardKey "tpd" "u1" (dayBucket newYear))
     = counterValue (mkRedis ∅ 1000 [false; true])
         (rewardKey "tpd" "u1" (dayBucket newYear)) + 500.
Proof.
  split.
  - apply (proj1 (postReward_status defaultEnv newYear
                    (mkRewardBody (Some "u1") (Some "pdf") (Some "tokens") (Some 0))
                    freshRedis)).
    reflexivity.
  - destruct (proj2 (proj2 (postReward_status defaultEnv newYear
                    (mkRewardBody (Some "u1") (Some "pdf") (Some "tokens") (Some 500))
                    (mkRedis ∅ 1000 [false; true]))
                 "u1" "pdf" "tokens" 500 eq_refl eq_refl) "tpd")
      as (_ & Hdown & Hcredited).
    + left. split; reflexivity.
    + split; [apply Hdown; reflexivity|apply Hcredited; reflexivity].
Defined.

(** ** The status route *)

(** X17. GET /api/quotaStatus/:userId changes no counter.  When its six
    reads reach the store it answers 200 with, for each of the six
    dimensions, the usage read, the limit and their difference; it answers
    500 otherwise.  When it recommends the fallback model and the trip
    threshold is at most 0.70, [selectModel] on the same store returns the
    fallback model too, whatever the fallback deadline. *)
Theorem getQuotaStatusRoute_reports env now userId r :
  db (getQuotaStatusRoute env now userId r).2 = db r
  /\ (no_fault 6 (faults r) = false ->
      (getQuotaStatusRoute env now userId r).1
      = Resolved (QuotaErrorJson 500 "Failed to get quota status"))
  /\ (no_fault 6 (faults r) = true ->
      exists recommended,
        (getQuotaStatusRoute env now userId r).1
        = Resolved (QuotaJson 200
            (mkQuotaStatusJson userId
               (quotaLine (counterValue r (globalRpmKey now)) globalLimits_rpm)
               (quotaLine (counterValue r (globalRpdKey now)) globalLimits_rpd)
               (quotaLine (counterValue r (globalTpmKey now)) globalLimits_tpm)
               (quotaLine (counterValue r (globalTpdKey now)) globalLimits_tpd)
               (quotaLine (counterValue r (userRpdKey userId now))
                          (userLimits_rpd env))
               (quotaLine (counterValue r (userTpdKey userId now))
                          (userLimits_tpd env))
               recommended))
        /\ (recommended = "compound-mini" \/ recommended = "llama-3.1-8b-instant")
        /\ (recommended = "compound-mini" <-> (7 # 10 < tpdPercent r now)%Q)
        /\ ((FALLBACK_THRESHOLD env <= 7 # 10)%Q ->
            recommended = "compound-mini" ->
            forall clockNow preferredModel until,
              (selectModel env now clockNow userId preferredModel
                 (mkProcess r until)).1 = Resolved MODELS_fallback)).
Proof.
  split; [|split].
  - unfold getQuotaStatusRoute, try_catch, bind.
    pose proof (getQuotaStatus_db env now userId r) as Hd.
    destruct (getQuotaStatus env now userId r) as [[[u l]|e] r']; simpl in *; done.
  - intros Hdown. unfold getQuotaStatusRoute, try_catch, bind.
    pose proof (proj2 (spends_outcome 6 _ r (spends_getQuotaStatus env now userId))
                  Hdown) as Hthrown.
    by destruct (getQuotaStatus env now userId r) as [[[u l]|e] r'].
  - intros Hok. unfold getQuotaStatusRoute, try_catch, bind.
    rewrite (getQuotaStatus_reaches _ _ _ _ Hok). simpl.
    fold (tpdPercent r now).
    eexists. split; [reflexivity|].
    destruct (Qltb (7 # 10) (tpdPercent r now)) eqn:Hrec.
    + split; [by left|]. split; [by rewrite <-Qltb_lt|].
      intros Hthreshold _ clockNow preferredModel until.
      unfold selectModel. rewrite (getQuotaStatus_reaches _ _ _ _ Hok). simpl.
      destruct (holdActive until clockNow); [done|].
      fold (tpdPercent r now).
      assert (Qltb (FALLBACK_THRESHOLD env) (tpdPercent r now) = true) as ->; [|done].
      apply Qltb_lt. apply Qltb_lt in Hrec. by eapply Qle_lt_trans.
    + split; [by right|]. split; [|done].
      split; [done|]. intros H. apply Qltb_lt in H. congruence.
Qed.

Lemma getQuotaStatusRoute_reports_witness :
  (getQuotaStatusRoute defaultEnv newYear "u1" downAtThirdRead).1
  = Resolved (QuotaErrorJson 500 "Failed to get quota status").
Proof.
  apply (proj1 (proj2 (getQuotaStatusRoute_reports defaultEnv newYear "u1"
                         downAtThirdRead))).
  reflexivity.
Defined.

(** The status route looks at the tokens of the day only: with 22 of the 30
    requests of the minute used it recommends the primary model, while
    [selectModel] returns the fallback model. *)
Example recommendation_differs :
  (exists body,
     (getQuotaStatusRoute defaultEnv newYear "u1" rushHour).1
     = Resolved (QuotaJson 200 body)
     /\ recommendedModel body = "llama-3.1-8b-instant")
  /\ (selectModel defaultEnv newYear 1000 "u1" None (mkProcess rushHour None)).1
     = Resolved "compound-mini".
Proof. split; [eexists; split|]; vm_compute; reflexivity. Qed.

(** ** Resetting the quota of an identity *)

Lemma string_app_assoc (a b c : string) : (a +:+ b) +:+ c = a +:+ (b +:+ c).
Proof.
  induction a as [|x a IH]; [done|].
  change (String x ((a +:+ b) +:+ c) = String x (a +:+ b +:+ c)).
  by rewrite IH.
Qed.

Lemma startsWith_iff p s : startsWith p s = true <-> exists t, s = p +:+ t.
Proof.
  revert s. induction p as [|a p IH]; intros s; simpl.
  - split; [by exists s|done].
  - destruct s as [|b s]; simpl.
    + split; [done|]. by intros (t & ?).
    + rewrite andb_true_iff, bool_decide_eq_true, IH. split.
      * intros (-> & t & ->). by exists t.
      * intros (t & Ht). injection Ht as -> ->. split; [done|]. by exists t.
Qed.

Lemma occurs_iff needle s :
  occurs needle s = true <-> exists before behind, s = before +:+ needle +:+ behind.
Proof.
  induction s as [|c s IH]; simpl.
  - rewrite orb_false_r, startsWith_iff. split.
    + intros (t & Ht). by exists "", t.
    + intros (before & behind & H). destruct before; [by exists behind|done].
  - rewrite orb_true_iff, startsWith_iff, IH. split.
    + intros [(t & Ht)|(before & behind & ->)].
      * by exists "", t.
      * by exists (String c before), behind.
    + intros (before & behind & H). destruct before as [|x before]; simpl in H.
      * left. by exists behind.
      * right. injection H as -> ->. by exists before, behind.
Qed.

Lemma globFree_app a b : globFree (a +:+ b) = globFree a && globFree b.
Proof.
  induction a as [|c a IH]; simpl; [done|]. by rewrite IH, !andb_assoc.
Qed.

Lemma globFree_identityMark userId :
  globFree userId = true -> globFree (identityMark userId) = true.
Proof.
  intros H. unfold identityMark.
  change (":" +:+ userId +:+ ":") with (String ":" (userId +:+ ":")).
  simpl. by rewrite globFree_app, H.
Qed.

Lemma reset_pattern userId :
  "*:" +:+ userId +:+ ":*" = "*" +:+ identityMark userId +:+ "*".
Proof.
  unfold identityMark.
  change (String "*" (String ":" (userId +:+ ":*"))
          = String "*" (String ":" ((userId +:+ ":") +:+ "*"))).
  by rewrite string_app_assoc.
Qed.

Lemma matches_reset_pattern matches userId key :
  globLike matches -> globFree userId = true ->
  matches ("*:" +:+ userId +:+ ":*") key = occurs (identityMark userId) key.
Proof.
  intros Hglob Hfree. rewrite reset_pattern.
  by apply Hglob, globFree_identityMark.
Qed.

Lemma lookup_foldr_delete (d : gmap string Entry) keys key :
  foldr delete d keys !! key = if decide (key ∈ keys) then None else d !! key.
Proof.
  induction keys as [|k keys IH].
  - destruct (decide (key ∈ [])) as [Hin|Hin]; [|done].
    by apply elem_of_nil in Hin.
  - change (foldr delete d (k :: keys)) with (delete k (foldr delete d keys)).
    destruct (decide (key = k)) as [->|Hne].
    + rewrite lookup_delete_eq.
      destruct (decide (k ∈ k :: keys)) as [Hin|Hin]; [done|].
      exfalso. apply Hin. by left.
    + rewrite lookup_delete_ne by done. rewrite IH.
      destruct (decide (key ∈ keys)) as [Hin|Hin];
        destruct (decide (key ∈ k :: keys)) as [Hin'|Hin']; try done.
      * exfalso. apply Hin'. by right.
      * apply elem_of_cons in Hin' as [?|?]; done.
Qed.

(** What KEYS answers with. *)
Lemma keys_answer r (wanted : string -> bool) key :
  key ∈ List.filter
          (fun key => match peek r key with
                      | Some _ => wanted key
                      | None => false
                      end)
          (map_to_list (db r)).*1
  <-> is_Some (peek r key) /\ wanted key = true.
Proof.
  rewrite list_elem_of_In, filter_In, <-list_elem_of_In.
  rewrite list_elem_of_fmap. split.
  - intros [_ H]. destruct (peek r key); [|done]. by split; [eexists|].
  - intros [[e He] Hw]. rewrite He. split; [|done].
    unfold peek in He. destruct (db r !! key) as [e'|] eqn:Hdb; [|done].
    exists (key, e'). split; [done|]. by apply elem_of_map_to_list.
Qed.

Lemma keys_answer_NoDup r (wanted : string -> bool) :
  NoDup (List.filter
           (fun key => match peek r key with
                       | Some _ => wanted key
                       | None => false
                       end)
           (map_to_list (db r)).*1).
Proof.
  apply NoDup_ListNoDup, List.NoDup_filter, NoDup_ListNoDup,
    NoDup_fst_map_to_list.
Qed.

(** Every run of the handler, whatever the faults. *)
Lemma resetQuota_run matches userId r :
  exists keys,
    NoDup keys
    /\ (forall key, key ∈ keys
          <-> is_Some (peek r key)
              /\ matches ("*:" +:+ userId +:+ ":*") key = true)
    /\ clock (resetQuota matches userId r).2 = clock r
    /\ ((resetQuota matches userId r).1
          = Resolved (ResetJson 200
              ("Reset " +:+ pretty (length keys) +:+ " quota keys for user "
               +:+ userId) keys)
        \/ (resetQuota matches userId r).1
          = Resolved (ResetErrorJson 500 "Failed to reset quota"))
    /\ (db (resetQuota matches userId r).2 = db r
        \/ db (resetQuota matches userId r).2 = foldr delete (db r) keys)
    /\ (no_fault 2 (faults r) = true ->
        db (resetQuota matches userId r).2 = foldr delete (db r) keys)
    /\ (no_fault 3 (faults r) = true ->
        (resetQuota matches userId r).1
          = Resolved (ResetJson 200
              ("Reset " +:+ pretty (length keys) +:+ " quota keys for user "
               +:+ userId) keys))
    /\ (head (faults r) = Some true ->
        (resetQuota matches userId r).1
          = Resolved (ResetErrorJson 500 "Failed to reset quota")
        /\ db (resetQuota matches userId r).2 = db r)
    /\ (forall rest, faults r = false :: false :: true :: rest ->
        keys <> [] ->
        (resetQuota matches userId r).1
          = Resolved (ResetErrorJson 500 "Failed to reset quota")).
Proof.
  eexists. split; [apply (keys_answer_NoDup r)|].
  split; [apply keys_answer|].
  unfold resetQuota, try_catch, bind, redis_keys, redis_del, redis_quit,
    command, ret.
  set (keys := List.filter _ _).
  assert (~ (0 < length keys)%nat -> foldr delete (db r) keys = db r) as Hnone.
  { intros Hlen. destruct keys; [done|simpl in Hlen; lia]. }
  assert ((0 < length keys)%nat -> keys <> []) as Hsome.
  { intros Hlen ->. simpl in Hlen. lia. }
  destruct (faults r) as [|[] [|[] [|[] fl]]]; simpl;
    try case_bool_decide; simpl; rewrite ?Hnone by done;
    repeat split; auto; try (intros; discriminate);
    try (intros rest Hrest Hkeys; simplify_eq; done).
  intros rest Hrest Hkeys. destruct keys; [done|simpl in *; lia].
Qed.

(** *** Where the mark of an identity occurs *)

Lemma segmentsFrom_app_colon acc a b :
  segmentsFrom acc (a +:+ String ":" b) = segmentsFrom acc a ++ segments b.
Proof.
  revert acc. induction a as [|c a IH]; intros acc; [done|].
  change (String c a +:+ String ":" b) with (String c (a +:+ String ":" b)).
  simpl. case_bool_decide; [|apply IH].
  by rewrite IH.
Qed.

Lemma segmentsFrom_nonempty acc s : segmentsFrom acc s <> [].
Proof.
  revert acc. induction s as [|c s IH]; intros acc; simpl; [done|].
  case_bool_decide; [done|apply IH].
Qed.

(** The identity is a segment of the key that is neither the first nor the
    last one. *)
Lemma marked_segments userId key :
  colonFree userId = true ->
  occurs (identityMark userId) key = true ->
  exists before behind,
    before <> [] /\ behind <> []
    /\ segments key = before ++ userId :: behind.
Proof.
  intros Hfree (before & behind & ->)%occurs_iff.
  exists (segments before), (segments behind).
  split; [apply segmentsFrom_nonempty|]. split; [apply segmentsFrom_nonempty|].
  unfold identityMark.
  change ((":" +:+ userId +:+ ":") +:+ behind)
    with (String ":" ((userId +:+ ":") +:+ behind)).
  unfold segments at 1. rewrite segmentsFrom_app_colon. f_equal.
  rewrite string_app_assoc. by apply segments_colon.
Qed.

Lemma middle_of_three userId (before behind : list string) a b c :
  before <> [] -> behind <> [] ->
  [a; b; c] = before ++ userId :: behind -> userId = b.
Proof.
  intros Hb Hh H.
  destruct before as [|x [|y [|z before]]]; simplify_eq/=; try done.
  destruct before; simplify_eq/=.
Qed.

Lemma middle_of_four userId (before behind : list string) a b c d :
  before <> [] -> behind <> [] ->
  [a; b; c; d] = before ++ userId :: behind -> userId = b \/ userId = c.
Proof.
  intros Hb Hh H.
  destruct before as [|x [|y [|z [|w before]]]]; simplify_eq/=; auto.
  destruct before; simplify_eq/=.
Qed.

Lemma global_segments now key :
  globalKeys now key ->
  exists dimension bucket,
    dimension ∈ dimensionNames /\ segments key = ["global"; dimension; bucket].
Proof.
  pose proof (colonFree_dayBucket now) as Hday.
  pose proof (colonFree_minuteBucket now) as Hminute.
  unfold dimensionNames.
  intros [-> | [-> | [-> | ->]]].
  - exists "rpm", (minuteBucket now). split; [set_solver|].
    change (globalRpmKey now)
      with ("global" +:+ ":" +:+ "rpm" +:+ ":" +:+ minuteBucket now).
    by rewrite !segments_colon, segments_last.
  - exists "rpd", (dayBucket now). split; [set_solver|].
    change (globalRpdKey now)
      with ("global" +:+ ":" +:+ "rpd" +:+ ":" +:+ dayBucket now).
    by rewrite !segments_colon, segments_last.
  - exists "tpm", (minuteBucket now). split; [set_solver|].
    change (globalTpmKey now)
      with ("global" +:+ ":" +:+ "tpm" +:+ ":" +:+ minuteBucket now).
    by rewrite !segments_colon, segments_last.
  - exists "tpd", (dayBucket now). split; [set_solver|].
    change (globalTpdKey now)
      with ("global" +:+ ":" +:+ "tpd" +:+ ":" +:+ dayBucket now).
    by rewrite !segments_colon, segments_last.
Qed.

Lemma identity_segments now other key :
  colonFree other = true ->
  identityKeys now other key ->
  (exists dimension bucket,
     dimension ∈ dimensionNames
     /\ segments key = ["user"; dimension; other; bucket])
  \/ (exists dimension bucket, segments key = [dimension; other; bucket]).
Proof.
  pose proof (colonFree_dayBucket now) as Hday.
  pose proof (colonFree_minuteBucket now) as Hminute.
  unfold dimensionNames.
  intros Hother [->|[->|[-> | [-> | [-> | ->]]]]].
  - left. exists "rpd", (dayBucket now). split; [set_solver|].
    change (userRpdKey other now)
      with ("user" +:+ ":" +:+ "rpd" +:+ ":" +:+ other +:+ ":" +:+ dayBucket now).
    by rewrite !segments_colon, segments_last.
  - left. exists "tpd", (dayBucket now). split; [set_solver|].
    change (userTpdKey other now)
      with ("user" +:+ ":" +:+ "tpd" +:+ ":" +:+ other +:+ ":" +:+ dayBucket now).
    by rewrite !segments_colon, segments_last.
  - right. exists "rpm", (minuteBucket now). unfold rewardKey.
    by rewrite !segments_colon, segments_last.
  - right. exists "rpd", (dayBucket now). unfold rewardKey.
    by rewrite !segments_colon, segments_last.
  - right. exists "tpm", (minuteBucket now). unfold rewardKey.
    by rewrite !segments_colon, segments_last.
  - right. exists "tpd", (dayBucket now). unfold rewardKey.
    by rewrite !segments_colon, segments_last.
Qed.

(** The mark of an identity occurs in each of its own keys. *)
Lemma identity_marked now userId key :
  identityKeys now userId key -> occurs (identityMark userId) key = true.
Proof.
  intros Hkey. apply occurs_iff. unfold identityMark.
  destruct Hkey as [->|[->|[-> | [-> | [-> | ->]]]]].
  - exists "user:rpd", (dayBucket now). unfold userRpdKey.
    change ("user:rpd:" +:+ userId +:+ ":" +:+ dayBucket now)
      with ("user:rpd" +:+ ":" +:+ userId +:+ ":" +:+ dayBucket now).
    by rewrite !string_app_assoc.
  - exists "user:tpd", (dayBucket now). unfold userTpdKey.
    change ("user:tpd:" +:+ userId +:+ ":" +:+ dayBucket now)
      with ("user:tpd" +:+ ":" +:+ userId +:+ ":" +:+ dayBucket now).
    by rewrite !string_app_assoc.
  - exists "rpm", (minuteBucket now). unfold rewardKey.
    by rewrite !string_app_assoc.
  - exists "rpd", (dayBucket now). unfold rewardKey.
    by rewrite !string_app_assoc.
  - exists "tpm", (minuteBucket now). unfold rewardKey.
    by rewrite !string_app_assoc.
  - exists "tpd", (dayBucket now). unfold rewardKey.
    by rewrite !string_app_assoc.
Qed.

(** A marked key reads zero once the matched keys are deleted. *)
Lemma deleted_reads_zero matches userId r r' keys key :
  globLike matches -> globFree userId = true ->
  (forall key, key ∈ keys
     <-> is_Some (peek r key) /\ matches ("*:" +:+ userId +:+ ":*") key = true) ->
  clock r' = clock r ->
  db r' = foldr delete (db r) keys ->
  occurs (identityMark userId) key = true ->
  counterValue r' key = 0.
Proof.
  intros Hglob Hfree Hkeys Hclock Hdb Hocc.
  unfold counterValue, peek. rewrite Hdb, lookup_foldr_delete, Hclock.
  destruct (decide (key ∈ keys)) as [Hin|Hout]; [done|].
  destruct (db r !! key) as [e|] eqn:Hkey; [|done].
  destruct (live (clock r) e) eqn:Hlive; [|done].
  exfalso. apply Hout, Hkeys. split.
  - unfold peek. rewrite Hkey, Hlive. by eexists.
  - by rewrite matches_reset_pattern.
Qed.

(** An unmarked key keeps its entry. *)
Lemma unmarked_kept matches userId r keys key :
  globLike matches -> globFree userId = true ->
  (forall key, key ∈ keys
     <-> is_Some (peek r key) /\ matches ("*:" +:+ userId +:+ ":*") key = true) ->
  occurs (identityMark userId) key = false ->
  foldr delete (db r) keys !! key = db r !! key.
Proof.
  intros Hglob Hfree Hkeys Hocc. rewrite lookup_foldr_delete.
  destruct (decide (key ∈ keys)) as [Hin|Hout]; [|done].
  apply Hkeys in Hin as [_ Hin].
  rewrite matches_reset_pattern in Hin by done. congruence.
Qed.

Lemma betweenStars_globLike : globLike betweenStars.
Proof.
  intros literal key _.
  change ("*" +:+ literal +:+ "*") with (String "*" (literal +:+ "*")).
  unfold betweenStars. f_equal.
  induction literal as [|c literal IH]; [done|].
  change (String c literal +:+ "*") with (String c (literal +:+ "*")).
  simpl. rewrite IH. by destruct literal.
Qed.

(** X18.  DELETE /api/resetQuota/:userId, for an identity without glob
    characters (star, question mark, bracket, backslash), when none of its
    at most three commands meets a fault: the answer is 200 with the live
    keys in which the identity occurs between two colons, each once, and
    with their number in the message.  Afterwards every key in which it so
    occurs reads zero, among them the identity's daily request and token
    counters and its reward counters of any date, and every other key keeps
    its entry. *)
Theorem resetQuota_clears_identity matches userId r :
  globLike matches ->
  globFree userId = true ->
  no_fault 3 (faults r) = true ->
  exists keys,
    (resetQuota matches userId r).1
      = Resolved (ResetJson 200
          ("Reset " +:+ pretty (length keys) +:+ " quota keys for user "
           +:+ userId) keys)
    /\ NoDup keys
    /\ (forall key, key ∈ keys
          <-> is_Some (peek r key) /\ occurs (identityMark userId) key = true)
    /\ (forall key, occurs (identityMark userId) key = true ->
          counterValue (resetQuota matches userId r).2 key = 0)
    /\ (forall now key, identityKeys now userId key ->
          counterValue (resetQuota matches userId r).2 key = 0)
    /\ (forall key, occurs (identityMark userId) key = false ->
          db (resetQuota matches userId r).2 !! key = db r !! key).
Proof.
  intros Hglob Hfree Hok.
  destruct (resetQuota_run matches userId r)
    as (keys & Hnodup & Hkeys & Hclock & _ & _ & Hdb & Hout & _).
  specialize (Hdb (no_fault_le 3 2 _ ltac:(lia) Hok)).
  specialize (Hout Hok).
  assert (forall key, occurs (identityMark userId) key = true ->
            counterValue (resetQuota matches userId r).2 key = 0) as Hzero.
  { intros key. by apply (deleted_reads_zero matches userId r _ keys). }
  exists keys. split; [done|]. split; [done|]. split; [|split; [done|split]].
  - intros key. rewrite Hkeys. by rewrite matches_reset_pattern.
  - intros now key Hkey. by apply Hzero, (identity_marked now).
  - intros key Hocc. rewrite Hdb.
    by apply (unmarked_kept matches userId).
Qed.

Lemma resetQuota_clears_identity_witness :
  counterValue (resetQuota betweenStars "u1" sharedRedis).2
    (userRpdKey "u1" newYear) = 0
  /\ db (resetQuota betweenStars "u1" sharedRedis).2 !! "user:rpd:u10:2024-0-1"
     = Some (mkEntry 2 (Some 2000000000000)).
Proof.
  destruct (resetQuota_clears_identity betweenStars "u1" sharedRedis
              betweenStars_globLike eq_refl eq_refl)
    as (keys & _ & _ & _ & _ & Hown & Hkept).
  split.
  - apply (Hown newYear). left. reflexivity.
  - rewrite Hkept by reflexivity. reflexivity.
Defined.

(** The mark of [userId] does not occur in a key of three segments whose
    middle one is another text, nor in one of four whose two inner ones are
    other texts. *)
Lemma unmarked_of_three userId key a b c :
  colonFree userId = true -> segments key = [a; b; c] -> userId <> b ->
  occurs (identityMark userId) key = false.
Proof.
  intros Hfree Hseg Hne. apply not_true_is_false. intros Hocc.
  destruct (marked_segments userId key Hfree Hocc)
    as (before & behind & Hb & Hh & Heq).
  rewrite Hseg in Heq. by apply middle_of_three in Heq.
Qed.

Lemma unmarked_of_four userId key a b c d :
  colonFree userId = true -> segments key = [a; b; c; d] ->
  userId <> b -> userId <> c ->
  occurs (identityMark userId) key = false.
Proof.
  intros Hfree Hseg Hb' Hc'. apply not_true_is_false. intros Hocc.
  destruct (marked_segments userId key Hfree Hocc)
    as (before & behind & Hb & Hh & Heq).
  rewrite Hseg in Heq. apply middle_of_four in Heq as [?|?]; done.
Qed.

(** X19.  Whatever the faults, a reset of an identity that contains no
    colon and no glob character and is not spelled like a dimension (rpm,
    rpd, tpm, tpd) leaves the entries of the four global counters and of
    the ledger and reward counters of every other colon-free identity as
    they were. *)
Theorem resetQuota_spares_the_others matches userId r now :
  globLike matches ->
  globFree userId = true ->
  colonFree userId = true ->
  userId ∉ dimensionNames ->
  (forall key, globalKeys now key ->
     db (resetQuota matches userId r).2 !! key = db r !! key)
  /\ (forall other key,
        colonFree other = true -> other <> userId ->
        identityKeys now other key ->
        db (resetQuota matches userId r).2 !! key = db r !! key).
Proof.
  intros Hglob Hfree Hcolon Hdim.
  destruct (resetQuota_run matches userId r)
    as (keys & _ & Hkeys & _ & _ & Hdb & _).
  assert (forall key, occurs (identityMark userId) key = false ->
            db (resetQuota matches userId r).2 !! key = db r !! key) as Hkept.
  { intros key Hocc. destruct Hdb as [->| ->]; [done|].
    by apply (unmarked_kept matches userId). }
  split.
  - intros key Hkey. apply Hkept.
    destruct (global_segments now key Hkey) as (dimension & bucket & Hin & Hseg).
    apply (unmarked_of_three _ _ _ _ _ Hcolon Hseg). by intros ->.
  - intros other key Hother Hne Hkey. apply Hkept.
    destruct (identity_segments now other key Hother Hkey)
      as [(dimension & bucket & Hin & Hseg)|(dimension & bucket & Hseg)].
    + apply (unmarked_of_four _ _ _ _ _ _ Hcolon Hseg); [by intros ->|done].
    + by apply (unmarked_of_three _ _ _ _ _ Hcolon Hseg).
Qed.

Lemma resetQuota_spares_the_others_witness :
  db (resetQuota betweenStars "u1" sharedRedis).2 !! globalRpdKey newYear
  = db sharedRedis !! globalRpdKey newYear
  /\ db (resetQuota betweenStars "u1" sharedRedis).2 !! userRpdKey "u10" newYear
     = db sharedRedis !! userRpdKey "u10" newYear.
Proof.
  assert ("u1" ∉ dimensionNames) as Hdim.
  { unfold dimensionNames. intros Hin.
    repeat (apply elem_of_cons in Hin as [Hin|Hin]; [discriminate Hin|]).
    by apply elem_of_nil in Hin. }
  destruct (resetQuota_spares_the_others betweenStars "u1" sharedRedis newYear
              betweenStars_globLike eq_refl eq_refl Hdim) as [Hglobal Hothers].
  split.
  - apply Hglobal. right. left. reflexivity.
  - apply (Hothers "u10"); [reflexivity|discriminate|]. left. reflexivity.
Defined.

(** X20.  An identity spelled like a dimension is not told apart from the
    dimension segment of the keys: once the first two commands of its reset
    meet no fault, resetting rpm zeroes the global requests-per-minute
    counter, resetting rpd the global daily request counter and the daily
    request counter of every identity, and likewise tpm and tpd for the
    token counters. *)
Theorem resetQuota_dimension_name matches r now other :
  globLike matches ->
  no_fault 2 (faults r) = true ->
  counterValue (resetQuota matches "rpm" r).2 (globalRpmKey now) = 0
  /\ counterValue (resetQuota matches "rpd" r).2 (globalRpdKey now) = 0
  /\ counterValue (resetQuota matches "rpd" r).2 (userRpdKey other now) = 0
  /\ counterValue (resetQuota matches "tpm" r).2 (globalTpmKey now) = 0
  /\ counterValue (resetQuota matches "tpd" r).2 (globalTpdKey now) = 0
  /\ counterValue (resetQuota matches "tpd" r).2 (userTpdKey other now) = 0.
Proof.
  intros Hglob Hok.
  assert (forall dimension key,
            globFree dimension = true ->
            occurs (identityMark dimension) key = true ->
            counterValue (resetQuota matches dimension r).2 key = 0) as Hzero.
  { intros dimension key Hfree Hocc.
    destruct (resetQuota_run matches dimension r)
      as (keys & _ & Hkeys & Hclock & _ & _ & Hdb & _).
    by apply (deleted_reads_zero matches dimension r _ keys); auto. }
  repeat split; (apply Hzero; [done|]); apply occurs_iff.
  - by exists "global", (minuteBucket now).
  - by exists "global", (dayBucket now).
  - by exists "user", (other +:+ ":" +:+ dayBucket now).
  - by exists "global", (minuteBucket now).
  - by exists "global", (dayBucket now).
  - by exists "user", (other +:+ ":" +:+ dayBucket now).
Qed.

Lemma resetQuota_dimension_name_witness :
  counterValue sharedRedis (globalRpdKey newYear) = 6
  /\ counterValue sharedRedis (userRpdKey "u1" newYear) = 4
  /\ counterValue (resetQuota betweenStars "rpd" sharedRedis).2
       (globalRpdKey newYear) = 0
  /\ counterValue (resetQuota betweenStars "rpd" sharedRedis).2
       (userRpdKey "u1" newYear) = 0.
Proof.
  destruct (resetQuota_dimension_name betweenStars sharedRedis newYear "u1"
              betweenStars_globLike eq_refl)
    as (_ & Hglobal & Hidentity & _).
  split; [reflexivity|]. split; [reflexivity|]. split; assumption.
Defined.

(** X21.  The answer 500 of a reset does not tell whether the keys were
    deleted.  For an identity without glob characters: when the first
    command meets a fault the answer is 500 and the store is as it was;
    when the identity has a live key and the fault is met by the third
    command, QUIT, the answer is 500 as well although every key in which
    the identity occurs between two colons reads zero by then. *)
Theorem resetQuota_failure matches userId r :
  globLike matches ->
  globFree userId = true ->
  (head (faults r) = Some true ->
   (resetQuota matches userId r).1
     = Resolved (ResetErrorJson 500 "Failed to reset quota")
   /\ db (resetQuota matches userId r).2 = db r)
  /\ (forall rest mine,
        faults r = false :: false :: true :: rest ->
        is_Some (peek r mine) ->
        occurs (identityMark userId) mine = true ->
        (resetQuota matches userId r).1
          = Resolved (ResetErrorJson 500 "Failed to reset quota")
        /\ forall key, occurs (identityMark userId) key = true ->
             counterValue (resetQuota matches userId r).2 key = 0).
Proof.
  intros Hglob Hfree.
  destruct (resetQuota_run matches userId r)
    as (keys & _ & Hkeys & Hclock & _ & _ & Hdb & _ & Hfirst & Hthird).
  split; [done|].
  intros rest mine Hfaults Hlive Hmine. split.
  - apply (Hthird rest Hfaults). intros ->.
    assert (mine ∈ []) as Hin; [|by apply elem_of_nil in Hin].
    apply Hkeys. split; [done|]. by rewrite matches_reset_pattern.
  - intros key Hocc.
    apply (deleted_reads_zero matches userId r _ keys); auto.
    apply Hdb. by rewrite Hfaults.
Qed.

Lemma resetQuota_failure_witness :
  (resetQuota betweenStars "u1"
     (mkRedis (db sharedRedis) (clock sharedRedis) [false; false; true])).1
  = Resolved (ResetErrorJson 500 "Failed to reset quota")
  /\ counterValue
       (resetQuota betweenStars "u1"
          (mkRedis (db sharedRedis) (clock sharedRedis) [false; false; true])).2
       (userRpdKey "u1" newYear) = 0
  /\ db (resetQuota betweenStars "u1"
           (mkRedis (db sharedRedis) (clock sharedRedis) [true])).2
     = db sharedRedis.
Proof.
  pose proof (resetQuota_failure betweenStars "u1"
                (mkRedis (db sharedRedis) (clock sharedRedis) [false; false; true])
                betweenStars_globLike eq_refl) as [_ Hthird].
  pose proof (resetQuota_failure betweenStars "u1"
                (mkRedis (db sharedRedis) (clock sharedRedis) [true])
                betweenStars_globLike eq_refl) as [Hfirst _].
  destruct (Hthird [] (userRpdKey "u1" newYear) eq_refl) as [Hout Hzero].
  - exists (mkEntry 4 (Some 2000000000000)). reflexivity.
  - reflexivity.
  - split; [exact Hout|]. split; [by apply Hzero|].
    by apply Hfirst.
Defined.
